(** * Dialogs::Stories::List: layout, expansion and interaction engine

    A shallow embedding of
    [Telegram/SourceFiles/dialogs/ui/dialogs_stories_list.cpp]
    together with the properties of its layout function, its expansion
    hysteresis, its item reconciliation, its scroll model and its pointer
    handling.

    Conventions of the embedding:
    - a C++ [int] is a [Z]; signed overflow is undefined behaviour in C++,
      so there is no wrap-around to write out, and the model describes the
      executions that stay inside the range of [int];
    - [a / b] on [int] is [Z.quot a b] (truncation towards zero);
    - a [float64] is an exact rational [Q]: the handlers are embedded in
      exact arithmetic, rounding is not part of them, and a division by
      zero leaves the model through [NotFinite]; [computeLayoutIn] is
      [computeLayout(float64)] over an arithmetic that is a parameter,
      exact or binary64, for what depends on the rounding;
    - a member function of the widget is a computation in the monad [M],
      which threads the widget, collects the events fired on the [rpl]
      event streams and stops at a failed [Expects];
    - [update()] only schedules a repaint and is left out. *)

From Stdlib Require Import ZArith QArith Qround Qminmax List Sorted String Bool
  Lia Lqa.
From Stdlib Require SpecFloat.
Import ListNotations.

Local Open Scope Z_scope.

(** ** Numbers *)

Module Float64.

Local Open Scope Q_scope.

Definition eqb (a b : Q) : bool := Qeq_bool a b.
Definition leb (a b : Q) : bool := Qle_bool a b.
Definition ltb (a b : Q) : bool := negb (Qle_bool b a).

(** [float64(n)] for an [int] [n]. *)
Definition of_int (n : Z) : Q := inject_Z n.

(** [int(x)]: the conversion truncates towards zero. *)
Definition to_int (x : Q) : Z := Z.quot (Qnum x) (Z.pos (Qden x)).

(** The result of [a / b]: with [b] zero the IEEE quotient is an
    infinity or a NaN. *)
Inductive quotient : Type :=
| Finite (q : Q)
| NotFinite.

Definition div (a b : Q) : quotient :=
  if Qeq_bool b 0 then NotFinite else Finite (a / b).

End Float64.

(** [std::clamp(v, lo, hi)] *)
Definition clamp (v lo hi : Z) : Z :=
  if v <? lo then lo else if hi <? v then hi else v.

Definition kSmallThumbsShown : Z := 3.
Definition kPreloadPages : Z := 2.
Definition kExpandAfterRatio : Q := 72 # 100.
Definition kCollapseAfterRatio : Q := 68 # 100.
Definition kFrictionRatio : Q := 15 # 100.

(** ** Style

    [styles/style_dialogs.h] is generated and not part of the sources; the
    style is a parameter, with the fields the code reads. *)

Module style.

Record DialogsStories : Type := {
  left : Z;
  height : Z;
  photo : Z;
  photoTop : Z;
  photoLeft : Z;
  shift : Z
}.

Record DialogsStoriesList : Type := {
  small : DialogsStories;
  full : DialogsStories;
  fullClickable : bool
}.

End style.

(** ** Qt values *)

Module QPoint.

Record t : Type := mk { x : Z; y : Z }.

Definition sub (a b : t) : t := mk (x a - x b) (y a - y b).
Definition manhattanLength (p : t) : Z := Z.abs (x p) + Z.abs (y p).

End QPoint.

Module QPointF.

Record t : Type := mk { x : Q; y : Q }.

End QPointF.

Module QRect.

(** Qt stores the corners: [x2 = x1 + width - 1]. *)
Record t : Type := mk { x1 : Z; y1 : Z; x2 : Z; y2 : Z }.

(** [QRect(left, top, width, height)] *)
Definition make (l tp w h : Z) : t := mk l tp (l + w - 1) (tp + h - 1).

(** [QRect()] *)
Definition null : t := mk 0 0 (-1) (-1).

Definition x (r : t) : Z := x1 r.
Definition y (r : t) : Z := y1 r.
Definition width (r : t) : Z := x2 r - x1 r + 1.
Definition height (r : t) : Z := y2 r - y1 r + 1.

Definition isNull (r : t) : bool :=
  (x2 r =? x1 r - 1) && (y2 r =? y1 r - 1).

Definition same_size (a b : t) : bool :=
  (width a =? width b) && (height a =? height b).

(** [QRect::united], the bounding rectangle of both. *)
Definition united (a b : t) : t :=
  if isNull a then b
  else if isNull b then a
  else
    let l1 := if x2 a <? x1 a - 1 then x2 a + 1 else x1 a in
    let r1 := if x2 a <? x1 a - 1 then x1 a - 1 else x2 a in
    let l2 := if x2 b <? x1 b - 1 then x2 b + 1 else x1 b in
    let r2 := if x2 b <? x1 b - 1 then x1 b - 1 else x2 b in
    let t1 := if y2 a <? y1 a - 1 then y2 a + 1 else y1 a in
    let b1 := if y2 a <? y1 a - 1 then y1 a - 1 else y2 a in
    let t2 := if y2 b <? y1 b - 1 then y2 b + 1 else y1 b in
    let b2 := if y2 b <? y1 b - 1 then y1 b - 1 else y2 b in
    mk (Z.min l1 l2) (Z.min t1 t2) (Z.max r1 r2) (Z.max b1 b2).

End QRect.

(** [Qt::AlignRight] and [Qt::AlignCenter] *)
Definition AlignRight : Z := 2.
Definition AlignCenter : Z := 132.

Inductive Cursor : Type := cur_default | cur_pointer.

(** [Ui::Animations::Simple]: [None] while idle, [Some v] while animating
    with current value [v].  The clock that advances it is outside the
    widget; see [expandedAnimationTick] and [expandCatchUpTick]. *)
Definition Simple : Type := option Q.

Module Animations.

Definition animating (a : Simple) : bool :=
  match a with Some _ => true | None => false end.

(** [value(final)] *)
Definition value (a : Simple) (final : Q) : Q :=
  match a with Some v => v | None => final end.

(** [start(callback, from, to, ...)]: a running animation goes on from
    its current value. *)
Definition start (a : Simple) (from : Q) : Simple :=
  match a with Some v => Some v | None => Some from end.

Definition stop (a : Simple) : Simple := None.

End Animations.

(** ** Data model

    [dialogs_stories_list.h] is not part of the sources.  The records
    list the members the code reads and writes; the comparison of two
    contents is structural. *)

Module Element.

Record t : Type := mk {
  id : N;
  name : string;
  thumbnail : option N;   (* std::shared_ptr<Thumbnail>, None = nullptr *)
  count : N;
  unreadCount : N;
  skipSmall : bool
}.

Definition thumbnail_eqb (a b : option N) : bool :=
  match a, b with
  | Some p, Some q => N.eqb p q
  | None, None => true
  | _, _ => false
  end.

Definition eqb (a b : t) : bool :=
  N.eqb (id a) (id b)
  && String.eqb (name a) (name b)
  && thumbnail_eqb (thumbnail a) (thumbnail b)
  && N.eqb (count a) (count b)
  && N.eqb (unreadCount a) (unreadCount b)
  && Bool.eqb (skipSmall a) (skipSmall b).

Definition set_thumbnail (v : option N) (e : t) : t :=
  mk (id e) (name e) v (count e) (unreadCount e) (skipSmall e).
Definition set_name (v : string) (e : t) : t :=
  mk (id e) v (thumbnail e) (count e) (unreadCount e) (skipSmall e).
Definition set_count (v : N) (e : t) : t :=
  mk (id e) (name e) (thumbnail e) v (unreadCount e) (skipSmall e).
Definition set_unreadCount (v : N) (e : t) : t :=
  mk (id e) (name e) (thumbnail e) (count e) v (skipSmall e).

End Element.

Module Content.

Record t : Type := mk { elements : list Element.t }.

Fixpoint elements_eqb (a b : list Element.t) : bool :=
  match a, b with
  | [], [] => true
  | x :: a', y :: b' => Element.eqb x y && elements_eqb a' b'
  | _, _ => false
  end.

(** [operator==] *)
Definition eqb (a b : t) : bool := elements_eqb (elements a) (elements b).

End Content.

Module Item.

Record t : Type := mk {
  element : Element.t;
  nameCache : option N;   (* QImage, None = QImage() *)
  nameCacheColor : N;
  subscribed : bool
}.

(** [Item{ .element = element }] *)
Definition fresh (e : Element.t) : t := mk e None 0%N false.

(** What [std::move(item)] leaves behind: the shared pointer, the
    string and the image are emptied, the scalars stay. *)
Definition moved_from (i : t) : t :=
  mk (Element.set_name EmptyString
        (Element.set_thumbnail None (element i)))
     None (nameCacheColor i) (subscribed i).

Definition set_element (v : Element.t) (i : t) : t :=
  mk v (nameCache i) (nameCacheColor i) (subscribed i).
Definition set_nameCache (v : option N) (i : t) : t :=
  mk (element i) v (nameCacheColor i) (subscribed i).
Definition set_subscribed (v : bool) (i : t) : t :=
  mk (element i) (nameCache i) (nameCacheColor i) v.

End Item.

Module Data.

Record t : Type := mk { items : list Item.t }.

Definition empty (d : t) : bool :=
  match items d with [] => true | _ :: _ => false end.

End Data.

Inductive State : Type := Small | Changing | Full.

Definition State_eqb (a b : State) : bool :=
  match a, b with
  | Small, Small | Changing, Changing | Full, Full => true
  | _, _ => false
  end.

(** ** The widget *)

Record Widget : Type := mkWidget {
  _content : Content.t;
  _data : Data.t;
  _empty : bool;
  _scrollLeft : Z;
  _scrollLeftMax : Z;
  _startDraggingLeft : Z;
  _dragging : bool;
  _expanded : bool;
  _expandedAnimation : Simple;
  _expandCatchUpAnimation : Simple;
  _lastRatio : Q;
  _lastExpandedHeight : Z;
  _expandIgnored : bool;
  _state : State;
  _positionSmall : QPoint.t;
  _alignSmall : Z;
  _geometryFull : QRect.t;
  _changingGeometryFrom : QRect.t;
  _lastMousePosition : QPoint.t;
  _mouseDownPosition : option QPoint.t;
  _selected : Z;
  _pressed : Z;
  geometry : QRect.t;     (* QWidget::geometry() *)
  cursor : Cursor         (* QWidget::cursor() *)
}.

(** One setter for each member. *)

Definition set_content (v : Content.t) (w : Widget) : Widget :=
  mkWidget
    v (_data w) (_empty w) (_scrollLeft w) (_scrollLeftMax w)
    (_startDraggingLeft w) (_dragging w) (_expanded w)
    (_expandedAnimation w) (_expandCatchUpAnimation w) (_lastRatio w)
    (_lastExpandedHeight w) (_expandIgnored w) (_state w)
    (_positionSmall w) (_alignSmall w) (_geometryFull w)
    (_changingGeometryFrom w) (_lastMousePosition w) (_mouseDownPosition
    w) (_selected w) (_pressed w) (geometry w) (cursor w).

Definition set_data (v : Data.t) (w : Widget) : Widget :=
  mkWidget
    (_content w) v (_empty w) (_scrollLeft w) (_scrollLeftMax w)
    (_startDraggingLeft w) (_dragging w) (_expanded w)
    (_expandedAnimation w) (_expandCatchUpAnimation w) (_lastRatio w)
    (_lastExpandedHeight w) (_expandIgnored w) (_state w)
    (_positionSmall w) (_alignSmall w) (_geometryFull w)
    (_changingGeometryFrom w) (_lastMousePosition w) (_mouseDownPosition
    w) (_selected w) (_pressed w) (geometry w) (cursor w).

Definition set_empty (v : bool) (w : Widget) : Widget :=
  mkWidget
    (_content w) (_data w) v (_scrollLeft w) (_scrollLeftMax w)
    (_startDraggingLeft w) (_dragging w) (_expanded w)
    (_expandedAnimation w) (_expandCatchUpAnimation w) (_lastRatio w)
    (_lastExpandedHeight w) (_expandIgnored w) (_state w)
    (_positionSmall w) (_alignSmall w) (_geometryFull w)
    (_changingGeometryFrom w) (_lastMousePosition w) (_mouseDownPosition
    w) (_selected w) (_pressed w) (geometry w) (cursor w).

Definition set_scrollLeft (v : Z) (w : Widget) : Widget :=
  mkWidget
    (_content w) (_data w) (_empty w) v (_scrollLeftMax w)
    (_startDraggingLeft w) (_dragging w) (_expanded w)
    (_expandedAnimation w) (_expandCatchUpAnimation w) (_lastRatio w)
    (_lastExpandedHeight w) (_expandIgnored w) (_state w)
    (_positionSmall w) (_alignSmall w) (_geometryFull w)
    (_changingGeometryFrom w) (_lastMousePosition w) (_mouseDownPosition
    w) (_selected w) (_pressed w) (geometry w) (cursor w).

Definition set_scrollLeftMax (v : Z) (w : Widget) : Widget :=
  mkWidget
    (_content w) (_data w) (_empty w) (_scrollLeft w) v
    (_startDraggingLeft w) (_dragging w) (_expanded w)
    (_expandedAnimation w) (_expandCatchUpAnimation w) (_lastRatio w)
    (_lastExpandedHeight w) (_expandIgnored w) (_state w)
    (_positionSmall w) (_alignSmall w) (_geometryFull w)
    (_changingGeometryFrom w) (_lastMousePosition w) (_mouseDownPosition
    w) (_selected w) (_pressed w) (geometry w) (cursor w).

Definition set_startDraggingLeft (v : Z) (w : Widget) : Widget :=
  mkWidget
    (_content w) (_data w) (_empty w) (_scrollLeft w) (_scrollLeftMax w)
    v (_dragging w) (_expanded w) (_expandedAnimation w)
    (_expandCatchUpAnimation w) (_lastRatio w) (_lastExpandedHeight w)
    (_expandIgnored w) (_state w) (_positionSmall w) (_alignSmall w)
    (_geometryFull w) (_changingGeometryFrom w) (_lastMousePosition w)
    (_mouseDownPosition w) (_selected w) (_pressed w) (geometry w)
    (cursor w).

Definition set_dragging (v : bool) (w : Widget) : Widget :=
  mkWidget
    (_content w) (_data w) (_empty w) (_scrollLeft w) (_scrollLeftMax w)
    (_startDraggingLeft w) v (_expanded w) (_expandedAnimation w)
    (_expandCatchUpAnimation w) (_lastRatio w) (_lastExpandedHeight w)
    (_expandIgnored w) (_state w) (_positionSmall w) (_alignSmall w)
    (_geometryFull w) (_changingGeometryFrom w) (_lastMousePosition w)
    (_mouseDownPosition w) (_selected w) (_pressed w) (geometry w)
    (cursor w).

Definition set_expanded (v : bool) (w : Widget) : Widget :=
  mkWidget
    (_content w) (_data w) (_empty w) (_scrollLeft w) (_scrollLeftMax w)
    (_startDraggingLeft w) (_dragging w) v (_expandedAnimation w)
    (_expandCatchUpAnimation w) (_lastRatio w) (_lastExpandedHeight w)
    (_expandIgnored w) (_state w) (_positionSmall w) (_alignSmall w)
    (_geometryFull w) (_changingGeometryFrom w) (_lastMousePosition w)
    (_mouseDownPosition w) (_selected w) (_pressed w) (geometry w)
    (cursor w).

Definition set_expandedAnimation (v : Simple) (w : Widget) : Widget :=
  mkWidget
    (_content w) (_data w) (_empty w) (_scrollLeft w) (_scrollLeftMax w)
    (_startDraggingLeft w) (_dragging w) (_expanded w) v
    (_expandCatchUpAnimation w) (_lastRatio w) (_lastExpandedHeight w)
    (_expandIgnored w) (_state w) (_positionSmall w) (_alignSmall w)
    (_geometryFull w) (_changingGeometryFrom w) (_lastMousePosition w)
    (_mouseDownPosition w) (_selected w) (_pressed w) (geometry w)
    (cursor w).

Definition set_expandCatchUpAnimation (v : Simple) (w : Widget) : Widget :=
  mkWidget
    (_content w) (_data w) (_empty w) (_scrollLeft w) (_scrollLeftMax w)
    (_startDraggingLeft w) (_dragging w) (_expanded w)
    (_expandedAnimation w) v (_lastRatio w) (_lastExpandedHeight w)
    (_expandIgnored w) (_state w) (_positionSmall w) (_alignSmall w)
    (_geometryFull w) (_changingGeometryFrom w) (_lastMousePosition w)
    (_mouseDownPosition w) (_selected w) (_pressed w) (geometry w)
    (cursor w).

Definition set_lastRatio (v : Q) (w : Widget) : Widget :=
  mkWidget
    (_content w) (_data w) (_empty w) (_scrollLeft w) (_scrollLeftMax w)
    (_startDraggingLeft w) (_dragging w) (_expanded w)
    (_expandedAnimation w) (_expandCatchUpAnimation w) v
    (_lastExpandedHeight w) (_expandIgnored w) (_state w)
    (_positionSmall w) (_alignSmall w) (_geometryFull w)
    (_changingGeometryFrom w) (_lastMousePosition w) (_mouseDownPosition
    w) (_selected w) (_pressed w) (geometry w) (cursor w).

Definition set_lastExpandedHeight (v : Z) (w : Widget) : Widget :=
  mkWidget
    (_content w) (_data w) (_empty w) (_scrollLeft w) (_scrollLeftMax w)
    (_startDraggingLeft w) (_dragging w) (_expanded w)
    (_expandedAnimation w) (_expandCatchUpAnimation w) (_lastRatio w) v
    (_expandIgnored w) (_state w) (_positionSmall w) (_alignSmall w)
    (_geometryFull w) (_changingGeometryFrom w) (_lastMousePosition w)
    (_mouseDownPosition w) (_selected w) (_pressed w) (geometry w)
    (cursor w).

Definition set_expandIgnored (v : bool) (w : Widget) : Widget :=
  mkWidget
    (_content w) (_data w) (_empty w) (_scrollLeft w) (_scrollLeftMax w)
    (_startDraggingLeft w) (_dragging w) (_expanded w)
    (_expandedAnimation w) (_expandCatchUpAnimation w) (_lastRatio w)
    (_lastExpandedHeight w) v (_state w) (_positionSmall w) (_alignSmall
    w) (_geometryFull w) (_changingGeometryFrom w) (_lastMousePosition
    w) (_mouseDownPosition w) (_selected w) (_pressed w) (geometry w)
    (cursor w).

Definition set_state (v : State) (w : Widget) : Widget :=
  mkWidget
    (_content w) (_data w) (_empty w) (_scrollLeft w) (_scrollLeftMax w)
    (_startDraggingLeft w) (_dragging w) (_expanded w)
    (_expandedAnimation w) (_expandCatchUpAnimation w) (_lastRatio w)
    (_lastExpandedHeight w) (_expandIgnored w) v (_positionSmall w)
    (_alignSmall w) (_geometryFull w) (_changingGeometryFrom w)
    (_lastMousePosition w) (_mouseDownPosition w) (_selected w)
    (_pressed w) (geometry w) (cursor w).

Definition set_positionSmall (v : QPoint.t) (w : Widget) : Widget :=
  mkWidget
    (_content w) (_data w) (_empty w) (_scrollLeft w) (_scrollLeftMax w)
    (_startDraggingLeft w) (_dragging w) (_expanded w)
    (_expandedAnimation w) (_expandCatchUpAnimation w) (_lastRatio w)
    (_lastExpandedHeight w) (_expandIgnored w) (_state w) v (_alignSmall
    w) (_geometryFull w) (_changingGeometryFrom w) (_lastMousePosition
    w) (_mouseDownPosition w) (_selected w) (_pressed w) (geometry w)
    (cursor w).

Definition set_alignSmall (v : Z) (w : Widget) : Widget :=
  mkWidget
    (_content w) (_data w) (_empty w) (_scrollLeft w) (_scrollLeftMax w)
    (_startDraggingLeft w) (_dragging w) (_expanded w)
    (_expandedAnimation w) (_expandCatchUpAnimation w) (_lastRatio w)
    (_lastExpandedHeight w) (_expandIgnored w) (_state w)
    (_positionSmall w) v (_geometryFull w) (_changingGeometryFrom w)
    (_lastMousePosition w) (_mouseDownPosition w) (_selected w)
    (_pressed w) (geometry w) (cursor w).

Definition set_geometryFull (v : QRect.t) (w : Widget) : Widget :=
  mkWidget
    (_content w) (_data w) (_empty w) (_scrollLeft w) (_scrollLeftMax w)
    (_startDraggingLeft w) (_dragging w) (_expanded w)
    (_expandedAnimation w) (_expandCatchUpAnimation w) (_lastRatio w)
    (_lastExpandedHeight w) (_expandIgnored w) (_state w)
    (_positionSmall w) (_alignSmall w) v (_changingGeometryFrom w)
    (_lastMousePosition w) (_mouseDownPosition w) (_selected w)
    (_pressed w) (geometry w) (cursor w).

Definition set_changingGeometryFrom (v : QRect.t) (w : Widget) : Widget :=
  mkWidget
    (_content w) (_data w) (_empty w) (_scrollLeft w) (_scrollLeftMax w)
    (_startDraggingLeft w) (_dragging w) (_expanded w)
    (_expandedAnimation w) (_expandCatchUpAnimation w) (_lastRatio w)
    (_lastExpandedHeight w) (_expandIgnored w) (_state w)
    (_positionSmall w) (_alignSmall w) (_geometryFull w) v
    (_lastMousePosition w) (_mouseDownPosition w) (_selected w)
    (_pressed w) (geometry w) (cursor w).

Definition set_lastMousePosition (v : QPoint.t) (w : Widget) : Widget :=
  mkWidget
    (_content w) (_data w) (_empty w) (_scrollLeft w) (_scrollLeftMax w)
    (_startDraggingLeft w) (_dragging w) (_expanded w)
    (_expandedAnimation w) (_expandCatchUpAnimation w) (_lastRatio w)
    (_lastExpandedHeight w) (_expandIgnored w) (_state w)
    (_positionSmall w) (_alignSmall w) (_geometryFull w)
    (_changingGeometryFrom w) v (_mouseDownPosition w) (_selected w)
    (_pressed w) (geometry w) (cursor w).

Definition set_mouseDownPosition (v : option QPoint.t) (w : Widget) : Widget :=
  mkWidget
    (_content w) (_data w) (_empty w) (_scrollLeft w) (_scrollLeftMax w)
    (_startDraggingLeft w) (_dragging w) (_expanded w)
    (_expandedAnimation w) (_expandCatchUpAnimation w) (_lastRatio w)
    (_lastExpandedHeight w) (_expandIgnored w) (_state w)
    (_positionSmall w) (_alignSmall w) (_geometryFull w)
    (_changingGeometryFrom w) (_lastMousePosition w) v (_selected w)
    (_pressed w) (geometry w) (cursor w).

Definition set_selected (v : Z) (w : Widget) : Widget :=
  mkWidget
    (_content w) (_data w) (_empty w) (_scrollLeft w) (_scrollLeftMax w)
    (_startDraggingLeft w) (_dragging w) (_expanded w)
    (_expandedAnimation w) (_expandCatchUpAnimation w) (_lastRatio w)
    (_lastExpandedHeight w) (_expandIgnored w) (_state w)
    (_positionSmall w) (_alignSmall w) (_geometryFull w)
    (_changingGeometryFrom w) (_lastMousePosition w) (_mouseDownPosition
    w) v (_pressed w) (geometry w) (cursor w).

Definition set_pressed (v : Z) (w : Widget) : Widget :=
  mkWidget
    (_content w) (_data w) (_empty w) (_scrollLeft w) (_scrollLeftMax w)
    (_startDraggingLeft w) (_dragging w) (_expanded w)
    (_expandedAnimation w) (_expandCatchUpAnimation w) (_lastRatio w)
    (_lastExpandedHeight w) (_expandIgnored w) (_state w)
    (_positionSmall w) (_alignSmall w) (_geometryFull w)
    (_changingGeometryFrom w) (_lastMousePosition w) (_mouseDownPosition
    w) (_selected w) v (geometry w) (cursor w).

Definition set_geometry (v : QRect.t) (w : Widget) : Widget :=
  mkWidget
    (_content w) (_data w) (_empty w) (_scrollLeft w) (_scrollLeftMax w)
    (_startDraggingLeft w) (_dragging w) (_expanded w)
    (_expandedAnimation w) (_expandCatchUpAnimation w) (_lastRatio w)
    (_lastExpandedHeight w) (_expandIgnored w) (_state w)
    (_positionSmall w) (_alignSmall w) (_geometryFull w)
    (_changingGeometryFrom w) (_lastMousePosition w) (_mouseDownPosition
    w) (_selected w) (_pressed w) v (cursor w).

Definition set_cursor (v : Cursor) (w : Widget) : Widget :=
  mkWidget
    (_content w) (_data w) (_empty w) (_scrollLeft w) (_scrollLeftMax w)
    (_startDraggingLeft w) (_dragging w) (_expanded w)
    (_expandedAnimation w) (_expandCatchUpAnimation w) (_lastRatio w)
    (_lastExpandedHeight w) (_expandIgnored w) (_state w)
    (_positionSmall w) (_alignSmall w) (_geometryFull w)
    (_changingGeometryFrom w) (_lastMousePosition w) (_mouseDownPosition
    w) (_selected w) (_pressed w) (geometry w) v.

(** ** Events, failures and the widget monad *)

(** What the widget fires on its event streams. *)
Inductive Event : Type :=
| clicks (id : N)
| toggleExpandedRequests (expanded : bool)
| entered
| loadMoreRequests
| collapsedGeometryChanged.

Inductive Failure : Type :=
| ExpectsFailed        (* a violated [Expects] terminates the program *)
| NonFiniteFloat       (* a division by a zero [float64] *)
| UndefinedBehaviour.  (* an empty optional or an index out of range *)

Inductive Outcome (A : Type) : Type :=
| Returned (a : A) (w : Widget)
| Stopped (f : Failure).

Arguments Returned {A} a w.
Arguments Stopped {A} f.

Record Run (A : Type) : Type := mkRun {
  fired : list Event;
  outcome : Outcome A
}.

Arguments mkRun {A} fired outcome.
Arguments fired {A} r.
Arguments outcome {A} r.

Definition M (A : Type) : Type := Widget -> Run A.

Definition ret {A} (a : A) : M A := fun w => mkRun [] (Returned a w).

Definition bind {A B} (m : M A) (k : A -> M B) : M B :=
  fun w =>
    match outcome (m w) with
    | Returned a w' =>
        mkRun (fired (m w) ++ fired (k a w')) (outcome (k a w'))
    | Stopped f => mkRun (fired (m w)) (Stopped f)
    end.

Definition get : M Widget := fun w => mkRun [] (Returned w w).
Definition modify (f : Widget -> Widget) : M unit :=
  fun w => mkRun [] (Returned tt (f w)).
Definition fire (e : Event) : M unit := fun w => mkRun [e] (Returned tt w).
Definition fail {A} (f : Failure) : M A := fun _ => mkRun [] (Stopped f).

Declare Scope widget_scope.
Delimit Scope widget_scope with widget.
Notation "x <- m ;; k" := (bind m (fun x => k))
  (at level 61, m at next level, right associativity) : widget_scope.
Notation "m ;; k" := (bind m (fun _ => k))
  (at level 61, right associativity) : widget_scope.
Notation "'when' c 'then' m" := (if c then m else ret tt)
  (at level 60, c at level 0) : widget_scope.

(** The widget a computation leaves behind, if it returns. *)
Definition after {A} (r : Run A) : option Widget :=
  match outcome r with Returned _ w => Some w | Stopped _ => None end.

Definition returned {A} (r : Run A) : option A :=
  match outcome r with Returned a _ => Some a | Stopped _ => None end.

(** ** Layout *)

Module Layout.

Record t : Type := mk {
  itemsCount : Z;
  geometryShift : QPointF.t;
  expandedRatio : Q;
  ratio : Q;
  thumbnailLeft : Q;
  photoLeft : Q;
  left : Q;
  single : Q;
  smallSkip : Z;
  leftFull : Z;
  leftSmall : Z;
  singleFull : Z;
  singleSmall : Z;
  startIndexSmall : Z;
  endIndexSmall : Z;
  startIndexFull : Z;
  endIndexFull : Z
}.

End Layout.

(** ** Pointer and wheel events *)

Inductive MouseButton : Type := LeftButton | OtherButton.

Record QMouseEvent : Type := {
  button : MouseButton;
  globalPos : QPoint.t
}.

Record QWheelEvent : Type := {
  angleDelta : QPoint.t;
  pixelDelta : QPoint.t
}.

Definition items_size (w : Widget) : Z :=
  Z.of_nat (List.length (Data.items (_data w))).

Definition width (w : Widget) : Z := QRect.width (geometry w).
Definition x (w : Widget) : Z := QRect.x (geometry w).
Definition y (w : Widget) : Z := QRect.y (geometry w).

(** ** Reconciliation of a content with the items *)

Definition item_id (i : Item.t) : N := Element.id (Item.element i).

(** [ranges::find(items, id, &Item::element.id)] followed by [std::move]
    of the found item: the first item with that id, and the list in which
    it is left moved-from. *)
Fixpoint take_by_id (id : N) (items : list Item.t)
  : option (Item.t * list Item.t) :=
  match items with
  | [] => None
  | i :: rest =>
      if N.eqb (item_id i) id then Some (i, Item.moved_from i :: rest)
      else match take_by_id id rest with
           | Some (found, rest') => Some (found, i :: rest')
           | None => None
           end
  end.

(** The body of the branch [i != end(items)] once the item is in place. *)
Definition merge (item : Item.t) (element : Element.t) : Item.t :=
  let item :=
    if negb (Element.thumbnail_eqb
               (Element.thumbnail (Item.element item))
               (Element.thumbnail element))
    then Item.set_subscribed false
           (Item.set_element
              (Element.set_thumbnail (Element.thumbnail element)
                 (Item.element item)) item)
    else item in
  let item :=
    if negb (String.eqb (Element.name (Item.element item))
               (Element.name element))
    then Item.set_nameCache None
           (Item.set_element
              (Element.set_name (Element.name element)
                 (Item.element item)) item)
    else item in
  Item.set_element
    (Element.set_unreadCount (Element.unreadCount element)
       (Element.set_count (Element.count element) (Item.element item)))
    item.

(** The loop of [showContent]: [items] are the taken previous items,
    [result] is [_data.items] as built so far. *)
Fixpoint reconcile (elements : list Element.t) (items result : list Item.t)
  : list Item.t :=
  match elements with
  | [] => result
  | element :: rest =>
      match take_by_id (Element.id element) items with
      | Some (found, items') =>
          reconcile rest items' (result ++ [merge found element])
      | None => reconcile rest items (result ++ [Item.fresh element])
      end
  end.

(** The ratio of [updateExpanding]. *)
Definition expandingRatio (expandingHeight expandedHeight : Z)
  : Float64.quotient :=
  if expandingHeight =? 0 then Float64.Finite 0
  else Float64.div (Float64.of_int expandingHeight)
         (Float64.of_int expandedHeight).

Section Widget.

Local Open Scope widget_scope.

(** The style the widget was created with. *)
Variable _st : style.DialogsStoriesList.
(** [style::RightToLeft()] *)
Variable RightToLeft : bool.
(** [QApplication::startDragDistance()] *)
Variable startDragDistance : Z.
(** The global position of the origin of the parent widget. *)
Variable parentOrigin : QPoint.t.

Definition mapFromGlobal (w : Widget) (p : QPoint.t) : QPoint.t :=
  QPoint.sub (QPoint.sub p parentOrigin) (QPoint.mk (x w) (y w)).

Definition checkLoadMore : M unit :=
  w <- get ;;
  when (_scrollLeftMax w - _scrollLeft w <? width w * kPreloadPages)
  then fire loadMoreRequests.

Definition updateScrollMax : M unit :=
  w <- get ;;
  let full := style.full _st in
  let singleFull := style.photoLeft full * 2 + style.photo full in
  let widthFull := style.left full + items_size w * singleFull in
  modify (set_scrollLeftMax (Z.max (widthFull - width w) 0)) ;;
  modify (fun w => set_scrollLeft
                     (clamp (_scrollLeft w) 0 (_scrollLeftMax w)) w) ;;
  checkLoadMore.

Definition resizeEvent : M unit := updateScrollMax.

(** [QWidget::setGeometry] of a shown widget: the rectangle is stored
    and a change of size is delivered as a resize event. *)
Definition setGeometry (r : QRect.t) : M unit :=
  w <- get ;;
  modify (set_geometry r) ;;
  when (negb (QRect.same_size (geometry w) r)) then resizeEvent.

Definition computeLayout (expanded : Q) (w : Widget) : Layout.t :=
  let st := style.small _st in
  let full := style.full _st in
  let expandedRatio := _lastRatio w in
  let collapsedRatio := (expandedRatio * kFrictionRatio)%Q in
  let ratio :=
    (expandedRatio * expanded + collapsedRatio * (1 - expanded))%Q in
  let lerp (a b : Q) : Q := (a + (b - a) * ratio)%Q in
  let widthFull := width w in
  let itemsCount := items_size w in
  let leftFullMin := style.left full in
  let singleFullMin := style.photoLeft full * 2 + style.photo full in
  let totalFull := leftFullMin + singleFullMin * itemsCount in
  let skipSide :=
    if totalFull <? widthFull
    then Z.quot (widthFull - totalFull) (itemsCount + 1)
    else 0 in
  let skipBetween :=
    if (totalFull <? widthFull) && (1 <? itemsCount)
    then Z.quot (widthFull - totalFull - 2 * skipSide) (itemsCount - 1)
    else skipSide in
  let singleFull := singleFullMin + skipBetween in
  let smallSkip :=
    if (1 <? itemsCount)
       && match Data.items (_data w) with
          | first :: _ => Element.skipSmall (Item.element first)
          | [] => false
          end
    then 1 else 0 in
  let smallCount := Z.min kSmallThumbsShown (itemsCount - smallSkip) in
  let leftSmall :=
    style.left st - (if smallSkip =? 0 then 0 else style.shift st) in
  let leftFull := style.left full - _scrollLeft w + skipSide in
  let startIndexFull := Z.quot (Z.max (- leftFull) 0) singleFull in
  let cellLeftFull := leftFull + startIndexFull * singleFull in
  let endIndexFull :=
    Z.min (Z.quot (width w - leftFull + singleFull - 1) singleFull)
      itemsCount in
  let startIndexSmall := Z.min startIndexFull smallSkip in
  let endIndexSmall := smallSkip + smallCount in
  let cellLeftSmall := leftSmall + startIndexSmall * style.shift st in
  let thumbnailLeftFull := cellLeftFull + style.photoLeft full in
  let thumbnailLeftSmall := cellLeftSmall + style.photoLeft st in
  let thumbnailLeft :=
    lerp (Float64.of_int thumbnailLeftSmall)
      (Float64.of_int thumbnailLeftFull) in
  let photoLeft :=
    lerp (Float64.of_int (style.photoLeft st))
      (Float64.of_int (style.photoLeft full)) in
  Layout.mk
    itemsCount
    (QPointF.mk
       (if State_eqb (_state w) Changing
        then (lerp (Float64.of_int (QRect.x (_changingGeometryFrom w)))
                (Float64.of_int (QRect.x (_geometryFull w)))
              - Float64.of_int (x w))%Q
        else 0%Q)
       (if State_eqb (_state w) Changing
        then (lerp (Float64.of_int (QRect.y (_changingGeometryFrom w)))
                (Float64.of_int (QRect.y (_geometryFull w)))
              - Float64.of_int (y w))%Q
        else 0%Q))
    expandedRatio
    ratio
    thumbnailLeft
    photoLeft
    (thumbnailLeft - photoLeft)%Q
    (lerp (Float64.of_int (style.shift st)) (Float64.of_int singleFull))
    smallSkip
    leftFull
    leftSmall
    singleFull
    (style.shift st)
    startIndexSmall
    endIndexSmall
    startIndexFull
    endIndexFull.

Definition countSmallGeometry (w : Widget) : QRect.t :=
  let st := style.small _st in
  let layout := computeLayout 0 w in
  let count :=
    Layout.endIndexSmall layout
    - Z.max (Layout.startIndexSmall layout) (Layout.smallSkip layout) in
  let width :=
    style.left st
    + style.photoLeft st
    + style.photo st + (count - 1) * style.shift st
    + style.photoLeft st
    + style.left st in
  let left :=
    if Z.land (_alignSmall w) AlignRight =? AlignRight
    then QPoint.x (_positionSmall w) - width
    else if Z.land (_alignSmall w) AlignCenter =? AlignCenter
    then QPoint.x (_positionSmall w) - Z.quot width 2
    else QPoint.x (_positionSmall w) in
  QRect.make left (QPoint.y (_positionSmall w)) width
    (style.photoTop st + style.photo st + style.photoTop st).

Definition updateGeometry : M unit :=
  w <- get ;;
  match _state w with
  | Small => setGeometry (countSmallGeometry w)
  | Changing =>
      modify (set_changingGeometryFrom (countSmallGeometry w)) ;;
      w <- get ;;
      setGeometry
        (QRect.united (_geometryFull w) (_changingGeometryFrom w))
  | Full => setGeometry (_geometryFull w)
  end.

Definition setState (state : State) : M unit :=
  w <- get ;;
  if State_eqb (_state w) state then ret tt
  else (modify (set_state state) ;; updateGeometry).

Definition checkForFullState : M bool :=
  w <- get ;;
  if Animations.animating (_expandCatchUpAnimation w)
     || Animations.animating (_expandedAnimation w)
     || (_lastExpandedHeight w <? style.height (style.full _st))
  then ret false
  else (setState Full ;; ret true).

(** The callback handed to [_expandedAnimation.start] runs on the ticks
    of the animation, see [expandedAnimationTick]. *)
Definition requestExpanded (expanded : bool) : M unit :=
  w <- get ;;
  (if negb (Bool.eqb (_expanded w) expanded)
   then (modify (set_expanded expanded) ;;
         modify (fun w =>
           let from : Q := if _expanded w then 0%Q else 1%Q in
           set_expandedAnimation
             (Animations.start (_expandedAnimation w) from) w))
   else ret tt) ;;
  w <- get ;;
  fire (toggleExpandedRequests (_expanded w)).

Definition showContent (content : Content.t) : M unit :=
  w <- get ;;
  if Content.eqb (_content w) content then ret tt
  else
    match Content.elements content with
    | [] =>
        modify (set_data (Data.mk [])) ;;
        modify (set_empty true)
    | _ :: _ =>
        let wasCount := items_size w in
        modify (set_content content) ;;
        modify (fun w =>
          set_data
            (Data.mk (reconcile (Content.elements (_content w))
                        (Data.items (_data w)) [])) w) ;;
        w <- get ;;
        (if negb (items_size w =? wasCount) then updateGeometry
         else ret tt) ;;
        updateScrollMax ;;
        (if wasCount =? 0 then modify (set_empty false) else ret tt)
    end.

Definition updateExpanding (expandingHeight expandedHeight : Z)
  : M unit :=
  if negb ((expandingHeight =? 0) || (0 <? expandedHeight))
  then fail ExpectsFailed
  else
    match expandingRatio expandingHeight expandedHeight with
    | Float64.NotFinite => fail NonFiniteFloat
    | Float64.Finite ratio =>
        w <- get ;;
        if Float64.eqb (_lastRatio w) ratio then ret tt
        else
          let expanding := Float64.ltb (_lastRatio w) ratio in
          modify (set_lastRatio ratio) ;;
          w <- get ;;
          let change :=
            if _expanded w
            then negb expanding && Float64.ltb ratio kCollapseAfterRatio
            else expanding && Float64.ltb kExpandAfterRatio ratio in
          if change then requestExpanded (negb (_expanded w))
          else ret tt
    end.

(** The overload [computeLayout()]. *)
Definition computeLayoutCurrent : M Layout.t :=
  w <- get ;;
  updateExpanding
    (Float64.to_int
       (Float64.of_int (_lastExpandedHeight w)
        * Animations.value (_expandCatchUpAnimation w) 1)%Q)
    (style.height (style.full _st)) ;;
  w <- get ;;
  ret (computeLayout
         (Animations.value (_expandedAnimation w)
            (if _expanded w then 1%Q else 0%Q)) w).

Definition updateSelected : M unit :=
  w <- get ;;
  if 0 <=? _pressed w then ret tt
  else
    let st := style.small _st in
    let p := mapFromGlobal w (_lastMousePosition w) in
    layout <- computeLayoutCurrent ;;
    let firstRightFull :=
      Layout.leftFull layout
      + (Layout.startIndexFull layout + 1) * Layout.singleFull layout in
    let secondLeftFull := firstRightFull in
    let firstRightSmall :=
      Layout.leftSmall layout + style.photoLeft st + style.photo st in
    let secondLeftSmall :=
      if Layout.smallSkip layout =? 0 then firstRightSmall
      else Layout.leftSmall layout + style.photoLeft st
           + style.shift st in
    let lastRightAddFull := 0 in
    let lastRightAddSmall := style.photoLeft st in
    let lerp (a b : Z) : Q :=
      (Float64.of_int a
       + (Float64.of_int b - Float64.of_int a) * Layout.ratio layout)%Q in
    let firstRight := lerp firstRightSmall firstRightFull in
    let secondLeft := lerp secondLeftSmall secondLeftFull in
    let lastRightAdd := lerp lastRightAddSmall lastRightAddFull in
    let activateFull := Float64.leb (1 # 2) (Layout.ratio layout) in
    let startIndex :=
      if activateFull then Layout.startIndexFull layout
      else Layout.startIndexSmall layout in
    let endIndex :=
      if activateFull then Layout.endIndexFull layout
      else Layout.endIndexSmall layout in
    let x := QPoint.x p in
    infiniteIndex <-
      (if Float64.ltb (Float64.of_int x) secondLeft then ret 0
       else
         match Float64.div (Qmax (Float64.of_int x - firstRight) 0)
                 (Layout.single layout) with
         | Float64.Finite q => ret (Qfloor q + 1)
         | Float64.NotFinite => fail NonFiniteFloat
         end) ;;
    let index :=
      if endIndex =? startIndex then -1
      else if (infiniteIndex =? endIndex - startIndex)
              && Float64.ltb (Float64.of_int x)
                   (firstRight
                    + Float64.of_int (endIndex - startIndex - 1)
                      * Layout.single layout
                    + lastRightAdd)%Q
      then infiniteIndex - 1
      else if endIndex <=? startIndex + infiniteIndex
      then (if style.fullClickable _st then endIndex - 1 else -1)
      else infiniteIndex in
    let selected :=
      if (index <? 0) || (Layout.itemsCount layout <=? startIndex + index)
      then -1
      else startIndex + index in
    w <- get ;;
    if _selected w =? selected then ret tt
    else
      let over := 0 <=? selected in
      (if negb (Bool.eqb over (0 <=? _selected w))
       then modify (set_cursor (if over then cur_pointer else cur_default))
       else ret tt) ;;
      modify (set_selected selected).

(** Returns whether the event was accepted. *)
Definition wheelEvent (e : QWheelEvent) : M bool :=
  w <- get ;;
  let horizontal := negb (QPoint.x (angleDelta e) =? 0) in
  if negb horizontal || State_eqb (_state w) Small then ret false
  else
    let delta :=
      if horizontal
      then (if RightToLeft then -1 else 1)
           * (if negb (QPoint.x (pixelDelta e) =? 0)
              then QPoint.x (pixelDelta e)
              else QPoint.x (angleDelta e))
      else (if negb (QPoint.y (pixelDelta e) =? 0)
            then QPoint.y (pixelDelta e)
            else QPoint.y (angleDelta e)) in
    let now := _scrollLeft w in
    let used := now - delta in
    let next := clamp used 0 (_scrollLeftMax w) in
    (if negb (next =? now)
     then (requestExpanded true ;;
           modify (set_scrollLeft next) ;;
           updateSelected ;;
           checkLoadMore)
     else ret tt) ;;
    ret true.

Definition mousePressEvent (e : QMouseEvent) : M unit :=
  w <- get ;;
  proceed <-
    (match button e with
     | OtherButton => ret false
     | LeftButton =>
         if State_eqb (_state w) Small
         then (requestExpanded true ;; ret true)
         else if negb (State_eqb (_state w) Full) then ret false
         else ret true
     end) ;;
  if proceed
  then (modify (set_lastMousePosition (globalPos e)) ;;
        updateSelected ;;
        modify (fun w =>
          set_mouseDownPosition (Some (_lastMousePosition w)) w) ;;
        modify (fun w => set_pressed (_selected w) w))
  else ret tt.

Definition checkDragging : M unit :=
  w <- get ;;
  if _dragging w
  then
    match _mouseDownPosition w with
    | None => fail UndefinedBehaviour
    | Some down =>
        let sign := if RightToLeft then -1 else 1 in
        let newLeft :=
          clamp
            (sign * (QPoint.x down - QPoint.x (_lastMousePosition w))
             + _startDraggingLeft w)
            0
            (_scrollLeftMax w) in
        if negb (newLeft =? _scrollLeft w)
        then (modify (set_scrollLeft newLeft) ;; checkLoadMore)
        else ret tt
    end
  else ret tt.

Definition mouseMoveEvent (e : QMouseEvent) : M unit :=
  modify (set_lastMousePosition (globalPos e)) ;;
  updateSelected ;;
  w <- get ;;
  (match _mouseDownPosition w with
   | Some down =>
       if negb (_dragging w)
          && State_eqb (_state w) Full
          && (startDragDistance
              <=? QPoint.manhattanLength
                    (QPoint.sub (_lastMousePosition w) down))
       then (modify (set_dragging true) ;;
             modify (fun w => set_startDraggingLeft (_scrollLeft w) w))
       else ret tt
   | None => ret tt
   end) ;;
  checkDragging.

Definition finishDragging : M bool :=
  w <- get ;;
  if negb (_dragging w) then ret false
  else (checkDragging ;;
        modify (set_dragging false) ;;
        updateSelected ;;
        ret true).

(** [_selected < _data.items.size()] compares as [size_t]: the [int]
    is converted modulo [2^64]. *)
Definition selected_below_size (w : Widget) : bool :=
  (_selected w) mod (2 ^ 64) <? items_size w.

Definition mouseReleaseEvent (e : QMouseEvent) : M unit :=
  modify (set_lastMousePosition (globalPos e)) ;;
  w <- get ;;
  let pressed := _pressed w in
  modify (set_pressed (-1)) ;;
  dragged <- finishDragging ;;
  (if dragged then ret tt
   else
     (updateSelected ;;
      w <- get ;;
      if _selected w =? pressed
      then
        if negb (_expanded w) then requestExpanded true
        else if selected_below_size w
        then
          match nth_error (Data.items (_data w))
                  (Z.to_nat (_selected w)) with
          | Some item => fire (clicks (item_id item))
          | None => fail UndefinedBehaviour
          end
        else ret tt
      else ret tt)) ;;
  modify (set_mouseDownPosition None).

Definition setExpandedHeight (height : Z) (momentum : bool) : M unit :=
  w <- get ;;
  let height := clamp height 0 (style.height (style.full _st)) in
  if _lastExpandedHeight w =? height then ret tt
  else if momentum && _expandIgnored w then ret tt
  else if momentum && (0 <? height) && (_lastExpandedHeight w =? 0)
  then modify (set_expandIgnored true)
  else
    ((if negb momentum && _expandIgnored w && (0 <? height)
      then (modify (set_expandIgnored false) ;;
            modify (fun w =>
              set_expandCatchUpAnimation
                (Animations.start (_expandCatchUpAnimation w) 0%Q) w))
      else if (height =? 0)
              && Animations.animating (_expandCatchUpAnimation w)
      then modify (fun w =>
             set_expandCatchUpAnimation
               (Animations.stop (_expandCatchUpAnimation w)) w)
      else ret tt) ;;
     modify (set_lastExpandedHeight height) ;;
     isFull <- checkForFullState ;;
     if isFull then ret tt
     else setState (if height =? 0 then Small else Changing)).

Definition setLayoutConstraints (positionSmall : QPoint.t)
    (alignSmall : Z) (geometryFull : QRect.t) : M unit :=
  modify (set_positionSmall positionSmall) ;;
  modify (set_alignSmall alignSmall) ;;
  modify (set_geometryFull geometryFull) ;;
  updateGeometry.

Definition enterEventHook : M unit := fire entered.

(** A tick of the animation clock for [_expandedAnimation]: the clock
    sets the current value ([None] when the animation has reached its end)
    and runs the callback given to [start]. *)
Definition expandedAnimationTick (v : Simple) : M unit :=
  w <- get ;;
  if Animations.animating (_expandedAnimation w)
  then (modify (set_expandedAnimation v) ;;
        checkForFullState ;;
        fire collapsedGeometryChanged)
  else ret tt.

(** The same for [_expandCatchUpAnimation]. *)
Definition expandCatchUpTick (v : Simple) : M unit :=
  w <- get ;;
  if Animations.animating (_expandCatchUpAnimation w)
  then (modify (set_expandCatchUpAnimation v) ;;
        checkForFullState ;;
        ret tt)
  else ret tt.

End Widget.

(** The widget as the constructor leaves it: no content, [resize(0, 0)],
    and the members at their initial values, empty, compact and without
    a selection. *)
Definition initial : Widget :=
  mkWidget (Content.mk []) (Data.mk []) true 0 0 0 false false None None
    0%Q 0 false Small (QPoint.mk 0 0) 0 QRect.null QRect.null
    (QPoint.mk 0 0) None (-1) (-1) (QRect.make 0 0 0 0) cur_default.

(** ** Inputs *)

(** The events a user and the owner of the widget send to it. *)
Inductive Input : Type :=
| Wheel (e : QWheelEvent)
| Press (e : QMouseEvent)
| Move (e : QMouseEvent)
| Release (e : QMouseEvent)
| Resize (geometry : QRect.t)
| Show (content : Content.t)
| ExpandedHeight (height : Z) (momentum : bool)
| LayoutConstraints (positionSmall : QPoint.t) (alignSmall : Z)
    (geometryFull : QRect.t)
| Enter
| ExpandedTick (v : Simple)
| CatchUpTick (v : Simple).

Section Handle.

Variable st : style.DialogsStoriesList.
Variable RightToLeft : bool.
Variable startDragDistance : Z.
Variable parentOrigin : QPoint.t.

Definition handle (i : Input) : M unit :=
  match i with
  | Wheel e => bind (wheelEvent st RightToLeft parentOrigin e)
                 (fun _ => ret tt)
  | Press e => mousePressEvent st parentOrigin e
  | Move e =>
      mouseMoveEvent st RightToLeft startDragDistance parentOrigin e
  | Release e => mouseReleaseEvent st RightToLeft parentOrigin e
  | Resize r => setGeometry st r
  | Show content => showContent st content
  | ExpandedHeight height momentum => setExpandedHeight st height momentum
  | LayoutConstraints p a r => setLayoutConstraints st p a r
  | Enter => enterEventHook
  | ExpandedTick v => expandedAnimationTick st v
  | CatchUpTick v => expandCatchUpTick st v
  end.

(** The inputs one after the other. *)
Fixpoint handleAll (inputs : list Input) : M unit :=
  match inputs with
  | [] => ret tt
  | i :: rest => bind (handle i) (fun _ => handleAll rest)
  end.

End Handle.

(** ** The collapsed geometry *)

(** [base::SafeRound]: [std::round] of a finite value, halves away from
    zero. *)
Definition SafeRound (x : Q) : Q :=
  inject_Z (if Qle_bool 0 x then Qfloor (x + (1 # 2))
            else Qceiling (x - (1 # 2))).

Module CollapsedGeometry.

Record t : Type := mk { geometry : QRect.t; expanded : Q }.

End CollapsedGeometry.

Section Collapsed.

Variable _st : style.DialogsStoriesList.

Definition collapsedGeometryCurrent (w : Widget) : CollapsedGeometry.t :=
  let expanded :=
    Animations.value (_expandedAnimation w)
      (if _expanded w then 1%Q else 0%Q) in
  if Float64.eqb expanded 1 then CollapsedGeometry.mk QRect.null 1
  else
    let layout := computeLayout _st 0 w in
    let small := countSmallGeometry _st w in
    let index := Layout.smallSkip layout - Layout.startIndexSmall layout in
    let shift :=
      (Float64.of_int (x w) + QPointF.x (Layout.geometryShift layout))%Q in
    let left :=
      Float64.to_int
        (SafeRound
           (shift + Layout.left layout
            + Layout.single layout * Float64.of_int index)%Q) in
    let width := QRect.x small + QRect.width small - left in
    CollapsedGeometry.mk
      (QRect.make left (QRect.y small) width (QRect.height small))
      expanded.

End Collapsed.

(** ** Painting

    [paintEvent] lays the row out and walks over the slots from the last
    to the first one.  The embedding keeps what the walk decides and what
    it changes: the calls of the two painters in their order, the
    subscriptions to thumbnails and the rendering of names.  What the
    painters draw on the [QPainter] is left out. *)

Module Single.

(** An [Item*] is the index of the item in [_data.items]; [None] is
    [nullptr]. *)
Record t : Type := mk {
  x : Q;
  indexSmall : Z;
  itemSmall : option Z;
  indexFull : Z;
  itemFull : option Z;
  photoTop : Q
}.

(** [Single()] *)
Definition none : t := mk 0 0 None 0 None 0.

(** [explicit operator bool] *)
Definition valid (s : t) : bool :=
  match itemSmall s, itemFull s with
  | None, None => false
  | _, _ => true
  end.

End Single.

Inductive Painted : Type :=
| paintedGradient (single : Single.t)   (* a call of [paintGradient] *)
| paintedOther (single : Single.t)      (* a call of [paintOther] *)
| subscribedTo (thumbnail : N)          (* [subscribeToUpdates] *)
| renderedName (index : Z).             (* the name image drawn anew *)

Definition pointer_eqb (a b : option Z) : bool :=
  match a, b with
  | Some i, Some j => i =? j
  | None, None => true
  | _, _ => false
  end.

Definition is_set (p : option Z) : bool :=
  match p with Some _ => true | None => false end.

(** [QImage::isNull] *)
Definition isNull (image : option N) : bool :=
  match image with Some _ => false | None => true end.

(** [_data.items[index] = f(_data.items[index])] through an [Item*]. *)
Fixpoint update_nth (n : nat) (f : Item.t -> Item.t) (items : list Item.t)
  : list Item.t :=
  match items, n with
  | [], _ => []
  | i :: rest, O => f i :: rest
  | i :: rest, S n' => i :: update_nth n' f rest
  end.

Definition update_item (index : Z) (f : Item.t -> Item.t) (w : Widget)
  : Widget :=
  set_data (Data.mk (update_nth (Z.to_nat index) f (Data.items (_data w))))
    w.

Section Paint.

Local Open Scope widget_scope.

Variable _st : style.DialogsStoriesList.
(** [st::dialogsNameFg->c] *)
Variable dialogsNameFg : N.
(** The image [validateName] makes of a name in a colour, [None] for a
    null image: the text layout and the font are outside the sources. *)
Variable renderName : string -> N -> option N.

(** The item behind an [Item*]. *)
Definition item_at (index : Z) : M Item.t :=
  w <- get ;;
  match nth_error (Data.items (_data w)) (Z.to_nat index) with
  | Some item => ret item
  | None => fail UndefinedBehaviour
  end.

Definition validateThumbnail (index : Z) : M (list Painted) :=
  item <- item_at index ;;
  if negb (Item.subscribed item)
  then
    (modify (update_item index (Item.set_subscribed true)) ;;
     match Element.thumbnail (Item.element item) with
     | Some thumbnail => ret [subscribedTo thumbnail]
     | None => fail UndefinedBehaviour
     end)
  else ret [].

Definition validateName (index : Z) : M (list Painted) :=
  item <- item_at index ;;
  let color := dialogsNameFg in
  if negb (isNull (Item.nameCache item))
     && (Item.nameCacheColor item =? color)%N
  then ret []
  else
    (modify
       (update_item index
          (fun item =>
             Item.mk (Item.element item)
               (renderName (Element.name (Item.element item)) color)
               color (Item.subscribed item))) ;;
     ret [renderedName index]).

(** [item->element.thumbnail->image(size)] *)
Definition thumbnailImage (index : Z) : M unit :=
  item <- item_at index ;;
  match Element.thumbnail (Item.element item) with
  | Some _ => ret tt
  | None => fail UndefinedBehaviour
  end.

Definition expandRatioFor (ratio : Q) : Q :=
  if Float64.leb kCollapseAfterRatio ratio then 1%Q
  else if Float64.leb ratio (kExpandAfterRatio * kFrictionRatio)%Q then 0%Q
  else ((ratio - kExpandAfterRatio * kFrictionRatio)
        / (kCollapseAfterRatio - kExpandAfterRatio * kFrictionRatio))%Q.

(** What the lambdas of [paintEvent] capture. *)
Variable layout : Layout.t.
Variable expandRatio : Q.
Variable photoTop : Q.

Definition drawSmall : bool := Float64.ltb expandRatio 1.
Definition drawFull : bool := Float64.ltb 0 expandRatio.

(** [&_data.items[index]] *)
Definition address (index : Z) : M (option Z) :=
  w <- get ;;
  if (0 <=? index) && (index <? items_size w) then ret (Some index)
  else fail UndefinedBehaviour.

Definition lookup (index : Z) : M Single.t :=
  let photoTopSmall := style.photoTop (style.small _st) in
  let elerp (a b : Q) : Q := (a + (b - a) * expandRatio)%Q in
  let indexSmall := Layout.startIndexSmall layout + index in
  let indexFull := Layout.startIndexFull layout + index in
  let ySmall :=
    (Float64.of_int photoTopSmall
     + ((photoTop - Float64.of_int photoTopSmall)
        * Float64.of_int
            (kSmallThumbsShown - indexSmall + Layout.smallSkip layout)
        / (1 # 2)))%Q in
  let y := elerp ySmall photoTop in
  small <-
    (if drawSmall
        && (indexSmall <? Layout.endIndexSmall layout)
        && (Layout.smallSkip layout <=? indexSmall)
     then address indexSmall
     else ret None) ;;
  full <-
    (if drawFull && (indexFull <? Layout.endIndexFull layout)
     then address indexFull
     else ret None) ;;
  let x := (Layout.left layout
            + Layout.single layout * Float64.of_int index)%Q in
  ret (Single.mk x indexSmall small indexFull full y).

Definition unread (w : Widget) (item : option Z) : bool :=
  match item with
  | Some index =>
      match nth_error (Data.items (_data w)) (Z.to_nat index) with
      | Some item =>
          negb (Element.unreadCount (Item.element item) =? 0)%N
      | None => false
      end
  | None => false
  end.

Definition hasUnread (w : Widget) (single : Single.t) : bool :=
  unread w (Single.itemSmall single) || unread w (Single.itemFull single).

(** The first painter: the name and the gradient of the unread ones. *)
Definition paintGradient (single : Single.t) : M (list Painted) :=
  named <-
    (match Single.itemFull single with
     | Some full => validateName full
     | None => ret []
     end) ;;
  ret (named ++ [paintedGradient single]).

(** The second painter: the circle and the userpic. *)
Definition paintOther (single : Single.t) : M (list Painted) :=
  if negb (Single.valid single) then fail ExpectsFailed
  else
    let small := Single.itemSmall single in
    let itemFull := Single.itemFull single in
    drawn <-
      (if pointer_eqb itemFull small
       then
         match itemFull with
         | Some full =>
             subscribed <- validateThumbnail full ;;
             thumbnailImage full ;;
             ret subscribed
         | None => fail ExpectsFailed
         end
       else
         (first <-
            (match small with
             | Some small =>
                 subscribed <- validateThumbnail small ;;
                 thumbnailImage small ;;
                 ret subscribed
             | None => ret []
             end) ;;
          second <-
            (match itemFull with
             | Some full =>
                 subscribed <- validateThumbnail full ;;
                 thumbnailImage full ;;
                 ret subscribed
             | None => ret []
             end) ;;
          ret (first ++ second))) ;;
    ret (drawn ++ [paintedOther single]).

(** Both painters on a single. *)
Definition paintBoth (single : Single.t) : M (list Painted) :=
  gradient <- paintGradient single ;;
  other <- paintOther single ;;
  ret (gradient ++ other).

(** The loop of [enumerate], [steps] iterations from [i] down:
    [for (auto i = count; i != first;) { --i; ... }]. *)
Fixpoint enumerate (first : Z) (steps : nat) (i : Z)
    (nextGradientPainted skippedPainted : bool) : M (list Painted) :=
  match steps with
  | O => ret []
  | S steps =>
      let i := i - 1 in
      next <- (if 0 <? i then lookup (i - 1) else ret Single.none) ;;
      let gradientPainted := nextGradientPainted in
      current <- lookup i ;;
      if Single.valid current
      then
        skipped1 <-
          (if (i =? first) && Single.valid next && negb skippedPainted
           then (painted <- paintBoth next ;; ret (true, painted))
           else ret (skippedPainted, [])) ;;
        gradient <-
          (if negb gradientPainted then paintGradient current
           else ret []) ;;
        w <- get ;;
        ahead <-
          (if (first <? i) && hasUnread w current && Single.valid next
           then
             if is_set (Single.itemSmall current)
                || negb (is_set (Single.itemSmall next))
             then
               skipped2 <-
                 (if (i - 1 =? first) && (0 <? first)
                     && negb (fst skipped1)
                  then
                    skipped <- lookup (i - 2) ;;
                    if Single.valid skipped
                    then (painted <- paintBoth skipped ;;
                          ret (true, painted))
                    else ret (fst skipped1, [])
                  else ret (fst skipped1, [])) ;;
               painted <- paintGradient next ;;
               ret (true, fst skipped2, snd skipped2 ++ painted)
             else ret (false, fst skipped1, [])
           else ret (false, fst skipped1, [])) ;;
        other <- paintOther current ;;
        rest <- enumerate first steps i (fst (fst ahead)) (snd (fst ahead)) ;;
        ret (snd skipped1 ++ gradient ++ snd ahead ++ other ++ rest)
      else enumerate first steps i false skippedPainted
  end.

End Paint.

Section PaintEvent.

Local Open Scope widget_scope.

Variable _st : style.DialogsStoriesList.
Variable dialogsNameFg : N.
Variable renderName : string -> N -> option N.

Definition paintEvent : M (list Painted) :=
  layout <- computeLayoutCurrent _st ;;
  let st := style.small _st in
  let full := style.full _st in
  let ratio := Layout.ratio layout in
  let expandRatio := expandRatioFor ratio in
  let photoTopSmall := style.photoTop st in
  let photoTop :=
    (Float64.of_int photoTopSmall
     + (Float64.of_int (style.photoTop full)
        - Float64.of_int photoTopSmall)
       * Layout.expandedRatio layout)%Q in
  let count :=
    Z.max (Layout.endIndexFull layout - Layout.startIndexFull layout)
      (Layout.endIndexSmall layout - Layout.startIndexSmall layout) in
  let first := Layout.smallSkip layout - Layout.startIndexSmall layout in
  if count <? first
  then fail UndefinedBehaviour   (* the loop leaves the slots *)
  else
    enumerate _st dialogsNameFg renderName layout expandRatio photoTop
      first (Z.to_nat (count - first)) count false false.

End PaintEvent.

(** ** The arithmetic of [float64]

    The embedding above computes the [float64] values of the code with
    exact rationals.  What the program computes is rounded at every
    operation.  [computeLayoutIn] is [computeLayout(float64)] once more,
    over an arithmetic that is a parameter: with [Exact] it is the
    function above, with [Binary64.arithmetic] every operation rounds to
    the nearest binary64 number, ties to even, as IEEE 754 prescribes
    and [SpecFloat] defines. *)

Module Arithmetic.

Record t : Type := mk {
  F : Type;
  (** the conversion of an [int] *)
  of_int : Z -> F;
  (** the [float64] of a rational the exact embedding holds: a literal,
      or a stored quotient of two [int]s *)
  of_Q : Q -> F;
  add : F -> F -> F;
  sub : F -> F -> F;
  mul : F -> F -> F
}.

End Arithmetic.

Definition Exact : Arithmetic.t :=
  Arithmetic.mk Q inject_Z (fun q => q) Qplus Qminus Qmult.

Module Binary64.

Definition t : Type := SpecFloat.spec_float.

Definition prec : Z := 53.
Definition emax : Z := 1024.

(** An [int] has at most 32 bits and converts without rounding. *)
Definition of_int (z : Z) : t :=
  SpecFloat.binary_normalize prec emax z 0 false.

Definition add : t -> t -> t := SpecFloat.SFadd prec emax.
Definition sub : t -> t -> t := SpecFloat.SFsub prec emax.
Definition mul : t -> t -> t := SpecFloat.SFmul prec emax.
Definition div : t -> t -> t := SpecFloat.SFdiv prec emax.
Definition eqb : t -> t -> bool := SpecFloat.SFeqb.

(** The binary64 number nearest to [n / d]: the division rounds once.
    It is the value of the literal [0.15] for [15 # 100], and the value
    [updateExpanding] stores in [_lastRatio] for
    [expandingHeight / float64(expandedHeight)]. *)
Definition of_Q (q : Q) : t :=
  div (of_int (Qnum q)) (of_int (Z.pos (Qden q))).

Definition arithmetic : Arithmetic.t :=
  Arithmetic.mk t of_int of_Q add sub mul.

(** The rational a finite binary64 number is, in lowest terms. *)
Definition to_Q (x : t) : option Q :=
  match x with
  | SpecFloat.S754_zero _ => Some 0%Q
  | SpecFloat.S754_finite s m e =>
      Some (Qred (inject_Z (if s then Z.neg m else Z.pos m) * 2 ^ e))%Q
  | _ => None
  end.

(** The interpolation by [r] between [a] and [b] computed in binary64,
    as the [lerp] of the code computes it. *)
Definition lerp (r a b : t) : t := add a (mul (sub b a) r).

(** The number [m] is exactly the interpolation by [r] between the
    numbers [a] and [b]. *)
Definition between (r : Q) (a m b : t) : bool :=
  match to_Q a, to_Q m, to_Q b with
  | Some qa, Some qm, Some qb => Qeq_bool qm (qa + (qb - qa) * r)
  | _, _, _ => false
  end.

End Binary64.

Module LayoutIn.

Record t (A : Arithmetic.t) : Type := mk {
  itemsCount : Z;
  geometryShift : Arithmetic.F A * Arithmetic.F A;
  expandedRatio : Arithmetic.F A;
  ratio : Arithmetic.F A;
  thumbnailLeft : Arithmetic.F A;
  photoLeft : Arithmetic.F A;
  left : Arithmetic.F A;
  single : Arithmetic.F A;
  smallSkip : Z;
  leftFull : Z;
  leftSmall : Z;
  singleFull : Z;
  singleSmall : Z;
  startIndexSmall : Z;
  endIndexSmall : Z;
  startIndexFull : Z;
  endIndexFull : Z
}.

Arguments mk {A}.
Arguments itemsCount {A}.
Arguments geometryShift {A}.
Arguments expandedRatio {A}.
Arguments ratio {A}.
Arguments thumbnailLeft {A}.
Arguments photoLeft {A}.
Arguments left {A}.
Arguments single {A}.
Arguments smallSkip {A}.
Arguments leftFull {A}.
Arguments leftSmall {A}.
Arguments singleFull {A}.
Arguments singleSmall {A}.
Arguments startIndexSmall {A}.
Arguments endIndexSmall {A}.
Arguments startIndexFull {A}.
Arguments endIndexFull {A}.

End LayoutIn.

Section ComputeLayoutIn.

Variable A : Arithmetic.t.
Variable _st : style.DialogsStoriesList.

(** [List::computeLayout(float64)], the arithmetic of its [float64]
    values being [A].  [None]: an [int] is divided by [singleFull = 0],
    which is undefined. *)
Definition computeLayoutIn (expanded : Arithmetic.F A) (w : Widget)
  : option (LayoutIn.t A) :=
  let of_int := Arithmetic.of_int A in
  let add := Arithmetic.add A in
  let sub := Arithmetic.sub A in
  let mul := Arithmetic.mul A in
  let st := style.small _st in
  let full := style.full _st in
  let expandedRatio := Arithmetic.of_Q A (_lastRatio w) in
  let collapsedRatio :=
    mul expandedRatio (Arithmetic.of_Q A kFrictionRatio) in
  let ratio :=
    add (mul expandedRatio expanded)
      (mul collapsedRatio (sub (of_int 1) expanded)) in
  let lerp (a b : Arithmetic.F A) : Arithmetic.F A :=
    add a (mul (sub b a) ratio) in
  let widthFull := width w in
  let itemsCount := items_size w in
  let leftFullMin := style.left full in
  let singleFullMin := style.photoLeft full * 2 + style.photo full in
  let totalFull := leftFullMin + singleFullMin * itemsCount in
  let skipSide :=
    if totalFull <? widthFull
    then Z.quot (widthFull - totalFull) (itemsCount + 1)
    else 0 in
  let skipBetween :=
    if (totalFull <? widthFull) && (1 <? itemsCount)
    then Z.quot (widthFull - totalFull - 2 * skipSide) (itemsCount - 1)
    else skipSide in
  let singleFull := singleFullMin + skipBetween in
  let smallSkip :=
    if (1 <? itemsCount)
       && match Data.items (_data w) with
          | first :: _ => Element.skipSmall (Item.element first)
          | [] => false
          end
    then 1 else 0 in
  let smallCount := Z.min kSmallThumbsShown (itemsCount - smallSkip) in
  let leftSmall :=
    style.left st - (if smallSkip =? 0 then 0 else style.shift st) in
  let leftFull := style.left full - _scrollLeft w + skipSide in
  if singleFull =? 0 then None
  else
    let startIndexFull := Z.quot (Z.max (- leftFull) 0) singleFull in
    let cellLeftFull := leftFull + startIndexFull * singleFull in
    let endIndexFull :=
      Z.min (Z.quot (width w - leftFull + singleFull - 1) singleFull)
        itemsCount in
    let startIndexSmall := Z.min startIndexFull smallSkip in
    let endIndexSmall := smallSkip + smallCount in
    let cellLeftSmall := leftSmall + startIndexSmall * style.shift st in
    let thumbnailLeftFull := cellLeftFull + style.photoLeft full in
    let thumbnailLeftSmall := cellLeftSmall + style.photoLeft st in
    let thumbnailLeft :=
      lerp (of_int thumbnailLeftSmall) (of_int thumbnailLeftFull) in
    let photoLeft :=
      lerp (of_int (style.photoLeft st))
        (of_int (style.photoLeft full)) in
    Some
      (LayoutIn.mk
         itemsCount
         (if State_eqb (_state w) Changing
          then sub (lerp (of_int (QRect.x (_changingGeometryFrom w)))
                      (of_int (QRect.x (_geometryFull w))))
                 (of_int (x w))
          else of_int 0,
          if State_eqb (_state w) Changing
          then sub (lerp (of_int (QRect.y (_changingGeometryFrom w)))
                      (of_int (QRect.y (_geometryFull w))))
                 (of_int (y w))
          else of_int 0)
         expandedRatio
         ratio
         thumbnailLeft
         photoLeft
         (sub thumbnailLeft photoLeft)
         (lerp (of_int (style.shift st)) (of_int singleFull))
         smallSkip
         leftFull
         leftSmall
         singleFull
         (style.shift st)
         startIndexSmall
         endIndexSmall
         startIndexFull
         endIndexFull).

End ComputeLayoutIn.

(** ** Concrete widgets

    A style with the proportions of the application's, and widgets reached
    from [initial] through the handlers; the closed examples below are
    evaluated on them. *)

Module Sample.

Local Open Scope widget_scope.

Definition small : style.DialogsStories :=
  style.Build_DialogsStories 4 35 21 4 4 16.
Definition full : style.DialogsStories :=
  style.Build_DialogsStories 4 77 42 9 10 0.
Definition st : style.DialogsStoriesList :=
  style.Build_DialogsStoriesList small full false.
Definition stClickable : style.DialogsStoriesList :=
  style.Build_DialogsStoriesList small full true.

Definition origin : QPoint.t := QPoint.mk 0 0.

Definition element (id : N) : Element.t :=
  Element.mk id "story" (Some id) 1 1 false.

(** [n] elements with the ids 10, 11, ... *)
Definition content (n : nat) : Content.t :=
  Content.mk (map (fun k => element (N.of_nat k + 10)) (seq 0 n)).

(** The widget moves with the pointer of a left-to-right application
    with the drag distance 10. *)
Definition run (s : style.DialogsStoriesList) (inputs : list Input)
  : M unit :=
  handleAll s false 10 origin inputs.

Definition run_from (w : Widget) (m : M unit) : Widget :=
  match after (m w) with Some w' => w' | None => w end.

(** The widget is placed in a 300 pixels wide row and shows [n]
    stories. *)
Definition showing (n : nat) : list Input :=
  [LayoutConstraints (QPoint.mk 0 0) 0 (QRect.make 0 0 300 77);
   Show (content n)].

Definition shown (s : style.DialogsStoriesList) (n : nat) : Widget :=
  run_from initial (run s (showing n)).

(** The row pulled down to [height] by the owner, and laid out once. *)
Definition pulled (s : style.DialogsStoriesList) (n : nat) (height : Z)
  : Widget :=
  run_from (shown s n)
    (setExpandedHeight s height false ;;
     _ <- computeLayoutCurrent s ;;
     ret tt).

Definition collapsed : Widget := Eval vm_compute in shown st 5.
Definition halfway : Widget := Eval vm_compute in pulled st 5 38.
Definition expanded : Widget := Eval vm_compute in pulled st 5 77.

(** A left click and a pointer position, in global coordinates. *)
Definition tap : QMouseEvent :=
  {| button := LeftButton; globalPos := QPoint.mk 10 10 |}.
Definition pointerAt (x : Z) : QMouseEvent :=
  {| button := OtherButton; globalPos := QPoint.mk x 10 |}.

(** A horizontal wheel step. *)
Definition wheel (dx : Z) : QWheelEvent :=
  {| angleDelta := QPoint.mk dx 0; pixelDelta := QPoint.mk 0 0 |}.

(** Ten stories, the row fully pulled down and scrolled by 150. *)
Definition scrolling : list Input :=
  showing 10 ++ [ExpandedHeight 77 false; Wheel (wheel (-150))].

(** Then the expand animation ends, the owner lets the row go back to
    the height 60 and the pointer moves to [x]. *)
Definition hovering (x : Z) : list Input :=
  scrolling
  ++ [ExpandedTick None; ExpandedHeight 60 false; Move (pointerAt x)].

Definition scrolled : Widget :=
  Eval vm_compute in run_from initial (run st scrolling).

(** Three items as they are after a paint: subscribed, the names
    rendered. *)
Definition painted (id : N) : Item.t :=
  Item.mk (element id) (Some id) 255 true.

Definition stored : Widget :=
  set_data (Data.mk [painted 10; painted 11; painted 12])
    (set_content (content 3) (shown st 3)).

End Sample.

(** * Vocabulary of the properties *)

(** ** The two presentations *)

Definition lerp (ratio a b : Q) : Q := (a + (b - a) * ratio)%Q.

(** The value a field has in the compact and in the full presentation,
    and their blend at [ratio]. *)
Record Blend : Type := {
  thumbnailLeft_is : Q;
  photoLeft_is : Q;
  left_is : Q;
  single_is : Q;
  geometryShift_x_is : Q;
  geometryShift_y_is : Q
}.

Definition fields (l : Layout.t) : Blend :=
  Build_Blend (Layout.thumbnailLeft l) (Layout.photoLeft l) (Layout.left l)
    (Layout.single l)
    (QPointF.x (Layout.geometryShift l))
    (QPointF.y (Layout.geometryShift l)).

Definition Blend_eq (a b : Blend) : Prop :=
  (thumbnailLeft_is a == thumbnailLeft_is b
   /\ photoLeft_is a == photoLeft_is b
   /\ left_is a == left_is b
   /\ single_is a == single_is b
   /\ geometryShift_x_is a == geometryShift_x_is b
   /\ geometryShift_y_is a == geometryShift_y_is b)%Q.

Definition Blend_lerp (ratio : Q) (a b : Blend) : Blend :=
  Build_Blend
    (lerp ratio (thumbnailLeft_is a) (thumbnailLeft_is b))
    (lerp ratio (photoLeft_is a) (photoLeft_is b))
    (lerp ratio (left_is a) (left_is b))
    (lerp ratio (single_is a) (single_is b))
    (lerp ratio (geometryShift_x_is a) (geometryShift_x_is b))
    (lerp ratio (geometryShift_y_is a) (geometryShift_y_is b)).

Section Presentations.

Variable _st : style.DialogsStoriesList.
Variable w : Widget.

(** The integer cells of the layout do not depend on the ratio. *)
Let cells : Layout.t := computeLayout _st 0 w.

Definition cellLeftSmall : Z :=
  (Layout.leftSmall cells
   + Layout.startIndexSmall cells * Layout.singleSmall cells)%Z.

Definition cellLeftFull : Z :=
  (Layout.leftFull cells
   + Layout.startIndexFull cells * Layout.singleFull cells)%Z.

Definition shiftTowards (target : QRect.t) : Q * Q :=
  if State_eqb (_state w) Changing
  then ((Float64.of_int (QRect.x target) - Float64.of_int (x w))%Q,
        (Float64.of_int (QRect.y target) - Float64.of_int (y w))%Q)
  else (0%Q, 0%Q).

(** The pure compact layout. *)
Definition compact : Blend :=
  Build_Blend
    (Float64.of_int (cellLeftSmall + style.photoLeft (style.small _st))%Z)
    (Float64.of_int (style.photoLeft (style.small _st)))
    (Float64.of_int cellLeftSmall)
    (Float64.of_int (Layout.singleSmall cells))
    (fst (shiftTowards (_changingGeometryFrom w)))
    (snd (shiftTowards (_changingGeometryFrom w))).

(** The pure full layout. *)
Definition expandedFull : Blend :=
  Build_Blend
    (Float64.of_int (cellLeftFull + style.photoLeft (style.full _st))%Z)
    (Float64.of_int (style.photoLeft (style.full _st)))
    (Float64.of_int cellLeftFull)
    (Float64.of_int (Layout.singleFull cells))
    (fst (shiftTowards (_geometryFull w)))
    (snd (shiftTowards (_geometryFull w))).

End Presentations.

(** ** Expansion requests *)

(** What [requestExpanded] leaves behind. *)
Definition expandedTo (expanded : bool) (w : Widget) : Widget :=
  if Bool.eqb (_expanded w) expanded then w
  else
    set_expandedAnimation
      (Animations.start (_expandedAnimation w)
         (if expanded then 0%Q else 1%Q))
      (set_expanded expanded w).

(** The precondition of [updateExpanding]. *)
Definition contract (expandingHeight expandedHeight : Z) : Prop :=
  expandingHeight = 0 \/ 0 < expandedHeight.

Definition hysteresis (lastRatio ratio : Q) (expanded : bool) : bool :=
  if expanded
  then negb (Float64.ltb lastRatio ratio)
       && Float64.ltb ratio kCollapseAfterRatio
  else Float64.ltb lastRatio ratio && Float64.ltb kExpandAfterRatio ratio.

(** The driver reports one sample after the other to [updateExpanding];
    [feed] collects what each sample fires. *)
Fixpoint feed (samples : list (Z * Z)) (w : Widget) : list (list Event) :=
  match samples with
  | [] => []
  | (expandingHeight, expandedHeight) :: rest =>
      let r := updateExpanding expandingHeight expandedHeight w in
      fired r :: match after r with
                 | Some w' => feed rest w'
                 | None => []
                 end
  end.

(** ** Frames and invariants

    [preserves f m]: the computation [m] returns from every widget and
    leaves the component [f] of the widget as it was. *)
Definition preserves {X A : Type} (f : Widget -> X) (m : M A) : Prop :=
  forall w, exists ev a w', m w = mkRun ev (Returned a w') /\ f w' = f w.

(** ** Reconciliation, item by item *)

(** [ranges::find(items, id, ...)] alone: the first item with the id. *)
Fixpoint find_item (id : N) (items : list Item.t) : option Item.t :=
  match items with
  | [] => None
  | i :: rest => if N.eqb (item_id i) id then Some i else find_item id rest
  end.

(** The item an element gets: the previous item with its id, merged with
    the element, or a fresh one. *)
Definition reconciled (items : list Item.t) (element : Element.t)
  : Item.t :=
  match find_item (Element.id element) items with
  | Some item => merge item element
  | None => Item.fresh element
  end.

(** [items'] are the [items] after the ones with an id among [ids] may
    have been moved from. *)
Definition consumed (ids : list N) (items items' : list Item.t) : Prop :=
  Forall2
    (fun i i' =>
       i' = i \/ (i' = Item.moved_from i /\ In (item_id i) ids))
    items items'.

(** What a content leaves in the widget: the content and the items. *)
Definition stored (w : Widget) : Content.t * Data.t :=
  (_content w, _data w).

(** ** Scroll bounds *)

(** The bound of [updateScrollMax]: the width of the full row beyond the
    width of the widget. *)
Definition scrollBound (st : style.DialogsStoriesList) (w : Widget) : Z :=
  let full := style.full st in
  let singleFull := style.photoLeft full * 2 + style.photo full in
  let widthFull := style.left full + items_size w * singleFull in
  Z.max (widthFull - width w) 0.

Definition ScrollWithin (st : style.DialogsStoriesList) (w : Widget)
  : Prop :=
  0 <= _scrollLeft w <= scrollBound st w.

(** [keeps f m]: whenever [m] returns, the component [f] of the widget is
    as it was. *)
Definition keeps {X A : Type} (f : Widget -> X) (m : M A) : Prop :=
  forall w,
    match outcome (m w) with
    | Returned _ w' => f w' = f w
    | Stopped _ => True
    end.

(** [hoare P m Q]: from a widget with [P], whenever [m] returns, [Q] holds
    of the result and the widget. *)
Definition hoare {A : Type} (P : Widget -> Prop) (m : M A)
    (Q : A -> Widget -> Prop) : Prop :=
  forall w,
    P w ->
    match outcome (m w) with
    | Returned a w' => Q a w'
    | Stopped _ => True
    end.

(** [upholds P m]: [m] keeps the invariant [P]. *)
Definition upholds {A : Type} (P : Widget -> Prop) (m : M A) : Prop :=
  hoare P m (fun _ => P).

(** What the bounds of the scroll offset depend on: the offset, its
    stored maximum, the items and the rectangle of the widget. *)
Definition scroll (w : Widget) : Z * Z * Data.t * QRect.t :=
  (_scrollLeft w, _scrollLeftMax w, _data w, geometry w).

(** The offset is within the stored maximum. *)
Definition ScrollStored (w : Widget) : Prop :=
  0 <= _scrollLeft w <= _scrollLeftMax w.

(** The stored maximum is within the bound of the row. *)
Definition ScrollBounded (st : style.DialogsStoriesList) (w : Widget)
  : Prop :=
  ScrollStored w /\ _scrollLeftMax w <= scrollBound st w.

(** The inputs that do not empty the content. *)
Definition keepsContent (i : Input) : Prop :=
  match i with
  | Show content => Content.elements content <> []
  | _ => True
  end.

(** ** The selected item

    The expression of [updateSelected], cut into its parts: what it
    selects for a layout and the horizontal position of the pointer in the
    widget. *)

Section Hit.

Variable st : style.DialogsStoriesList.
Variable layout : Layout.t.
Variable pointer : Z.

Definition firstRightFull : Z :=
  Layout.leftFull layout
  + (Layout.startIndexFull layout + 1) * Layout.singleFull layout.

Definition firstRightSmall : Z :=
  Layout.leftSmall layout
  + style.photoLeft (style.small st) + style.photo (style.small st).

Definition secondLeftSmall : Z :=
  if Layout.smallSkip layout =? 0 then firstRightSmall
  else Layout.leftSmall layout + style.photoLeft (style.small st)
       + style.shift (style.small st).

Definition hitLerp (a b : Z) : Q :=
  (Float64.of_int a
   + (Float64.of_int b - Float64.of_int a) * Layout.ratio layout)%Q.

Definition firstRight : Q := hitLerp firstRightSmall firstRightFull.
Definition secondLeft : Q := hitLerp secondLeftSmall firstRightFull.
Definition lastRightAdd : Q := hitLerp (style.photoLeft (style.small st)) 0.

Definition activateFull : bool := Float64.leb (1 # 2) (Layout.ratio layout).

(** The visible window of the active presentation. *)
Definition startIndex : Z :=
  if activateFull then Layout.startIndexFull layout
  else Layout.startIndexSmall layout.

Definition endIndex : Z :=
  if activateFull then Layout.endIndexFull layout
  else Layout.endIndexSmall layout.

(** The slot under the pointer, counted from the start of the window;
    [None] when the pitch of the layout is zero. *)
Definition infiniteIndex : option Z :=
  if Float64.ltb (Float64.of_int pointer) secondLeft then Some 0
  else
    match Float64.div (Qmax (Float64.of_int pointer - firstRight) 0)
            (Layout.single layout) with
    | Float64.Finite q => Some (Qfloor q + 1)
    | Float64.NotFinite => None
    end.

(** The pointer is one slot beyond the window, but still on the last
    visible circle. *)
Definition onLastPart (candidate : Z) : bool :=
  (candidate =? endIndex - startIndex)
  && Float64.ltb (Float64.of_int pointer)
       (firstRight
        + Float64.of_int (endIndex - startIndex - 1) * Layout.single layout
        + lastRightAdd)%Q.

(** The candidate exceeds the last visible slot. *)
Definition beyondWindow (candidate : Z) : bool :=
  endIndex <=? startIndex + candidate.

Definition indexFor (candidate : Z) : Z :=
  if endIndex =? startIndex then -1
  else if onLastPart candidate then candidate - 1
  else if beyondWindow candidate
  then (if style.fullClickable st then endIndex - 1 else -1)
  else candidate.

Definition selectedFor (candidate : Z) : Z :=
  let index := indexFor candidate in
  if (index <? 0) || (Layout.itemsCount layout <=? startIndex + index)
  then -1
  else startIndex + index.

Definition hit : option Z := option_map selectedFor infiniteIndex.

End Hit.

(** What [updateSelected] stores for a new selection. *)
Definition select (selected : Z) (w : Widget) : Widget :=
  if _selected w =? selected then w
  else
    set_selected selected
      (if negb (Bool.eqb (0 <=? selected) (0 <=? _selected w))
       then set_cursor
              (if 0 <=? selected then cur_pointer else cur_default) w
       else w).

(** The layout [computeLayout()] returns when the stored ratio is up to
    date. *)
Definition layoutNow (st : style.DialogsStoriesList) (w : Widget)
  : Layout.t :=
  computeLayout st
    (Animations.value (_expandedAnimation w)
       (if _expanded w then 1%Q else 0%Q)) w.

(** ** Idle widgets *)

(** The height [computeLayout()] reports to [updateExpanding]. *)
Definition reportedHeight (w : Widget) : Z :=
  Float64.to_int
    (Float64.of_int (_lastExpandedHeight w)
     * Animations.value (_expandCatchUpAnimation w) 1)%Q.

(** The stored ratio is the one of the reported height: laying out does
    not change the widget. *)
Definition Idle (st : style.DialogsStoriesList) (w : Widget) : Prop :=
  contract (reportedHeight w) (style.height (style.full st))
  /\ exists ratio,
       expandingRatio (reportedHeight w) (style.height (style.full st))
       = Float64.Finite ratio
       /\ (_lastRatio w == ratio)%Q.

(** The widget a left press lays out: in the compact state it has been
    asked to expand. *)
Definition pressedOn (w : Widget) : Widget :=
  match _state w with
  | Small => expandedTo true w
  | _ => w
  end.

Definition leftButtonAt (p : QPoint.t) : QMouseEvent :=
  {| button := LeftButton; globalPos := p |}.

(** ** Styles and windows *)

(** The width of a cell of the full row before the spare width is spread:
    [singleFullMin] of [computeLayout], [singleFull] of
    [updateScrollMax]. *)
Definition fullPitch (st : style.DialogsStoriesList) : Z :=
  style.photoLeft (style.full st) * 2 + style.photo (style.full st).

(** The width of the full row: [totalFull] of [computeLayout]. *)
Definition totalFull (st : style.DialogsStoriesList) (w : Widget) : Z :=
  style.left (style.full st) + fullPitch st * items_size w.

(** The first item asks to be skipped in the compact row. *)
Definition skipsFirst (w : Widget) : bool :=
  match Data.items (_data w) with
  | first :: _ => Element.skipSmall (Item.element first)
  | [] => false
  end.

(** The cell [i] of the full row meets the widget [[0, width)]. *)
Definition cellVisible (l : Layout.t) (width i : Z) : Prop :=
  Layout.leftFull l + i * Layout.singleFull l < width
  /\ 0 < Layout.leftFull l + (i + 1) * Layout.singleFull l.

(** ** Requests in a row *)

(** The events are expansion requests only, each for the opposite of the
    state before it, starting from [expanded]. *)
Fixpoint alternating (expanded : bool) (events : list Event) : Prop :=
  match events with
  | [] => True
  | toggleExpandedRequests b :: rest =>
      b = negb expanded /\ alternating b rest
  | _ :: _ => False
  end.

(** ** The discrete state and the height *)

(** What the discrete state is decided from. *)
Definition expansion (w : Widget) : State * Z :=
  (_state w, _lastExpandedHeight w).

(** The state follows the height the owner has set: the row is compact
    exactly at the height 0, and full only at the full height. *)
Definition StateFollowsHeight (st : style.DialogsStoriesList) (w : Widget)
  : Prop :=
  0 <= _lastExpandedHeight w <= style.height (style.full st)
  /\ (_state w = Small <-> _lastExpandedHeight w = 0)
  /\ (_state w = Full ->
      _lastExpandedHeight w = style.height (style.full st)).

(** ** The pointer and the selection *)

Definition pointing (w : Widget) : Z * Cursor := (_selected w, cursor w).

(** The pointing hand is shown exactly while an item is selected. *)
Definition PointerOverItem (w : Widget) : Prop :=
  cursor w = cur_pointer <-> 0 <= _selected w.

(** ** The content and the items *)

Definition snapshot (w : Widget) : Content.t * Data.t * bool :=
  (_content w, _data w, _empty w).

(** The flag [_empty] tells whether there are no items, and the items
    are none or those of the stored content, one for each element and in
    their order. *)
Definition SnapshotShown (w : Widget) : Prop :=
  _empty w = Data.empty (_data w)
  /\ (Data.items (_data w) = []
      \/ map item_id (Data.items (_data w))
         = map Element.id (Content.elements (_content w))).

(** ** Runs that return *)

(** [total P m Q]: from a widget with [P], [m] returns, and [Q] holds of
    the result and the widget. *)
Definition total {A : Type} (P : Widget -> Prop) (m : M A)
    (Q : A -> Widget -> Prop) : Prop :=
  forall w,
    P w -> exists ev a w', m w = mkRun ev (Returned a w') /\ Q a w'.

(** The styles with a full height that is not negative and positive
    widths of the cells of both rows. *)
Definition WellFormed (st : style.DialogsStoriesList) : Prop :=
  0 <= style.height (style.full st)
  /\ 0 < style.shift (style.small st)
  /\ 0 < fullPitch st.

Definition InUnit (q : Q) : Prop := (0 <= q <= 1)%Q.

(** The value of a running animation is between its ends. *)
Definition AnimationInUnit (a : Simple) : Prop :=
  match a with Some v => InUnit v | None => True end.

(** What the failures of the handlers depend on. *)
Definition gesture (w : Widget)
  : Z * Q * Simple * Simple * bool * option QPoint.t :=
  (_lastExpandedHeight w, _lastRatio w, _expandedAnimation w,
   _expandCatchUpAnimation w, _dragging w, _mouseDownPosition w).

Definition Sound (st : style.DialogsStoriesList) (w : Widget) : Prop :=
  0 <= _lastExpandedHeight w <= style.height (style.full st)
  /\ InUnit (_lastRatio w)
  /\ AnimationInUnit (_expandedAnimation w)
  /\ AnimationInUnit (_expandCatchUpAnimation w)
  /\ (_dragging w = true -> _mouseDownPosition w <> None).

(** The ticks of the animation clock carry values between the ends. *)
Definition tickInUnit (i : Input) : Prop :=
  match i with
  | ExpandedTick v | CatchUpTick v => AnimationInUnit v
  | _ => True
  end.

(** The selection is no item or an existing one. *)
Definition SelectionInRange (w : Widget) : Prop :=
  _selected w = -1 \/ 0 <= _selected w < items_size w.

(** ** What the handlers fire *)

(** [emits allowed m]: whatever [m] fires, also before it stops, is
    [allowed]. *)
Definition emits {A : Type} (allowed : Event -> Prop) (m : M A) : Prop :=
  forall w, Forall allowed (fired (m w)).

(** The events an input can make the widget fire. *)
Definition mayFire (i : Input) (e : Event) : Prop :=
  match e, i with
  | clicks _, Release _ => True
  | toggleExpandedRequests _, (Wheel _ | Press _ | Move _ | Release _) =>
      True
  | entered, Enter => True
  | loadMoreRequests,
    (Wheel _ | Move _ | Release _ | Resize _ | Show _ | ExpandedHeight _ _
     | LayoutConstraints _ _ _ | ExpandedTick _ | CatchUpTick _) => True
  | collapsedGeometryChanged, ExpandedTick _ => True
  | _, _ => False
  end.

(** A request to load more or to change the expansion. *)
Definition scrollingEvent (e : Event) : Prop :=
  match e with
  | loadMoreRequests | toggleExpandedRequests _ => True
  | _ => False
  end.

(** ** Wheel and drag *)

(** The step of a wheel event that is not ignored: past the test for a
    horizontal movement only the horizontal deltas are read. *)
Definition wheelStep (rtl : bool) (e : QWheelEvent) : Z :=
  (if rtl then -1 else 1)
  * (if QPoint.x (pixelDelta e) =? 0 then QPoint.x (angleDelta e)
     else QPoint.x (pixelDelta e)).

Definition wheelAccepted (e : QWheelEvent) (w : Widget) : bool :=
  negb (QPoint.x (angleDelta e) =? 0)
  && negb (State_eqb (_state w) Small).

(** The offset a drag gives for the pointer at [p]. *)
Definition draggedTo (rtl : bool) (w : Widget) (down p : QPoint.t) : Z :=
  clamp
    ((if rtl then -1 else 1) * (QPoint.x down - QPoint.x p)
     + _startDraggingLeft w)
    0 (_scrollLeftMax w).

(** What a drag depends on. *)
Definition dragState (w : Widget)
  : bool * option QPoint.t * Z * Z * Z * State * QPoint.t :=
  (_dragging w, _mouseDownPosition w, _startDraggingLeft w, _scrollLeft w,
   _scrollLeftMax w, _state w, _lastMousePosition w).

(** The pointer has left the place of the press by the drag distance. *)
Definition beyondDragDistance (startDragDistance : Z) (w : Widget)
    (p : QPoint.t) : bool :=
  match _mouseDownPosition w with
  | Some down =>
      startDragDistance <=? QPoint.manhattanLength (QPoint.sub p down)
  | None => false
  end.

(** More widgets: the row of [Sample.scrolled] with the pointer pressed
    at 100 and moved to 60, and the one with a clickable trailing region
    and the pointer at 299. *)
Module Scene.

Definition pressAt (x : Z) : QMouseEvent :=
  {| button := LeftButton; globalPos := QPoint.mk x 10 |}.

Definition pressing : Widget :=
  Eval vm_compute in
    Sample.run_from Sample.scrolled
      (Sample.run Sample.st [ExpandedTick None; Press (pressAt 100)]).

Definition dragging : Widget :=
  Eval vm_compute in
    Sample.run_from pressing (Sample.run Sample.st [Move (pressAt 60)]).

End Scene.

(** ** The rectangle of the compact row *)

(** The number of items the compact row shows. *)
Definition smallCount (w : Widget) : Z :=
  Z.min kSmallThumbsShown
    (items_size w - (if (1 <? items_size w) && skipsFirst w then 1 else 0)).

(** The width of the compact row for [count] items. *)
Definition smallWidth (st : style.DialogsStoriesList) (count : Z) : Z :=
  let small := style.small st in
  2 * style.left small + 2 * style.photoLeft small + style.photo small
  + (count - 1) * style.shift small.

(** The rectangle [updateGeometry] gives the widget in its state. *)
Definition placed (st : style.DialogsStoriesList) (w : Widget) : QRect.t :=
  match _state w with
  | Small => countSmallGeometry st w
  | Changing => QRect.united (_geometryFull w) (countSmallGeometry st w)
  | Full => _geometryFull w
  end.

(** ** What a paint shows *)

Definition elements_of (w : Widget) : list Element.t :=
  map Item.element (Data.items (_data w)).

(** Every item has a thumbnail. *)
Definition Thumbnails (w : Widget) : Prop :=
  Forall (fun element => Element.thumbnail element <> None)
    (elements_of w).

(** The slot of a single: the argument [lookup] was called with. *)
Definition slotOf (layout : Layout.t) (single : Single.t) : Z :=
  Single.indexSmall single - Layout.startIndexSmall layout.

(** The slots the second painter was called for, in the order of the
    calls. *)
Fixpoint others (layout : Layout.t) (log : list Painted) : list Z :=
  match log with
  | [] => []
  | paintedOther single :: rest => slotOf layout single :: others layout rest
  | _ :: rest => others layout rest
  end.

(** The same for the first painter. *)
Fixpoint gradients (layout : Layout.t) (log : list Painted) : list Z :=
  match log with
  | [] => []
  | paintedGradient single :: rest =>
      slotOf layout single :: gradients layout rest
  | _ :: rest => gradients layout rest
  end.

(** The slot shows an item of the compact or of the full row. *)
Definition slotShown (layout : Layout.t) (expandRatio : Q) (slot : Z)
  : bool :=
  drawSmall expandRatio
  && (Layout.startIndexSmall layout + slot <? Layout.endIndexSmall layout)
  && (Layout.smallSkip layout <=? Layout.startIndexSmall layout + slot)
  || drawFull expandRatio
     && (Layout.startIndexFull layout + slot <? Layout.endIndexFull layout).

(** The slots of the loop of a paint: [first, count). *)
Definition firstSlot (layout : Layout.t) : Z :=
  Layout.smallSkip layout - Layout.startIndexSmall layout.

Definition countSlots (layout : Layout.t) : Z :=
  Z.max (Layout.endIndexFull layout - Layout.startIndexFull layout)
    (Layout.endIndexSmall layout - Layout.startIndexSmall layout).

(** What [lookup] returns for a slot when the items it addresses
    exist. *)
Definition singleAt (st : style.DialogsStoriesList) (layout : Layout.t)
    (expandRatio photoTop : Q) (slot : Z) : Single.t :=
  let photoTopSmall := style.photoTop (style.small st) in
  let indexSmall := Layout.startIndexSmall layout + slot in
  let indexFull := Layout.startIndexFull layout + slot in
  let ySmall :=
    (Float64.of_int photoTopSmall
     + ((photoTop - Float64.of_int photoTopSmall)
        * Float64.of_int
            (kSmallThumbsShown - indexSmall + Layout.smallSkip layout)
        / (1 # 2)))%Q in
  Single.mk
    (Layout.left layout + Layout.single layout * Float64.of_int slot)%Q
    indexSmall
    (if drawSmall expandRatio
        && (indexSmall <? Layout.endIndexSmall layout)
        && (Layout.smallSkip layout <=? indexSmall)
     then Some indexSmall else None)
    indexFull
    (if drawFull expandRatio && (indexFull <? Layout.endIndexFull layout)
     then Some indexFull else None)
    (ySmall + (photoTop - ySmall) * expandRatio)%Q.

(** The widget without its items. *)
Definition behind (w : Widget) : Widget := set_data (Data.mk []) w.

(** What the painters leave as it is: the elements of the items and
    everything that is no item. *)
Definition paintFrame (w : Widget) : list Element.t * Widget :=
  (elements_of w, behind w).

(** The widget without what a paint may change: the caches of the items,
    and the stored ratio and the expansion that follow the height. *)
Definition unpainted (w : Widget) : list Element.t * Widget :=
  (elements_of w,
   set_lastRatio 0
     (set_expanded false (set_expandedAnimation None (behind w)))).

(** Neither painter was called. *)
Definition quiet (layout : Layout.t) (log : list Painted) : Prop :=
  others layout log = [] /\ gradients layout log = [].

Definition Painting (els : list Element.t) (g : Widget) (w : Widget)
  : Prop :=
  paintFrame w = (els, g).

(** What the loop of [enumerate] has painted when it has walked from the
    slot [i - 1] down to [first]: [os] and [gs] are the slots given to the
    second and to the first painter.  No slot is given twice to a painter;
    the slots given are shown slots of the walk or the slot before it;
    every shown slot of the walk is given to both, the gradient of the
    slot [i - 1] apart when it was painted ahead; and the userpics of the
    walk are painted from the last slot to the first one. *)
Definition Strokes (shown : Z -> bool) (first i : Z)
    (nextGradientPainted skippedPainted : bool) (os gs : list Z) : Prop :=
  NoDup os
  /\ (forall s, In s os ->
        shown s = true
        /\ (first <= s < i \/ (s = first - 1 /\ skippedPainted = false)))
  /\ (forall s, first <= s < i -> shown s = true -> In s os)
  /\ NoDup gs
  /\ (forall s, In s gs ->
        shown s = true
        /\ ((first <= s < i /\ (s = i - 1 -> nextGradientPainted = false))
            \/ (s = first - 1 /\ skippedPainted = false)))
  /\ (forall s, first <= s < i -> shown s = true ->
        (s = i - 1 -> nextGradientPainted = false) -> In s gs)
  /\ StronglySorted (fun a b => first <= a -> b < a) os.

(** Every userpic is painted over its gradient: when the second painter
    is called for a slot, the first painter has been called for it, in
    this log or before it for the slots [seen]. *)
Fixpoint layered (layout : Layout.t) (seen : list Z) (log : list Painted)
  : Prop :=
  match log with
  | [] => True
  | paintedGradient single :: rest =>
      layered layout (slotOf layout single :: seen) rest
  | paintedOther single :: rest =>
      In (slotOf layout single) seen /\ layered layout seen rest
  | _ :: rest => layered layout seen rest
  end.

(** No event at all. *)
Definition nothing (e : Event) : Prop := False.

(** ** Inputs and paints *)

(** An input whose content gives every element a thumbnail. *)
Definition withThumbnails (i : Input) : Prop :=
  match i with
  | Show content =>
      Forall (fun element => Element.thumbnail element <> None)
        (Content.elements content)
  | _ => True
  end.

(** What the application calls the widget with: an input or a paint. *)
Inductive Call : Type :=
| handles (i : Input)
| paints.

Definition callable (c : Call) : Prop :=
  match c with
  | handles i => tickInUnit i /\ withThumbnails i
  | paints => True
  end.

Section Calls.

Local Open Scope widget_scope.

Variable st : style.DialogsStoriesList.
Variable RightToLeft : bool.
Variable startDragDistance : Z.
Variable origin : QPoint.t.
Variable dialogsNameFg : N.
Variable renderName : string -> N -> option N.

Definition call (c : Call) : M unit :=
  match c with
  | handles i => handle st RightToLeft startDragDistance origin i
  | paints => paintEvent st dialogsNameFg renderName ;; ret tt
  end.

(** The calls one after the other. *)
Fixpoint callAll (calls : list Call) : M unit :=
  match calls with
  | [] => ret tt
  | c :: rest => call c ;; callAll rest
  end.

End Calls.

(** ** Layouts over an arithmetic *)

(** A layout of the exact embedding, as a layout over [Exact]. *)
Definition exactly (l : Layout.t) : LayoutIn.t Exact :=
  LayoutIn.mk (A := Exact)
    (Layout.itemsCount l)
    (QPointF.x (Layout.geometryShift l), QPointF.y (Layout.geometryShift l))
    (Layout.expandedRatio l) (Layout.ratio l) (Layout.thumbnailLeft l)
    (Layout.photoLeft l) (Layout.left l) (Layout.single l)
    (Layout.smallSkip l) (Layout.leftFull l) (Layout.leftSmall l)
    (Layout.singleFull l) (Layout.singleSmall l)
    (Layout.startIndexSmall l) (Layout.endIndexSmall l)
    (Layout.startIndexFull l) (Layout.endIndexFull l).

(** The interpolated fields of a layout over [Exact]. *)
Definition blendOf (l : LayoutIn.t Exact) : Blend :=
  Build_Blend (LayoutIn.thumbnailLeft l) (LayoutIn.photoLeft l)
    (LayoutIn.left l) (LayoutIn.single l)
    (fst (LayoutIn.geometryShift l)) (snd (LayoutIn.geometryShift l)).

(** Whether a field of the binary64 layout at the blend ratio [r] is the
    interpolation by [r] between its values at the blend ratios 0 and 1:
    as the [lerp] of the code computes the interpolation, and as the
    exact number.  [None]: a layout is not defined. *)
Definition interpolated64 (st : style.DialogsStoriesList) (w : Widget)
    (r : Q) (field : LayoutIn.t Binary64.arithmetic -> Binary64.t)
  : option (bool * bool) :=
  match computeLayoutIn Binary64.arithmetic st (Binary64.of_int 0) w,
        computeLayoutIn Binary64.arithmetic st (Binary64.of_Q r) w,
        computeLayoutIn Binary64.arithmetic st (Binary64.of_int 1) w with
  | Some l0, Some lr, Some l1 =>
      Some (Binary64.eqb (field lr)
              (Binary64.lerp (Binary64.of_Q r) (field l0) (field l1)),
            Binary64.between r (field l0) (field lr) (field l1))
  | _, _, _ => None
  end.

(** * Properties *)

(** ** Comparisons *)

Module Float64Facts.

Import Float64.
Local Open Scope Q_scope.

Lemma ltb_lt (a b : Q) : ltb a b = true <-> a < b.
Proof.
  unfold ltb. rewrite negb_true_iff.
  destruct (Qle_bool b a) eqn:E.
  - apply Qle_bool_iff in E. split; [discriminate | intro H].
    exfalso. apply (Qlt_not_le _ _ H E).
  - split; [intros _ | reflexivity].
    apply Qnot_le_lt. intro H. apply Qle_bool_iff in H. congruence.
Qed.

Lemma ltb_ge (a b : Q) : ltb a b = false <-> b <= a.
Proof.
  unfold ltb. rewrite negb_false_iff. apply Qle_bool_iff.
Qed.

Lemma eqb_eq (a b : Q) : eqb a b = true <-> a == b.
Proof. apply Qeq_bool_iff. Qed.

Lemma eqb_neq (a b : Q) : eqb a b = false <-> ~ a == b.
Proof.
  unfold eqb. split.
  - intros E H. apply Qeq_bool_iff in H. congruence.
  - intro H. destruct (Qeq_bool a b) eqn:E; [|reflexivity].
    apply Qeq_bool_iff in E. contradiction.
Qed.

End Float64Facts.

(** ** The layout function *)

(** Every interpolated field is the blend of the two presentations at the
    ratio of the layout. *)
Lemma computeLayout_blend (st : style.DialogsStoriesList) (w : Widget)
    (e : Q) :
  Blend_eq (fields (computeLayout st e w))
    (Blend_lerp (Layout.ratio (computeLayout st e w))
       (compact st w) (expandedFull st w)).
Proof.
  unfold Blend_eq, Blend_lerp, fields, compact, expandedFull, shiftTowards,
    cellLeftSmall, cellLeftFull, lerp, computeLayout, Float64.of_int.
  cbn [Layout.thumbnailLeft Layout.photoLeft Layout.left Layout.single
       Layout.geometryShift Layout.ratio Layout.leftSmall
       Layout.startIndexSmall Layout.singleSmall Layout.leftFull
       Layout.startIndexFull Layout.singleFull QPointF.x QPointF.y
       thumbnailLeft_is photoLeft_is left_is single_is geometryShift_x_is
       geometryShift_y_is].
  destruct (State_eqb (_state w) Changing); cbn [fst snd];
    rewrite ?inject_Z_plus; repeat split; ring.
Qed.

Lemma computeLayout_ratio (st : style.DialogsStoriesList) (w : Widget)
    (e : Q) :
  (Layout.ratio (computeLayout st e w)
   == _lastRatio w * e + _lastRatio w * kFrictionRatio * (1 - e))%Q.
Proof. unfold computeLayout; cbn [Layout.ratio]. ring. Qed.

(** In exact arithmetic every interpolated field is affine in the blend
    ratio, and so is the ratio of the layout. *)
Lemma computeLayout_affine (st : style.DialogsStoriesList)
    (w : Widget) (r : Q) :
  (Layout.ratio (computeLayout st r w)
   == _lastRatio w * r + _lastRatio w * (15 # 100) * (1 - r))%Q
  /\ Blend_eq (fields (computeLayout st r w))
       (Blend_lerp r (fields (computeLayout st 0 w))
          (fields (computeLayout st 1 w))).
Proof.
  split; [apply computeLayout_ratio|].
  pose proof (computeLayout_blend st w r) as Hr.
  pose proof (computeLayout_blend st w 0) as H0.
  pose proof (computeLayout_blend st w 1) as H1.
  pose proof (computeLayout_ratio st w r) as Rr.
  pose proof (computeLayout_ratio st w 0) as R0.
  pose proof (computeLayout_ratio st w 1) as R1.
  unfold Blend_eq, Blend_lerp, lerp in *.
  cbn [thumbnailLeft_is photoLeft_is left_is single_is geometryShift_x_is
       geometryShift_y_is] in *.
  unfold kFrictionRatio in *.
  destruct Hr as (a1 & a2 & a3 & a4 & a5 & a6).
  destruct H0 as (b1 & b2 & b3 & b4 & b5 & b6).
  destruct H1 as (c1 & c2 & c3 & c4 & c5 & c6).
  rewrite a1, a2, a3, a4, a5, a6, b1, b2, b3, b4, b5, b6,
    c1, c2, c3, c4, c5, c6, Rr, R0, R1.
  repeat split; ring.
Qed.

(** With exact arithmetic [computeLayoutIn] is [computeLayout], where no
    [int] is divided by 0. *)
Lemma computeLayoutIn_exact (st : style.DialogsStoriesList) (r : Q)
    (w : Widget) :
  computeLayoutIn Exact st r w
  = if Layout.singleFull (computeLayout st r w) =? 0 then None
    else Some (exactly (computeLayout st r w)).
Proof. reflexivity. Qed.

Lemma computeLayoutIn_exact_fields (st : style.DialogsStoriesList) (r : Q)
    (w : Widget) (l : LayoutIn.t Exact) :
  computeLayoutIn Exact st r w = Some l ->
  blendOf l = fields (computeLayout st r w)
  /\ LayoutIn.ratio l = Layout.ratio (computeLayout st r w).
Proof.
  rewrite computeLayoutIn_exact.
  destruct (_ =? 0); [discriminate|].
  intro E. injection E as <-. split; reflexivity.
Qed.

(** C1, as stated, fails in the arithmetic of the program.  Half-way
    pulled down (last observed ratio 38/77) and at the blend ratio 1/2,
    the binary64 values of [thumbnailLeft], [left] and [single] are
    9.702597402597403, 4.000000000000001 and 29.053246753246754.  They
    are not the interpolation between the values at the blend ratios 0
    and 1: neither when it is computed in binary64, as the [lerp] of the
    code does, nor as the exact number. *)
Lemma computeLayout_interpolation_rounds :
  Binary64.to_Q (Binary64.of_Q (1 # 2)) = Some (1 # 2)%Q
  /\ Forall
       (fun field =>
          interpolated64 Sample.st Sample.halfway (1 # 2) field
          = Some (false, false))
       [LayoutIn.thumbnailLeft; LayoutIn.left; LayoutIn.single].
Proof.
  split; [vm_compute; reflexivity|].
  repeat constructor; vm_compute; reflexivity.
Qed.

(** C1, amended: in exact arithmetic, that is before the [float64]
    operations round, for every widget and every blend ratio [r] in
    [0, 1] each interpolated field of [computeLayout r] (thumbnailLeft,
    photoLeft, left, single and both coordinates of geometryShift) is the
    linear interpolation by [r] between the same field of
    [computeLayout 0] and of [computeLayout 1]; the blended ratio is
    [lastRatio * r + lastRatio * 0.15 * (1 - r)]. *)
Theorem computeLayout_interpolates (st : style.DialogsStoriesList)
    (w : Widget) (r : Q) (lr l0 l1 : LayoutIn.t Exact) :
  (0 <= r <= 1)%Q ->
  computeLayoutIn Exact st r w = Some lr ->
  computeLayoutIn Exact st 0%Q w = Some l0 ->
  computeLayoutIn Exact st 1%Q w = Some l1 ->
  (LayoutIn.ratio lr
   == _lastRatio w * r + _lastRatio w * (15 # 100) * (1 - r))%Q
  /\ Blend_eq (blendOf lr) (Blend_lerp r (blendOf l0) (blendOf l1)).
Proof.
  intros _ Er E0 E1.
  destruct (computeLayoutIn_exact_fields st r w lr Er) as [-> ->].
  destruct (computeLayoutIn_exact_fields st 0 w l0 E0) as [-> _].
  destruct (computeLayoutIn_exact_fields st 1 w l1 E1) as [-> _].
  apply computeLayout_affine.
Qed.

(** C2, as stated, fails: half-way pulled down (last observed ratio
    38/77), neither the blend ratio 0 gives the compact values nor the
    blend ratio 1 the full ones. *)
Lemma computeLayout_ends_not_pure :
  ~ Blend_eq (fields (computeLayout Sample.st 0 Sample.halfway))
      (compact Sample.st Sample.halfway)
  /\ ~ Blend_eq (fields (computeLayout Sample.st 1 Sample.halfway))
         (expandedFull Sample.st Sample.halfway).
Proof.
  split; intros (_ & H & _); vm_compute in H; discriminate H.
Qed.

(** C2, amended: the blend ratio 0 lays out at the ratio
    [0.15 * lastRatio] and the blend ratio 1 at [lastRatio]; so the blend
    ratio 0 gives the pure compact layout when the last observed ratio is
    0, and the blend ratio 1 gives the pure full layout when the last
    observed ratio is 1. *)
Theorem computeLayout_ends (st : style.DialogsStoriesList) (w : Widget) :
  (Layout.ratio (computeLayout st 0 w) == _lastRatio w * (15 # 100))%Q
  /\ (Layout.ratio (computeLayout st 1 w) == _lastRatio w)%Q
  /\ ((_lastRatio w == 0)%Q ->
      Blend_eq (fields (computeLayout st 0 w)) (compact st w))
  /\ ((_lastRatio w == 1)%Q ->
      Blend_eq (fields (computeLayout st 1 w)) (expandedFull st w)).
Proof.
  pose proof (computeLayout_blend st w 0) as H0.
  pose proof (computeLayout_blend st w 1) as H1.
  pose proof (computeLayout_ratio st w 0) as R0.
  pose proof (computeLayout_ratio st w 1) as R1.
  unfold kFrictionRatio in *.
  split; [rewrite R0; ring|].
  split; [rewrite R1; ring|].
  unfold Blend_eq, Blend_lerp, lerp in *.
  cbn [thumbnailLeft_is photoLeft_is left_is single_is geometryShift_x_is
       geometryShift_y_is] in *.
  split; intro E.
  - destruct H0 as (b1 & b2 & b3 & b4 & b5 & b6).
    rewrite b1, b2, b3, b4, b5, b6, R0, E. repeat split; ring.
  - destruct H1 as (c1 & c2 & c3 & c4 & c5 & c6).
    rewrite c1, c2, c3, c4, c5, c6, R1, E. repeat split; ring.
Qed.

(** ** Running the monad *)

Lemma bind_returned {A B} (m : M A) (k : A -> M B) (w w' : Widget) (a : A)
    (ev : list Event) :
  m w = mkRun ev (Returned a w') ->
  bind m k w = mkRun (ev ++ fired (k a w')) (outcome (k a w')).
Proof. intro E. unfold bind. rewrite E. reflexivity. Qed.

Lemma bind_stopped {A B} (m : M A) (k : A -> M B) (w : Widget)
    (f : Failure) (ev : list Event) :
  m w = mkRun ev (Stopped f) -> bind m k w = mkRun ev (Stopped f).
Proof. intro E. unfold bind. rewrite E. reflexivity. Qed.

Lemma fired_bind_prefix {A B} (m : M A) (k : A -> M B) (w : Widget) :
  exists rest, fired (bind m k w) = fired (m w) ++ rest.
Proof.
  unfold bind. destruct (outcome (m w)); cbn [fired].
  - eexists; reflexivity.
  - exists []. now rewrite app_nil_r.
Qed.

Lemma run_eta {A} (r : Run A) : r = mkRun (fired r) (outcome r).
Proof. destruct r; reflexivity. Qed.

Lemma bind_get {B} (k : Widget -> M B) (w : Widget) :
  bind get k w = k w w.
Proof. unfold bind, get. cbn. now destruct (k w w). Qed.

Lemma bind_modify {B} (g : Widget -> Widget) (k : unit -> M B)
    (w : Widget) :
  bind (modify g) k w = k tt (g w).
Proof. unfold bind, modify. cbn. now destruct (k tt (g w)). Qed.

Lemma bind_ret {A B} (a : A) (k : A -> M B) (w : Widget) :
  bind (ret a) k w = k a w.
Proof. unfold bind, ret. cbn. now destruct (k a w). Qed.

Lemma bind_assoc {A B C} (m : M A) (k1 : A -> M B) (k2 : B -> M C)
    (w : Widget) :
  bind (bind m k1) k2 w = bind m (fun a => bind (k1 a) k2) w.
Proof.
  unfold bind. destruct (outcome (m w)) as [a w1|]; cbn [outcome fired];
    [|reflexivity].
  destruct (outcome (k1 a w1)) as [b w2|]; cbn [outcome fired];
    now rewrite ?app_assoc.
Qed.

(** ** Expansion *)

Lemma requestExpanded_run (expanded : bool) (w : Widget) :
  requestExpanded expanded w
  = mkRun [toggleExpandedRequests expanded]
      (Returned tt (expandedTo expanded w)).
Proof.
  unfold requestExpanded, expandedTo, bind, get, modify, fire, ret.
  cbn.
  destruct (_expanded w) eqn:E, expanded; simpl; rewrite ?E; reflexivity.
Qed.

Lemma expandedTo_expanded (expanded : bool) (w : Widget) :
  _expanded (expandedTo expanded w) = expanded.
Proof.
  unfold expandedTo. destruct (Bool.eqb (_expanded w) expanded) eqn:E.
  - now apply eqb_prop.
  - reflexivity.
Qed.

Lemma updateExpanding_run (h H : Z) (w : Widget) (ratio : Q) :
  contract h H ->
  expandingRatio h H = Float64.Finite ratio ->
  updateExpanding h H w
  = if Float64.eqb (_lastRatio w) ratio then mkRun [] (Returned tt w)
    else if hysteresis (_lastRatio w) ratio (_expanded w)
    then requestExpanded (negb (_expanded w)) (set_lastRatio ratio w)
    else mkRun [] (Returned tt (set_lastRatio ratio w)).
Proof.
  intros C R. unfold updateExpanding. rewrite R.
  replace ((h =? 0) || (0 <? H)) with true.
  2:{ symmetry. apply orb_true_iff.
      destruct C; [left; now apply Z.eqb_eq | right; now apply Z.ltb_lt]. }
  cbn [negb]. unfold bind at 1. cbn [get outcome fired app].
  destruct (Float64.eqb (_lastRatio w) ratio); [reflexivity|].
  unfold bind, modify, get, hysteresis. cbn [outcome fired app].
  cbn [set_lastRatio _expanded].
  destruct (_expanded w);
    match goal with |- context [if ?c then _ else _] => destruct c end;
    rewrite ?requestExpanded_run; reflexivity.
Qed.

Lemma expandingRatio_finite (h H : Z) :
  contract h H ->
  exists ratio,
    expandingRatio h H = Float64.Finite ratio
    /\ (h = 0 -> ratio = 0%Q)
    /\ (h <> 0 ->
        (0 < Float64.of_int H)%Q
        /\ ratio = (Float64.of_int h / Float64.of_int H)%Q).
Proof.
  intro C. unfold expandingRatio.
  destruct (h =? 0) eqn:E.
  - apply Z.eqb_eq in E. exists 0%Q. repeat split; congruence.
  - apply Z.eqb_neq in E. destruct C as [C | C]; [contradiction|].
    assert (P : (0 < Float64.of_int H)%Q).
    { unfold Float64.of_int, Qlt. simpl. lia. }
    exists (Float64.of_int h / Float64.of_int H)%Q.
    unfold Float64.div.
    destruct (Qeq_bool (Float64.of_int H) 0) eqn:Z0.
    + apply Qeq_bool_iff in Z0. rewrite Z0 in P.
      exfalso. apply (Qlt_irrefl 0 P).
    + repeat split; [contradiction | exact P].
Qed.

(** C9: [updateExpanding] asserts that a nonzero expanding height comes
    with a positive capacity, and stops the program otherwise.  Under that
    contract the ratio is finite: with the expanding height 0 it is 0
    and no division takes place (whatever the capacity, zero included),
    otherwise the divisor is positive; and the call returns. *)
Theorem updateExpanding_contract (h H : Z) (w : Widget) :
  (~ contract h H ->
   updateExpanding h H w = mkRun [] (Stopped ExpectsFailed))
  /\ (forall capacity, expandingRatio 0 capacity = Float64.Finite 0)
  /\ (contract h H ->
      (exists ratio,
         expandingRatio h H = Float64.Finite ratio
         /\ (h = 0 -> ratio = 0%Q)
         /\ (h <> 0 ->
             (0 < Float64.of_int H)%Q
             /\ ratio = (Float64.of_int h / Float64.of_int H)%Q))
      /\ exists w', outcome (updateExpanding h H w) = Returned tt w').
Proof.
  split; [|split].
  - intro C. unfold updateExpanding.
    destruct ((h =? 0) || (0 <? H)) eqn:E; [|reflexivity].
    exfalso. apply C. apply orb_true_iff in E.
    destruct E as [E | E];
      [left; now apply Z.eqb_eq | right; now apply Z.ltb_lt].
  - reflexivity.
  - intro C. split; [now apply expandingRatio_finite|].
    destruct (expandingRatio_finite h H C) as (ratio & R & _).
    rewrite (updateExpanding_run h H w ratio C R).
    destruct (Float64.eqb (_lastRatio w) ratio); [eexists; reflexivity|].
    destruct (hysteresis _ _ _); [|eexists; reflexivity].
    rewrite requestExpanded_run. eexists; reflexivity.
Qed.

(** ** Hysteresis *)

#[local] Instance ltb_proper :
  Proper (Qeq ==> Qeq ==> eq) Float64.ltb.
Proof.
  intros a b E c d F. unfold Float64.ltb. now rewrite E, F.
Qed.

#[local] Instance eqb_proper :
  Proper (Qeq ==> Qeq ==> eq) Float64.eqb.
Proof.
  intros a b E c d F. unfold Float64.eqb. now rewrite E, F.
Qed.

#[local] Instance hysteresis_proper :
  Proper (Qeq ==> Qeq ==> eq ==> eq) hysteresis.
Proof.
  intros a b E c d F e f G. subst f. unfold hysteresis.
  destruct e; rewrite E, F; reflexivity.
Qed.

(** A sample [percent * k] out of [100 * k] has the ratio
    [percent / 100]. *)
Lemma expandingRatio_percent (percent k : Z) :
  0 < k -> 0 < percent ->
  exists ratio,
    expandingRatio (percent * k) (100 * k) = Float64.Finite ratio
    /\ (ratio == percent # 100)%Q.
Proof.
  intros K P.
  assert (C : contract (percent * k) (100 * k)) by (right; lia).
  destruct (expandingRatio_finite _ _ C) as (ratio & R & _ & N).
  exists ratio. split; [exact R|].
  destruct N as [_ ->]; [lia|].
  unfold Float64.of_int. rewrite !inject_Z_mult.
  rewrite (Qmake_Qdiv percent 100).
  assert (0 < inject_Z k)%Q.
  { change 0%Q with (inject_Z 0). rewrite <- Zlt_Qlt. exact K. }
  field. lra.
Qed.

(** One sample, up to the equality of rationals: [last] stands for the
    stored ratio and [p] for the one of the sample. *)
Lemma updateExpanding_sample (h H : Z) (w : Widget) (last p ratio : Q) :
  contract h H ->
  expandingRatio h H = Float64.Finite ratio ->
  (ratio == p)%Q ->
  (_lastRatio w == last)%Q ->
  let change :=
    negb (Float64.eqb last p) && hysteresis last p (_expanded w) in
  exists w',
    updateExpanding h H w
    = mkRun (if change
             then [toggleExpandedRequests (negb (_expanded w))]
             else [])
        (Returned tt w')
    /\ (_lastRatio w' == p)%Q
    /\ _expanded w' = xorb change (_expanded w).
Proof.
  intros C R E L change. subst change.
  rewrite (updateExpanding_run h H w ratio C R).
  rewrite (eqb_proper _ _ L _ _ E).
  rewrite (hysteresis_proper _ _ L _ _ E _ _ eq_refl).
  destruct (Float64.eqb last p) eqn:Q; cbn [negb andb].
  - exists w. split; [reflexivity | split].
    + apply Float64Facts.eqb_eq in Q. now rewrite L, Q.
    + reflexivity.
  - destruct (hysteresis last p (_expanded w)).
    + rewrite requestExpanded_run.
      exists (expandedTo (negb (_expanded w)) (set_lastRatio ratio w)).
      split; [reflexivity | split].
      * unfold expandedTo. cbn [set_lastRatio _expanded].
        destruct (_expanded w); exact E.
      * rewrite expandedTo_expanded. now destruct (_expanded w).
    + exists (set_lastRatio ratio w).
      split; [reflexivity | split]; [exact E | reflexivity].
Qed.

Lemma updateExpanding_percent (percent k : Z) (w : Widget) (last : Q) :
  0 < k -> 0 < percent ->
  (_lastRatio w == last)%Q ->
  let change :=
    negb (Float64.eqb last (percent # 100))
    && hysteresis last (percent # 100) (_expanded w) in
  exists w',
    updateExpanding (percent * k) (100 * k) w
    = mkRun (if change
             then [toggleExpandedRequests (negb (_expanded w))]
             else [])
        (Returned tt w')
    /\ (_lastRatio w' == percent # 100)%Q
    /\ _expanded w' = xorb change (_expanded w).
Proof.
  intros K P L.
  destruct (expandingRatio_percent percent k K P) as (ratio & R & E).
  apply (updateExpanding_sample _ _ w last _ ratio); auto.
  right; lia.
Qed.

(** Decides the hysteresis of a sample whose ratios are numerals. *)
Ltac settle_sample :=
  repeat match goal with
  | H : context [negb (Float64.eqb ?a ?b) && hysteresis ?a ?b ?e] |- _ =>
      match e with true => idtac | false => idtac end;
      let v := eval vm_compute in
                 (negb (Float64.eqb a b) && hysteresis a b e) in
      change (negb (Float64.eqb a b) && hysteresis a b e) with v in H
  end.

(** C3: starting compact with the last observed ratio 0, the samples
    0, 0.5, 0.73 fire exactly one expand request, at 0.73; the samples
    0.70, 0.67 that follow fire exactly one collapse request, at 0.67 and
    not at 0.70.  The samples are heights out of a capacity [100 * k]. *)
Theorem hysteresis_sequence (w : Widget) (k : Z) :
  0 < k ->
  _state w = Small ->
  _expanded w = false ->
  (_lastRatio w == 0)%Q ->
  feed [(0, 100 * k); (50 * k, 100 * k); (73 * k, 100 * k);
        (70 * k, 100 * k); (67 * k, 100 * k)] w
  = [[]; []; [toggleExpandedRequests true];
     []; [toggleExpandedRequests false]].
Proof.
  intros K _ X0 L0.
  destruct (updateExpanding_sample 0 (100 * k) w 0 0 0)
    as (w1 & R1 & L1 & X1);
    [left; reflexivity | reflexivity | reflexivity | exact L0 |].
  destruct (updateExpanding_percent 50 k w1 0 K eq_refl L1)
    as (w2 & R2 & L2 & X2).
  destruct (updateExpanding_percent 73 k w2 _ K eq_refl L2)
    as (w3 & R3 & L3 & X3).
  destruct (updateExpanding_percent 70 k w3 _ K eq_refl L3)
    as (w4 & R4 & L4 & X4).
  destruct (updateExpanding_percent 67 k w4 _ K eq_refl L4)
    as (w5 & R5 & L5 & X5).
  rewrite X0 in R1, X1. settle_sample. cbn [xorb] in X1.
  rewrite X1 in R2, X2. settle_sample. cbn [xorb] in X2.
  rewrite X2 in R3, X3. settle_sample. cbn [xorb negb] in X3, R3.
  rewrite X3 in R4, X4. settle_sample. cbn [xorb] in X4.
  rewrite X4 in R5. settle_sample. cbn [negb] in R5.
  cbn [feed]. rewrite R1. cbn [after outcome fired].
  rewrite R2. cbn [after outcome fired].
  rewrite R3. cbn [after outcome fired].
  rewrite R4. cbn [after outcome fired].
  rewrite R5. reflexivity.
Qed.

(** ** Expand requests *)

(** C10: every call of [requestExpanded] fires a toggle-expanded event
    with the resulting flag, also when the flag does not change; so a
    wheel scroll that changes the scroll offset fires one with [true],
    also when the widget is expanded already. *)
Theorem requestExpanded_always_fires :
  (forall (expanded : bool) (w : Widget),
     exists w',
       requestExpanded expanded w
       = mkRun [toggleExpandedRequests expanded] (Returned tt w')
       /\ _expanded w' = expanded
       /\ (_expanded w = expanded -> w' = w))
  /\ (forall st rtl origin (e : QWheelEvent) (w w' : Widget),
        _expanded w = true ->
        after (wheelEvent st rtl origin e w) = Some w' ->
        _scrollLeft w' <> _scrollLeft w ->
        exists rest,
          fired (wheelEvent st rtl origin e w)
          = toggleExpandedRequests true :: rest).
Proof.
  split.
  - intros expanded w. exists (expandedTo expanded w).
    split; [apply requestExpanded_run|].
    split; [apply expandedTo_expanded|].
    intro E. unfold expandedTo. rewrite E, eqb_reflx. reflexivity.
  - intros st rtl origin e w w' X A S.
    unfold wheelEvent in *.
    unfold bind at 1 in A. unfold bind at 1.
    cbn [get outcome fired app] in *.
    destruct (negb (negb (QPoint.x (angleDelta e) =? 0))
              || State_eqb (_state w) Small).
    { cbn in A. injection A as <-. contradiction. }
    match type of A with
    | context [clamp ?u 0 ?m =? ?n] => destruct (clamp u 0 m =? n)
    end; cbn [negb] in *.
    { cbn in A. injection A as <-. contradiction. }
    match goal with
    | |- exists _, fired (bind (bind ?m ?k1) ?k2 w) = _ =>
        destruct (fired_bind_prefix (bind m k1) k2 w) as (r2 & ->);
        destruct (fired_bind_prefix m k1 w) as (r1 & ->)
    end.
    rewrite requestExpanded_run. cbn [fired app].
    eexists; reflexivity.
Qed.

(** ** Frame rules *)

Section Frames.

Context {X : Type} (f : Widget -> X).

Lemma preserves_ret {A} (a : A) : preserves f (ret a).
Proof. intro w. now exists [], a, w. Qed.

Lemma preserves_get : preserves f get.
Proof. intro w. now exists [], w, w. Qed.

Lemma preserves_fire (e : Event) : preserves f (fire e).
Proof. intro w. now exists [e], tt, w. Qed.

Lemma preserves_modify (g : Widget -> Widget) :
  (forall w, f (g w) = f w) -> preserves f (modify g).
Proof. intros G w. exists [], tt, (g w). now rewrite G. Qed.

Lemma preserves_bind {A B} (m : M A) (k : A -> M B) :
  preserves f m -> (forall a, preserves f (k a)) ->
  preserves f (bind m k).
Proof.
  intros Hm Hk w.
  destruct (Hm w) as (ev & a & w1 & E & F).
  destruct (Hk a w1) as (ev' & b & w2 & E' & F').
  exists (ev ++ ev'), b, w2.
  rewrite (bind_returned m k w w1 a ev E), E'. cbn.
  split; congruence.
Qed.

End Frames.

Create HintDb frame discriminated.
#[global] Hint Constants Opaque : frame.
#[global] Hint Variables Opaque : frame.

(** Walks through a computation along its syntax. *)
Ltac frame :=
  repeat lazymatch goal with
  | |- preserves _ (bind _ _) => apply preserves_bind; [|intro]
  | |- preserves _ (ret _) => apply preserves_ret
  | |- preserves _ get => apply preserves_get
  | |- preserves _ (fire _) => apply preserves_fire
  | |- preserves _ (modify _) =>
      apply preserves_modify; intro; reflexivity
  | |- preserves _ (if ?c then _ else _) => destruct c
  | |- preserves _ (match ?s with _ => _ end) => destruct s
  | |- preserves ?f (let x := ?v in @?b x) =>
      change (preserves f (b v)); cbv beta
  | |- preserves _ _ => solve [auto with frame]
  end.

Section GeometryFrames.

Variable st : style.DialogsStoriesList.

Lemma checkLoadMore_stored : preserves stored checkLoadMore.
Proof. unfold checkLoadMore. frame. Qed.

Hint Resolve checkLoadMore_stored : frame.

Lemma updateScrollMax_stored : preserves stored (updateScrollMax st).
Proof. unfold updateScrollMax. frame. Qed.

Hint Resolve updateScrollMax_stored : frame.

Lemma setGeometry_stored r : preserves stored (setGeometry st r).
Proof. unfold setGeometry, resizeEvent. frame. Qed.

Hint Resolve setGeometry_stored : frame.

Lemma updateGeometry_stored : preserves stored (updateGeometry st).
Proof. unfold updateGeometry. frame. Qed.

End GeometryFrames.

#[export] Hint Resolve checkLoadMore_stored updateScrollMax_stored
  setGeometry_stored updateGeometry_stored : frame.

(** ** Content snapshots *)

Lemma thumbnail_eqb_eq (a b : option N) :
  Element.thumbnail_eqb a b = true <-> a = b.
Proof.
  destruct a as [p|], b as [q|]; cbn; split; try congruence.
  - intro E. apply N.eqb_eq in E. congruence.
  - intro E. injection E as ->. apply N.eqb_refl.
Qed.

Lemma Element_eqb_eq (a b : Element.t) : Element.eqb a b = true <-> a = b.
Proof.
  unfold Element.eqb. rewrite !andb_true_iff.
  rewrite !N.eqb_eq, String.eqb_eq, thumbnail_eqb_eq, eqb_true_iff.
  destruct a, b; cbn. split.
  - intros (((((-> & ->) & ->) & ->) & ->) & ->). reflexivity.
  - intro E. injection E as -> -> -> -> -> ->. repeat split.
Qed.

Lemma Content_eqb_eq (a b : Content.t) : Content.eqb a b = true <-> a = b.
Proof.
  destruct a as [a], b as [b]. unfold Content.eqb. cbn.
  revert b. induction a as [|x a IH]; intros [|y b]; cbn;
    try (split; congruence).
  rewrite andb_true_iff, Element_eqb_eq, IH. split.
  - intros [-> E]. injection E as ->. reflexivity.
  - intro E. injection E as -> ->. split; reflexivity.
Qed.

Lemma Content_eqb_refl (c : Content.t) : Content.eqb c c = true.
Proof. now apply Content_eqb_eq. Qed.

(** An equal content is ignored. *)
Lemma showContent_same (st : style.DialogsStoriesList) (c : Content.t)
    (w : Widget) :
  Content.eqb (_content w) c = true ->
  showContent st c w = mkRun [] (Returned tt w).
Proof.
  intro E. unfold showContent. rewrite bind_get, E. reflexivity.
Qed.

(** A different content without elements empties the items and returns at
    once: [_content], the scroll offset and its maximum stay. *)
Lemma showContent_empty (st : style.DialogsStoriesList) (c : Content.t)
    (w : Widget) :
  Content.eqb (_content w) c = false ->
  Content.elements c = [] ->
  showContent st c w
  = mkRun [] (Returned tt (set_empty true (set_data (Data.mk []) w))).
Proof.
  intros E N. unfold showContent. rewrite bind_get, E, N.
  rewrite bind_modify. reflexivity.
Qed.

(** A different content with elements is stored and reconciled with the
    items. *)
Lemma showContent_applied (st : style.DialogsStoriesList) (c : Content.t)
    (w : Widget) :
  Content.eqb (_content w) c = false ->
  Content.elements c <> [] ->
  exists ev w',
    showContent st c w = mkRun ev (Returned tt w')
    /\ _content w' = c
    /\ Data.items (_data w')
       = reconcile (Content.elements c) (Data.items (_data w)) [].
Proof.
  intros E N. unfold showContent. rewrite bind_get, E.
  destruct (Content.elements c) as [|e rest] eqn:Els; [contradiction|].
  rewrite !bind_modify.
  match goal with
  | |- exists ev w', ?m ?w1 = _ /\ _ =>
      assert (P : preserves stored m) by frame;
      destruct (P w1) as (ev & [] & w' & R & F)
  end.
  exists ev, w'. split; [exact R|].
  injection F as Fc Fd. rewrite Fc, Fd.
  cbn [set_data set_content _content _data Data.items].
  rewrite Els. split; reflexivity.
Qed.

(** *** Order *)

Lemma take_by_id_found (id : N) (items : list Item.t) (found : Item.t)
    (rest : list Item.t) :
  take_by_id id items = Some (found, rest) -> item_id found = id.
Proof.
  revert rest. induction items as [|i items IH]; intros rest; cbn.
  - discriminate.
  - destruct (N.eqb (item_id i) id) eqn:E.
    + intro H. injection H as <- _. now apply N.eqb_eq.
    + destruct (take_by_id id items) as [[f r]|]; [|discriminate].
      intro H. injection H as <- _. now apply (IH r).
Qed.

Lemma merge_id (item : Item.t) (element : Element.t) :
  item_id (merge item element) = item_id item.
Proof.
  unfold merge, item_id.
  destruct (negb (Element.thumbnail_eqb _ _));
    destruct (negb (String.eqb _ _)); reflexivity.
Qed.

(** The items come out in the order of the elements. *)
Lemma reconcile_order (elements : list Element.t)
    (items result : list Item.t) :
  map item_id (reconcile elements items result)
  = map item_id result ++ map Element.id elements.
Proof.
  revert items result.
  induction elements as [|e elements IH]; intros items result;
    cbn [reconcile map].
  - now rewrite app_nil_r.
  - destruct (take_by_id (Element.id e) items) as [[found items']|] eqn:T;
      rewrite IH, map_app, <- app_assoc; cbn [map app].
    + now rewrite merge_id, (take_by_id_found _ _ _ _ T).
    + reflexivity.
Qed.

(** After a content that is applied, the items are in its order. *)
Lemma showContent_order (st : style.DialogsStoriesList) (c : Content.t)
    (w : Widget) :
  Content.eqb (_content w) c = false ->
  Content.elements c <> [] ->
  exists w',
    after (showContent st c w) = Some w'
    /\ map item_id (Data.items (_data w'))
       = map Element.id (Content.elements c).
Proof.
  intros E N.
  destruct (showContent_applied st c w E N) as (ev & w' & R & _ & I).
  exists w'. rewrite R, I, reconcile_order. split; reflexivity.
Qed.

(** *** Distinct ids *)

Lemma consumed_more (id : N) (ids : list N) (items items' : list Item.t) :
  consumed ids items items' -> consumed (id :: ids) items items'.
Proof.
  induction 1 as [|i i' items items' H _ IH]; constructor; [|exact IH].
  destruct H as [H | [H I]]; [now left | right].
  split; [exact H | now right].
Qed.

Lemma consumed_refl (ids : list N) (items : list Item.t) :
  consumed ids items items.
Proof. induction items; constructor; [now left | assumption]. Qed.

(** Taking an id that has not been taken yet finds the same item as in
    the untouched list. *)
Lemma take_by_id_consumed (id : N) (ids : list N)
    (items items' : list Item.t) :
  consumed ids items items' ->
  ~ In id ids ->
  match take_by_id id items' with
  | Some (found, rest) =>
      find_item id items = Some found /\ consumed (id :: ids) items rest
  | None => find_item id items = None
  end.
Proof.
  intros C N.
  induction C as [|i i' items items' H C IH]; cbn [take_by_id find_item].
  - reflexivity.
  - destruct H as [-> | [-> I]].
    + destruct (N.eqb (item_id i) id) eqn:E.
      * split; [reflexivity|]. constructor.
        -- right. split; [reflexivity|]. left. symmetry.
           now apply N.eqb_eq.
        -- now apply consumed_more.
      * destruct (take_by_id id items') as [[found rest]|].
        -- destruct IH as [F R]. split; [exact F|].
           constructor; [now left | exact R].
        -- exact IH.
    + change (item_id (Item.moved_from i)) with (item_id i).
      assert (E : N.eqb (item_id i) id = false).
      { apply N.eqb_neq. intro X. rewrite X in I. contradiction. }
      rewrite E.
      destruct (take_by_id id items') as [[found rest]|].
      * destruct IH as [F R]. split; [exact F|].
        constructor; [|exact R].
        right. split; [reflexivity | now right].
      * exact IH.
Qed.

Lemma reconcile_consumed (elements : list Element.t) (ids : list N)
    (items items' result : list Item.t) :
  NoDup (map Element.id elements) ->
  (forall e, In e elements -> ~ In (Element.id e) ids) ->
  consumed ids items items' ->
  reconcile elements items' result
  = result ++ map (reconciled items) elements.
Proof.
  revert ids items' result.
  induction elements as [|e elements IH]; intros ids items' result D F C;
    cbn [reconcile map].
  - now rewrite app_nil_r.
  - cbn [map] in D. apply NoDup_cons_iff in D. destruct D as [De D].
    pose proof (take_by_id_consumed (Element.id e) ids items items' C
                  (F e (or_introl eq_refl))) as T.
    unfold reconciled at 1.
    destruct (take_by_id (Element.id e) items') as [[found rest]|].
    + destruct T as [-> R].
      rewrite (IH (Element.id e :: ids) rest); [|exact D| |exact R].
      * now rewrite <- app_assoc.
      * intros e' I [E | E].
        -- apply De. rewrite E. now apply in_map.
        -- apply (F e' (or_intror I) E).
    + rewrite T.
      rewrite (IH ids items'); [|exact D| |exact C].
      * now rewrite <- app_assoc.
      * intros e' I. apply F. now right.
Qed.

(** X20: a content that differs from the stored one, has elements and
    has distinct ids gives every element the previous item with its id,
    merged with the element, or a fresh item when there was none. *)
Lemma showContent_reconciles (st : style.DialogsStoriesList)
    (c : Content.t) (w : Widget) :
  Content.eqb (_content w) c = false ->
  Content.elements c <> [] ->
  NoDup (map Element.id (Content.elements c)) ->
  exists w',
    after (showContent st c w) = Some w'
    /\ Data.items (_data w')
       = map (reconciled (Data.items (_data w))) (Content.elements c).
Proof.
  intros E N D.
  destruct (showContent_applied st c w E N) as (ev & w' & R & _ & I).
  exists w'. rewrite R, I. split; [reflexivity|].
  apply (reconcile_consumed _ [] (Data.items (_data w))
           (Data.items (_data w)) []); auto using consumed_refl.
Qed.

(** *** The cache *)

(** [merge] resets the subscription exactly when the thumbnail changed
    and the name image exactly when the name changed. *)
Lemma merge_cache (item : Item.t) (element : Element.t) :
  (Element.thumbnail (Item.element item) = Element.thumbnail element ->
   Item.subscribed (merge item element) = Item.subscribed item)
  /\ (Element.thumbnail (Item.element item) <> Element.thumbnail element ->
      Item.subscribed (merge item element) = false)
  /\ (Element.name (Item.element item) = Element.name element ->
      Item.nameCache (merge item element) = Item.nameCache item)
  /\ (Element.name (Item.element item) <> Element.name element ->
      Item.nameCache (merge item element) = None)
  /\ Item.nameCacheColor (merge item element) = Item.nameCacheColor item.
Proof.
  unfold merge.
  destruct (Element.thumbnail_eqb (Element.thumbnail (Item.element item))
              (Element.thumbnail element)) eqn:T;
    [apply thumbnail_eqb_eq in T
    |assert (T' : Element.thumbnail (Item.element item)
                  <> Element.thumbnail element)
       by (intro T'; apply thumbnail_eqb_eq in T'; congruence)];
    cbn [negb].
  all: match goal with
       | |- context [String.eqb ?a ?b] =>
           destruct (String.eqb_spec a b) as [S | S]
       end; cbn [negb Item.subscribed Item.nameCache Item.nameCacheColor
                 Item.set_element Item.set_subscribed Item.set_nameCache
                 Item.element Element.name Element.set_thumbnail] in *.
  all: repeat split; intros; try reflexivity; try contradiction;
    try congruence.
Qed.

(** C5: from the items [A, B, C], a content [A, C] with the same ids,
    thumbnails and names keeps the subscription, the name image and its
    colour of [A] and of [C] and drops only [B]; in general the
    subscription is reset only when the thumbnail changed and the name
    image only when the name changed. *)
Theorem reconciliation_preserves_cache (st : style.DialogsStoriesList)
    (w : Widget) (A B C : Item.t) (eA eC : Element.t) :
  Data.items (_data w) = [A; B; C] ->
  map Element.id (Content.elements (_content w))
  = map item_id (Data.items (_data w)) ->
  item_id A <> item_id B ->
  item_id A <> item_id C ->
  item_id B <> item_id C ->
  Element.id eA = item_id A ->
  Element.thumbnail eA = Element.thumbnail (Item.element A) ->
  Element.name eA = Element.name (Item.element A) ->
  Element.id eC = item_id C ->
  Element.thumbnail eC = Element.thumbnail (Item.element C) ->
  Element.name eC = Element.name (Item.element C) ->
  (exists w' A' C',
     after (showContent st (Content.mk [eA; eC]) w) = Some w'
     /\ Data.items (_data w') = [A'; C']
     /\ (item_id A' = item_id A
         /\ Item.subscribed A' = Item.subscribed A
         /\ Item.nameCache A' = Item.nameCache A
         /\ Item.nameCacheColor A' = Item.nameCacheColor A)
     /\ (item_id C' = item_id C
         /\ Item.subscribed C' = Item.subscribed C
         /\ Item.nameCache C' = Item.nameCache C
         /\ Item.nameCacheColor C' = Item.nameCacheColor C))
  /\ (forall item element,
        (Item.subscribed (merge item element) <> Item.subscribed item ->
         Element.thumbnail (Item.element item)
         <> Element.thumbnail element)
        /\ (Item.nameCache (merge item element) <> Item.nameCache item ->
            Element.name (Item.element item) <> Element.name element)).
Proof.
  intros I Ids AB AC BC IA TA NA IC TC NC. split.
  - assert (E : Content.eqb (_content w) (Content.mk [eA; eC]) = false).
    { destruct (Content.eqb _ _) eqn:E; [|reflexivity].
      apply Content_eqb_eq in E. rewrite E, I in Ids. discriminate Ids. }
    destruct (showContent_applied st _ w E) as (ev & w' & R & _ & D);
      [discriminate|].
    exists w', (merge A eA), (merge C eC).
    rewrite R. split; [reflexivity|].
    split.
    + rewrite D, I. cbn [Content.elements reconcile take_by_id].
      rewrite IA, N.eqb_refl. cbn [take_by_id app].
      replace (item_id (Item.moved_from A)) with (item_id A)
        by reflexivity.
      rewrite IC.
      apply N.eqb_neq in AC, BC. rewrite AC, BC, N.eqb_refl.
      reflexivity.
    + destruct (merge_cache A eA) as (SA & _ & CA & _ & KA).
      destruct (merge_cache C eC) as (SC & _ & CC & _ & KC).
      rewrite !merge_id.
      repeat split; auto.
  - intros item element.
    destruct (merge_cache item element) as (S & _ & N & _).
    split; intros D T; apply D; auto.
Qed.

(** The sequence a content, no content, the same content. *)
Lemma showContent_forgets (st : style.DialogsStoriesList) (w : Widget)
    (S : Content.t) :
  Content.elements S <> [] ->
  exists w',
    after (bind (showContent st S)
             (fun _ => bind (showContent st (Content.mk []))
                         (fun _ => showContent st S)) w)
    = Some w'
    /\ _content w' = S
    /\ Data.items (_data w') = []
    /\ _empty w' = true.
Proof.
  intro N.
  assert (First : exists ev w1,
            showContent st S w = mkRun ev (Returned tt w1)
            /\ _content w1 = S).
  { destruct (Content.eqb (_content w) S) eqn:E.
    - exists [], w. split; [now apply showContent_same|].
      now apply Content_eqb_eq.
    - destruct (showContent_applied st S w E N) as (ev & w1 & R & C & _).
      now exists ev, w1. }
  destruct First as (ev & w1 & R1 & C1).
  assert (E2 : Content.eqb (_content w1) (Content.mk []) = false).
  { rewrite C1. destruct (Content.eqb _ _) eqn:E; [|reflexivity].
    apply Content_eqb_eq in E. rewrite E in N. exfalso. now apply N. }
  pose proof (showContent_empty st (Content.mk []) w1 E2 eq_refl) as R2.
  set (w2 := set_empty true (set_data (Data.mk []) w1)) in R2.
  assert (R3 : showContent st S w2 = mkRun [] (Returned tt w2)).
  { apply showContent_same. change (_content w2) with (_content w1).
    rewrite C1. apply Content_eqb_refl. }
  exists w2.
  rewrite (bind_returned _ _ w w1 tt ev R1).
  rewrite (bind_returned _ _ w1 w2 tt [] R2), R3.
  repeat split. exact C1.
Qed.

(** C4 fails on the sequence: three stories are shown, then no content,
    then the same three stories; the last call is taken for a repetition
    of the stored content and the widget stays without items. *)
Theorem showContent_same_after_empty :
  exists w',
    after (bind (showContent Sample.st (Sample.content 3))
             (fun _ => bind (showContent Sample.st (Content.mk []))
                         (fun _ =>
                            showContent Sample.st (Sample.content 3)))
             initial)
    = Some w'
    /\ _content w' = Sample.content 3
    /\ Data.items (_data w') = []
    /\ map item_id (Data.items (_data w'))
       <> map Element.id (Content.elements (Sample.content 3)).
Proof.
  destruct (showContent_forgets Sample.st initial (Sample.content 3))
    as (w' & A & C & D & _); [discriminate|].
  exists w'. rewrite D. repeat split; auto. discriminate.
Qed.

(** ** Scroll offset *)

Section Keeps.

Context {X : Type} (f : Widget -> X).

Lemma keeps_ret {A} (a : A) : keeps f (ret a).
Proof. intro w. reflexivity. Qed.

Lemma keeps_get : keeps f get.
Proof. intro w. reflexivity. Qed.

Lemma keeps_fire (e : Event) : keeps f (fire e).
Proof. intro w. reflexivity. Qed.

Lemma keeps_fail {A} (e : Failure) : keeps f (@fail A e).
Proof. intro w. exact I. Qed.

Lemma keeps_modify (g : Widget -> Widget) :
  (forall w, f (g w) = f w) -> keeps f (modify g).
Proof. intros G w. apply G. Qed.

Lemma keeps_bind {A B} (m : M A) (k : A -> M B) :
  keeps f m -> (forall a, keeps f (k a)) -> keeps f (bind m k).
Proof.
  intros Hm Hk w. specialize (Hm w). unfold bind.
  destruct (outcome (m w)) as [a w1|]; cbn [outcome]; [|exact I].
  specialize (Hk a w1).
  destruct (outcome (k a w1)); [congruence | exact I].
Qed.

End Keeps.

Create HintDb keeps discriminated.
#[global] Hint Constants Opaque : keeps.
#[global] Hint Variables Opaque : keeps.

(** Walks through a computation along its syntax. *)
Ltac keeping :=
  repeat lazymatch goal with
  | |- keeps _ (bind _ _) => apply keeps_bind; [|intro]
  | |- keeps _ (ret _) => apply keeps_ret
  | |- keeps _ get => apply keeps_get
  | |- keeps _ (fire _) => apply keeps_fire
  | |- keeps _ (fail _) => apply keeps_fail
  | |- keeps _ (modify _) => apply keeps_modify; intro; reflexivity
  | |- keeps _ (if ?c then _ else _) => destruct c
  | |- keeps _ (match ?s with _ => _ end) => destruct s
  | |- keeps ?f (let x := ?v in @?b x) => change (keeps f (b v)); cbv beta
  | |- keeps _ _ => solve [auto with keeps]
  end.

Section ScrollKept.

Variable st : style.DialogsStoriesList.
Variable origin : QPoint.t.

Lemma checkLoadMore_scroll : keeps scroll checkLoadMore.
Proof. unfold checkLoadMore. keeping. Qed.

Lemma requestExpanded_scroll b : keeps scroll (requestExpanded b).
Proof. unfold requestExpanded. keeping. Qed.

Hint Resolve checkLoadMore_scroll requestExpanded_scroll : keeps.

Lemma updateExpanding_scroll h H : keeps scroll (updateExpanding h H).
Proof. unfold updateExpanding. keeping. Qed.

Hint Resolve updateExpanding_scroll : keeps.

Lemma computeLayoutCurrent_scroll : keeps scroll (computeLayoutCurrent st).
Proof. unfold computeLayoutCurrent. keeping. Qed.

Hint Resolve computeLayoutCurrent_scroll : keeps.

Lemma updateSelected_scroll : keeps scroll (updateSelected st origin).
Proof. unfold updateSelected. keeping. Qed.

Hint Resolve updateSelected_scroll : keeps.

Lemma mousePressEvent_scroll e : keeps scroll (mousePressEvent st origin e).
Proof. unfold mousePressEvent. keeping. Qed.

End ScrollKept.

#[export] Hint Resolve checkLoadMore_scroll requestExpanded_scroll
  updateExpanding_scroll computeLayoutCurrent_scroll updateSelected_scroll
  mousePressEvent_scroll : keeps.

(** *** Hoare rules *)

Lemma hoare_ret {A} (P : Widget -> Prop) (Q : A -> Widget -> Prop) (a : A) :
  (forall w, P w -> Q a w) -> hoare P (ret a) Q.
Proof. intros H w Pw. now apply H. Qed.

Lemma hoare_fire (P : Widget -> Prop) (Q : unit -> Widget -> Prop)
    (e : Event) :
  (forall w, P w -> Q tt w) -> hoare P (fire e) Q.
Proof. intros H w Pw. now apply H. Qed.

Lemma hoare_fail {A} (P : Widget -> Prop) (Q : A -> Widget -> Prop)
    (e : Failure) :
  hoare P (fail e) Q.
Proof. intros w Pw. exact I. Qed.

Lemma hoare_modify (P : Widget -> Prop) (Q : unit -> Widget -> Prop)
    (g : Widget -> Widget) :
  (forall w, P w -> Q tt (g w)) -> hoare P (modify g) Q.
Proof. intros H w Pw. now apply H. Qed.

Lemma hoare_bind {A B} (P : Widget -> Prop) (R : A -> Widget -> Prop)
    (Q : B -> Widget -> Prop) (m : M A) (k : A -> M B) :
  hoare P m R -> (forall a, hoare (R a) (k a) Q) -> hoare P (bind m k) Q.
Proof.
  intros Hm Hk w Pw. specialize (Hm w Pw). unfold bind.
  destruct (outcome (m w)) as [a w1|]; cbn [outcome]; [|exact I].
  exact (Hk a w1 Hm).
Qed.

(** After [get] the widget read is the current one. *)
Lemma hoare_bind_get {B} (P : Widget -> Prop) (Q : B -> Widget -> Prop)
    (k : Widget -> M B) :
  (forall w0, hoare (fun w => P w /\ w = w0) (k w0) Q) ->
  hoare P (bind get k) Q.
Proof.
  intros H w Pw. rewrite bind_get. apply (H w w). now split.
Qed.

Lemma hoare_weaken {A} (P P' : Widget -> Prop) (Q : A -> Widget -> Prop)
    (m : M A) :
  (forall w, P w -> P' w) -> hoare P' m Q -> hoare P m Q.
Proof. intros I H w Pw. apply H. now apply I. Qed.

Lemma hoare_keeps {X A} (f : Widget -> X) (P : Widget -> Prop) (m : M A) :
  keeps f m ->
  (forall w w', f w' = f w -> P w -> P w') ->
  hoare P m (fun _ => P).
Proof.
  intros K F w Pw. specialize (K w).
  destruct (outcome (m w)); [|exact I]. now apply (F w).
Qed.

(** *** The scroll invariants *)

Lemma clamp_within (v lo hi : Z) : lo <= hi -> lo <= clamp v lo hi <= hi.
Proof.
  intro H. unfold clamp.
  destruct (v <? lo) eqn:A; [lia|]. apply Z.ltb_ge in A.
  destruct (hi <? v) eqn:B; [lia|]. apply Z.ltb_ge in B. lia.
Qed.

Lemma checkLoadMore_returns (w : Widget) :
  outcome (checkLoadMore w) = Returned tt w.
Proof.
  unfold checkLoadMore. rewrite bind_get.
  destruct (_ <? _); reflexivity.
Qed.

(** [updateScrollMax] recomputes the maximum as the bound of the row and
    clamps the offset, from whatever widget. *)
Lemma updateScrollMax_establishes (st : style.DialogsStoriesList)
    (w : Widget) :
  exists w',
    outcome (updateScrollMax st w) = Returned tt w'
    /\ ScrollStored w'
    /\ _scrollLeftMax w' = scrollBound st w'
    /\ _data w' = _data w
    /\ geometry w' = geometry w.
Proof.
  unfold updateScrollMax. rewrite bind_get, !bind_modify.
  rewrite checkLoadMore_returns.
  eexists. split; [reflexivity|].
  unfold ScrollStored, scrollBound, items_size, width.
  cbn [set_scrollLeft set_scrollLeftMax _scrollLeft _scrollLeftMax _data
       geometry].
  repeat split; try apply clamp_within; apply Z.le_max_r.
Qed.

Lemma hoare_true {A} (P : Widget -> Prop) (m : M A) :
  hoare P m (fun _ _ => True).
Proof. intros w _. now destruct (outcome (m w)). Qed.

Lemma updateScrollMax_recomputes (st : style.DialogsStoriesList)
    (P : Widget -> Prop) :
  hoare P (updateScrollMax st)
    (fun _ w => ScrollStored w /\ _scrollLeftMax w = scrollBound st w).
Proof.
  intros w _.
  destruct (updateScrollMax_establishes st w) as (w' & -> & S & B & _).
  now split.
Qed.

Section ScrollInvariant.

Variable st : style.DialogsStoriesList.
Variable RightToLeft : bool.
Variable startDragDistance : Z.
Variable origin : QPoint.t.

(** An invariant [Inv] about the scroll offset that depends on [scroll]
    only, admits clamped offsets and is restored by [setGeometry]. *)
Variable Inv : Widget -> Prop.
Hypothesis Inv_frame : forall w w', scroll w' = scroll w -> Inv w -> Inv w'.
Hypothesis Inv_clamp :
  forall w v, Inv w -> Inv (set_scrollLeft (clamp v 0 (_scrollLeftMax w)) w).
Hypothesis Inv_setGeometry : forall r, upholds Inv (setGeometry st r).

Lemma inv_keeps {A} (m : M A) : keeps scroll m -> upholds Inv m.
Proof. intro K. apply (hoare_keeps scroll); assumption. Qed.

Lemma inv_bind {A B} (m : M A) (k : A -> M B) :
  upholds Inv m -> (forall a, upholds Inv (k a)) -> upholds Inv (bind m k).
Proof. intros Hm Hk. apply (hoare_bind _ (fun _ => Inv)); assumption. Qed.

Lemma inv_modify (g : Widget -> Widget) :
  (forall w, scroll (g w) = scroll w) -> upholds Inv (modify g).
Proof.
  intro G. apply hoare_modify. intros w Iw. now apply (Inv_frame w).
Qed.

Ltac invariant :=
  repeat lazymatch goal with
  | H : upholds Inv ?m |- upholds Inv ?m => exact H
  | |- upholds Inv (setGeometry _ _) => apply Inv_setGeometry
  | |- upholds Inv (bind _ _) => apply inv_bind; [|intro]
  | |- upholds Inv (modify _) => apply inv_modify; intro; reflexivity
  | |- upholds Inv (if ?c then _ else _) => destruct c
  | |- upholds Inv (match ?s with _ => _ end) => destruct s
  | |- upholds Inv (let x := ?v in @?b x) =>
      change (upholds Inv (b v)); cbv beta
  | |- upholds Inv _ => apply inv_keeps; solve [keeping]
  end.

Lemma updateGeometry_inv : upholds Inv (updateGeometry st).
Proof. unfold updateGeometry. invariant. Qed.

Lemma setState_inv s : upholds Inv (setState st s).
Proof.
  pose proof updateGeometry_inv. unfold setState. invariant.
Qed.

Lemma checkForFullState_inv : upholds Inv (checkForFullState st).
Proof.
  pose proof (setState_inv Full). unfold checkForFullState. invariant.
Qed.

Lemma setExpandedHeight_inv height momentum :
  upholds Inv (setExpandedHeight st height momentum).
Proof.
  pose proof checkForFullState_inv.
  unfold setExpandedHeight. invariant. apply setState_inv.
Qed.

Lemma setLayoutConstraints_inv p a r :
  upholds Inv (setLayoutConstraints st p a r).
Proof.
  pose proof updateGeometry_inv. unfold setLayoutConstraints. invariant.
Qed.

Lemma expandedAnimationTick_inv v : upholds Inv (expandedAnimationTick st v).
Proof.
  pose proof checkForFullState_inv. unfold expandedAnimationTick.
  invariant.
Qed.

Lemma expandCatchUpTick_inv v : upholds Inv (expandCatchUpTick st v).
Proof.
  pose proof checkForFullState_inv. unfold expandCatchUpTick. invariant.
Qed.

Lemma checkDragging_inv : upholds Inv (checkDragging RightToLeft).
Proof.
  unfold checkDragging, upholds. apply hoare_bind_get. intro w0.
  destruct (_dragging w0); [|apply hoare_ret; tauto].
  destruct (_mouseDownPosition w0); [|apply hoare_fail].
  match goal with |- hoare _ (if ?c then _ else _) _ => destruct c end;
    [|apply hoare_ret; tauto].
  apply (hoare_bind _ (fun _ => Inv)).
  - apply hoare_modify. intros w [Iw ->]. now apply Inv_clamp.
  - intros _. apply inv_keeps. keeping.
Qed.

Lemma wheelEvent_inv e : upholds Inv (wheelEvent st RightToLeft origin e).
Proof.
  unfold wheelEvent, upholds. apply hoare_bind_get. intro w0.
  match goal with |- hoare _ (if ?c then _ else _) _ => destruct c end;
    [apply hoare_ret; tauto|].
  apply (hoare_bind _ (fun _ => Inv)); [|intros _; apply hoare_ret; auto].
  match goal with |- hoare _ (if ?c then _ else _) _ => destruct c end;
    [|apply hoare_ret; tauto].
  apply (hoare_bind _
           (fun _ w => Inv w /\ _scrollLeftMax w = _scrollLeftMax w0)).
  - intros w [Iw ->]. pose proof (requestExpanded_scroll true w0) as K.
    destruct (outcome (requestExpanded true w0)) as [a w1|]; [|exact I].
    split; [now apply (Inv_frame w0)|].
    unfold scroll in K. congruence.
  - intros _. apply (hoare_bind _ (fun _ => Inv)).
    + apply hoare_modify. intros w [Iw <-]. now apply Inv_clamp.
    + intros _. apply inv_keeps. keeping.
Qed.

Lemma mousePressEvent_inv e : upholds Inv (mousePressEvent st origin e).
Proof. apply inv_keeps. auto with keeps. Qed.

Lemma mouseMoveEvent_inv e :
  upholds Inv (mouseMoveEvent st RightToLeft startDragDistance origin e).
Proof.
  pose proof checkDragging_inv. unfold mouseMoveEvent. invariant.
Qed.

Lemma finishDragging_inv : upholds Inv (finishDragging st RightToLeft origin).
Proof.
  pose proof checkDragging_inv. unfold finishDragging. invariant.
Qed.

Lemma mouseReleaseEvent_inv e :
  upholds Inv (mouseReleaseEvent st RightToLeft origin e).
Proof.
  pose proof finishDragging_inv. unfold mouseReleaseEvent. invariant.
Qed.

End ScrollInvariant.

(** *** Both invariants *)

Section ScrollInstances.

Variable st : style.DialogsStoriesList.

Lemma ScrollStored_frame (w w' : Widget) :
  scroll w' = scroll w -> ScrollStored w -> ScrollStored w'.
Proof.
  unfold scroll, ScrollStored. intro E. injection E as -> -> _ _. auto.
Qed.

Lemma ScrollStored_clamp (w : Widget) (v : Z) :
  ScrollStored w ->
  ScrollStored (set_scrollLeft (clamp v 0 (_scrollLeftMax w)) w).
Proof.
  unfold ScrollStored. cbn [set_scrollLeft _scrollLeft _scrollLeftMax].
  intro H. apply clamp_within. lia.
Qed.

Lemma ScrollStored_setGeometry (r : QRect.t) :
  upholds ScrollStored (setGeometry st r).
Proof.
  unfold setGeometry, resizeEvent, upholds. apply hoare_bind_get. intro w0.
  apply (hoare_bind _ (fun _ => ScrollStored)).
  - apply hoare_modify. intros w [H _]. exact H.
  - intros _. destruct (negb _); [|apply hoare_ret; auto].
    intros w _.
    destruct (updateScrollMax_establishes st w) as (w' & -> & S & _).
    exact S.
Qed.

Lemma ScrollBounded_frame (w w' : Widget) :
  scroll w' = scroll w -> ScrollBounded st w -> ScrollBounded st w'.
Proof.
  unfold scroll, ScrollBounded, ScrollStored, scrollBound, items_size,
    width.
  intro E. injection E as -> -> -> ->. auto.
Qed.

Lemma ScrollBounded_clamp (w : Widget) (v : Z) :
  ScrollBounded st w ->
  ScrollBounded st (set_scrollLeft (clamp v 0 (_scrollLeftMax w)) w).
Proof.
  intros [S B]. split; [now apply ScrollStored_clamp | exact B].
Qed.

Lemma ScrollBounded_setGeometry (r : QRect.t) :
  upholds (ScrollBounded st) (setGeometry st r).
Proof.
  unfold setGeometry, resizeEvent, upholds. apply hoare_bind_get. intro w0.
  destruct (QRect.same_size (geometry w0) r) eqn:Same; cbn [negb].
  - intros w [[S B] ->]. rewrite bind_modify. cbn [ret outcome].
    split; [exact S|].
    unfold scrollBound, items_size, width in *.
    cbn [set_geometry _scrollLeftMax _data geometry].
    unfold QRect.same_size in Same.
    apply andb_true_iff in Same. destruct Same as [Same _].
    apply Z.eqb_eq in Same. now rewrite <- Same.
  - intros w _. rewrite bind_modify.
    destruct (updateScrollMax_establishes st (set_geometry r w))
      as (w' & -> & S & B & _).
    split; [exact S | lia].
Qed.

(** A content keeps the offset within the stored maximum; unless it is
    empty, it keeps the stored maximum within the bound of the row. *)
Lemma showContent_stored (c : Content.t) :
  upholds ScrollStored (showContent st c).
Proof.
  unfold showContent, upholds. apply hoare_bind_get. intro w0.
  destruct (Content.eqb (_content w0) c); [apply hoare_ret; tauto|].
  destruct (Content.elements c).
  - apply (hoare_bind _ (fun _ => ScrollStored));
      [|intros _]; apply hoare_modify; tauto.
  - do 4 (apply (hoare_bind _ (fun _ _ => True));
          [apply hoare_true | intro]).
    apply (hoare_bind _ (fun _ => ScrollStored)).
    + intros w _.
      destruct (updateScrollMax_establishes st w) as (w' & -> & S & _).
      exact S.
    + intros _. destruct (_ =? _); [apply hoare_modify | apply hoare_ret];
        auto.
Qed.

Lemma showContent_bounded (c : Content.t) :
  Content.elements c <> [] ->
  upholds (ScrollBounded st) (showContent st c).
Proof.
  intro N. unfold showContent, upholds. apply hoare_bind_get. intro w0.
  destruct (Content.eqb (_content w0) c); [apply hoare_ret; tauto|].
  destruct (Content.elements c); [contradiction|].
  do 4 (apply (hoare_bind _ (fun _ _ => True));
        [apply hoare_true | intro]).
  apply (hoare_bind _ (fun _ => ScrollBounded st)).
  - intros w _.
    destruct (updateScrollMax_establishes st w) as (w' & -> & S & B & _).
    split; [exact S | lia].
  - intros _. destruct (_ =? _); [apply hoare_modify | apply hoare_ret];
      auto.
Qed.

Variable RightToLeft : bool.
Variable startDragDistance : Z.
Variable origin : QPoint.t.

(** Every input keeps the offset within the stored maximum. *)
Lemma handle_stored (i : Input) :
  upholds ScrollStored (handle st RightToLeft startDragDistance origin i).
Proof.
  pose proof ScrollStored_frame as F.
  pose proof ScrollStored_clamp as C.
  pose proof ScrollStored_setGeometry as G.
  destruct i; cbn [handle].
  - apply (hoare_bind _ (fun _ => ScrollStored));
      [now apply wheelEvent_inv | intro; apply hoare_ret; auto].
  - now apply mousePressEvent_inv.
  - now apply mouseMoveEvent_inv.
  - now apply mouseReleaseEvent_inv.
  - apply G.
  - apply showContent_stored.
  - now apply setExpandedHeight_inv.
  - now apply setLayoutConstraints_inv.
  - apply hoare_fire. auto.
  - now apply expandedAnimationTick_inv.
  - now apply expandCatchUpTick_inv.
Qed.

(** Every input but an empty content keeps the stored maximum within the
    bound of the row. *)
Lemma handle_bounded (i : Input) :
  keepsContent i ->
  upholds (ScrollBounded st)
    (handle st RightToLeft startDragDistance origin i).
Proof.
  pose proof ScrollBounded_frame as F.
  pose proof ScrollBounded_clamp as C.
  pose proof ScrollBounded_setGeometry as G.
  destruct i; cbn [handle keepsContent]; intro K.
  - apply (hoare_bind _ (fun _ => ScrollBounded st));
      [now apply wheelEvent_inv | intro; apply hoare_ret; auto].
  - now apply mousePressEvent_inv.
  - now apply mouseMoveEvent_inv.
  - now apply mouseReleaseEvent_inv.
  - apply G.
  - now apply showContent_bounded.
  - now apply setExpandedHeight_inv.
  - now apply setLayoutConstraints_inv.
  - apply hoare_fire. auto.
  - now apply expandedAnimationTick_inv.
  - now apply expandCatchUpTick_inv.
Qed.

Lemma handleAll_bounded (inputs : list Input) :
  Forall keepsContent inputs ->
  upholds (ScrollBounded st)
    (handleAll st RightToLeft startDragDistance origin inputs).
Proof.
  induction 1 as [|i inputs K _ IH]; cbn [handleAll].
  - apply hoare_ret. auto.
  - apply (hoare_bind _ (fun _ => ScrollBounded st)).
    + now apply handle_bounded.
    + intro. exact IH.
Qed.

(** As long as no content is empty, the scroll offset is within
    [[0, max(0, fullWidth - width)]] after any sequence of inputs to the
    new widget. *)
Lemma scroll_within_unless_emptied (inputs : list Input) (w : Widget) :
  Forall keepsContent inputs ->
  after (handleAll st RightToLeft startDragDistance origin inputs initial)
  = Some w ->
  ScrollWithin st w.
Proof.
  intros K A.
  assert (I0 : ScrollBounded st initial).
  { unfold ScrollBounded, ScrollStored, scrollBound. cbn.
    repeat split; lia. }
  pose proof (handleAll_bounded inputs K initial I0) as H.
  unfold after in A.
  destruct (outcome _) as [a w'|]; [|discriminate].
  injection A as ->. destruct H as [[S0 S1] B].
  unfold ScrollWithin. lia.
Qed.

End ScrollInstances.

(** C6 fails after a content without elements.  Ten stories scrolled by
    150 keep the offset within the bound 324; once the content is emptied
    the bound for no items is 0, while the offset and the stored maximum
    are still 150 and 324.  Resize events and contents alone leave the
    maximum stale as well: 555 for ten stories stays when they are gone. *)
Theorem scroll_offset_after_empty_content :
  (exists w1 w2,
     after (Sample.run Sample.st Sample.scrolling initial) = Some w1
     /\ ScrollWithin Sample.st w1
     /\ _scrollLeftMax w1 = scrollBound Sample.st w1
     /\ after (Sample.run Sample.st [Show (Content.mk [])] w1) = Some w2
     /\ items_size w2 = 0
     /\ scrollBound Sample.st w2 = 0
     /\ _scrollLeft w2 = 150
     /\ _scrollLeftMax w2 = 324
     /\ ~ ScrollWithin Sample.st w2)
  /\ (exists w1 w2,
        after (Sample.run Sample.st
                 [Resize (QRect.make 0 0 300 77); Show (Sample.content 10)]
                 initial)
        = Some w1
        /\ _scrollLeftMax w1 = 555
        /\ scrollBound Sample.st w1 = 555
        /\ after (Sample.run Sample.st [Show (Content.mk [])] w1) = Some w2
        /\ items_size w2 = 0
        /\ _scrollLeftMax w2 = 555
        /\ scrollBound Sample.st w2 = 0).
Proof.
  split.
  - eexists. eexists.
    split; [vm_compute; reflexivity|].
    split; [vm_compute; split; discriminate|].
    split; [reflexivity|].
    split; [vm_compute; reflexivity|].
    repeat (split; [reflexivity|]).
    intros [_ H]. vm_compute in H. apply H. reflexivity.
  - eexists. eexists.
    split; [vm_compute; reflexivity|].
    split; [reflexivity|]. split; [reflexivity|].
    split; [vm_compute; reflexivity|].
    repeat split.
Qed.

(** ** Hit-testing *)

(** [updateSelected] stores what [hit] gives for the current layout. *)
Lemma updateSelected_run (st : style.DialogsStoriesList)
    (origin : QPoint.t) (w w1 : Widget) (ev : list Event)
    (layout : Layout.t) :
  _pressed w < 0 ->
  computeLayoutCurrent st w = mkRun ev (Returned layout w1) ->
  updateSelected st origin w
  = match hit st layout
            (QPoint.x (mapFromGlobal origin w (_lastMousePosition w))) with
    | Some selected => mkRun ev (Returned tt (select selected w1))
    | None => mkRun ev (Stopped NonFiniteFloat)
    end.
Proof.
  intros P L. unfold updateSelected. rewrite bind_get.
  replace (0 <=? _pressed w) with false by (symmetry; now apply Z.leb_gt).
  rewrite (bind_returned _ _ _ _ _ _ L).
  unfold hit, infiniteIndex, secondLeft, firstRight, hitLerp,
    secondLeftSmall, firstRightSmall, firstRightFull.
  destruct (Float64.ltb _ _).
  - rewrite bind_ret, bind_get. cbn [option_map].
    unfold selectedFor, indexFor, onLastPart, beyondWindow, startIndex,
      endIndex, activateFull, lastRightAdd, firstRight, hitLerp,
      firstRightSmall, firstRightFull, select.
    destruct (_selected w1 =? _) eqn:S; cbn [ret fired outcome];
      rewrite ?app_nil_r; [reflexivity|].
    destruct (negb _); rewrite ?bind_modify; cbn [modify fired outcome];
      rewrite ?app_nil_r; reflexivity.
  - destruct (Float64.div _ _) as [q|].
    + rewrite bind_ret, bind_get. cbn [option_map].
      unfold selectedFor, indexFor, onLastPart, beyondWindow, startIndex,
        endIndex, activateFull, lastRightAdd, firstRight, hitLerp,
        firstRightSmall, firstRightFull, select.
      destruct (_selected w1 =? _) eqn:S; cbn [ret fired outcome];
        rewrite ?app_nil_r; [reflexivity|].
      destruct (negb _); rewrite ?bind_modify; cbn [modify fired outcome];
        rewrite ?app_nil_r; reflexivity.
    + unfold bind at 1. cbn [fail fired outcome option_map].
      now rewrite app_nil_r.
Qed.

(** Beyond the last visible slot nothing is selected, unless the trailing
    region is clickable: then the item [startIndex + endIndex - 1] is
    selected if there is one.  That is the last visible item
    [endIndex - 1] only for a window that starts at 0. *)
Lemma hit_beyond_window (st : style.DialogsStoriesList)
    (layout : Layout.t) (pointer candidate : Z) :
  infiniteIndex st layout pointer = Some candidate ->
  endIndex layout <> startIndex layout ->
  onLastPart st layout pointer candidate = false ->
  beyondWindow layout candidate = true ->
  hit st layout pointer
  = Some (if style.fullClickable st
          then if (endIndex layout - 1 <? 0)
                  || (Layout.itemsCount layout
                      <=? startIndex layout + (endIndex layout - 1))
               then -1
               else startIndex layout + (endIndex layout - 1)
          else -1).
Proof.
  intros I N L B. unfold hit. rewrite I. cbn [option_map].
  unfold selectedFor, indexFor. rewrite L, B.
  apply Z.eqb_neq in N. rewrite N.
  destruct (style.fullClickable st); reflexivity.
Qed.

Lemma select_selected (selected : Z) (w : Widget) :
  _selected (select selected w) = selected.
Proof.
  unfold select. destruct (_selected w =? selected) eqn:E.
  - now apply Z.eqb_eq.
  - reflexivity.
Qed.

(** [select] changes the selection and the cursor only. *)
Lemma select_shape (selected : Z) (w : Widget) :
  exists c, select selected w = set_selected selected (set_cursor c w).
Proof.
  unfold select. destruct (_selected w =? selected) eqn:E.
  - apply Z.eqb_eq in E. subst selected. exists (cursor w).
    now destruct w.
  - destruct (negb _).
    + eexists. reflexivity.
    + exists (cursor w). now destruct w.
Qed.

(** At the window start 0 the trailing region selects the last visible
    item; without a clickable trailing region it selects nothing. *)
Lemma hit_beyond_window_cases (st : style.DialogsStoriesList)
    (layout : Layout.t) (pointer candidate : Z) :
  infiniteIndex st layout pointer = Some candidate ->
  endIndex layout <> startIndex layout ->
  onLastPart st layout pointer candidate = false ->
  beyondWindow layout candidate = true ->
  (style.fullClickable st = false -> hit st layout pointer = Some (-1))
  /\ (style.fullClickable st = true ->
      startIndex layout = 0 ->
      0 < endIndex layout <= Layout.itemsCount layout ->
      hit st layout pointer = Some (endIndex layout - 1))
  /\ (style.fullClickable st = true ->
      0 < startIndex layout ->
      0 < endIndex layout ->
      hit st layout pointer <> Some (endIndex layout - 1)).
Proof.
  intros I N L B. rewrite (hit_beyond_window st layout _ _ I N L B).
  repeat split.
  - intros ->. reflexivity.
  - intros -> -> [P Q]. cbn [Z.add].
    replace (endIndex layout - 1 <? 0) with false by (symmetry; lia).
    replace (Layout.itemsCount layout <=? endIndex layout - 1)
      with false by (symmetry; lia).
    reflexivity.
  - intros -> S P.
    destruct ((endIndex layout - 1 <? 0) || _); intro H;
      injection H as H; lia.
Qed.

(** C8 fails with a visible window that does not start at 0: ten stories
    scrolled by 150 show the items 2 to 7; the pointer at 299 is in the
    slot 6 of the window, beyond the last visible one.  With the trailing
    region clickable the item 9 is selected instead of the last visible
    item 7.  Without it the same pointer selects nothing. *)
Theorem trailing_region_selects_beyond :
  exists w l,
    after (Sample.run Sample.stClickable (Sample.hovering 299) initial)
    = Some w
    /\ returned (computeLayoutCurrent Sample.stClickable w) = Some l
    /\ activateFull l = true
    /\ Layout.startIndexFull l = 2
    /\ Layout.endIndexFull l = 8
    /\ infiniteIndex Sample.stClickable l 299 = Some 6
    /\ onLastPart Sample.stClickable l 299 6 = false
    /\ beyondWindow l 6 = true
    /\ _selected w = 9
    /\ option_map _selected
         (after (Sample.run Sample.st (Sample.hovering 299) initial))
       = Some (-1).
Proof.
  eexists. eexists.
  split; [vm_compute; reflexivity|].
  split; [vm_compute; reflexivity|].
  repeat (split; [vm_compute; reflexivity|]).
  vm_compute. reflexivity.
Qed.

(** ** Taps *)

Lemma computeLayoutCurrent_idle (st : style.DialogsStoriesList)
    (w : Widget) :
  Idle st w ->
  computeLayoutCurrent st w = mkRun [] (Returned (layoutNow st w) w).
Proof.
  intros (C & ratio & R & E). unfold computeLayoutCurrent.
  rewrite bind_get. fold (reportedHeight w).
  assert (U : updateExpanding (reportedHeight w)
                (style.height (style.full st)) w
              = mkRun [] (Returned tt w)).
  { rewrite (updateExpanding_run _ _ w ratio C R).
    apply Float64Facts.eqb_eq in E. now rewrite E. }
  rewrite (bind_returned _ _ _ _ _ _ U), bind_get. reflexivity.
Qed.

(** [Idle] looks at the reported height and the stored ratio only. *)
Lemma Idle_frame (st : style.DialogsStoriesList) (w w' : Widget) :
  _lastExpandedHeight w' = _lastExpandedHeight w ->
  _expandCatchUpAnimation w' = _expandCatchUpAnimation w ->
  _lastRatio w' = _lastRatio w ->
  Idle st w -> Idle st w'.
Proof.
  unfold Idle, reportedHeight. intros -> -> ->. auto.
Qed.

Lemma Idle_expandedTo (st : style.DialogsStoriesList) (b : bool)
    (w : Widget) :
  Idle st w -> Idle st (expandedTo b w).
Proof.
  apply Idle_frame; unfold expandedTo; destruct (Bool.eqb _ _);
    reflexivity.
Qed.

Lemma Idle_pressedOn (st : style.DialogsStoriesList) (w : Widget) :
  Idle st w -> Idle st (pressedOn w).
Proof.
  unfold pressedOn. destruct (_state w); auto using Idle_expandedTo.
Qed.

(** Laying out and selecting with the pointer at [p], from an idle
    widget without a pressed item. *)
Lemma updateSelected_idle (st : style.DialogsStoriesList)
    (origin p : QPoint.t) (w : Widget) (k : Z) :
  Idle st w ->
  _pressed w < 0 ->
  hit st (layoutNow st w) (QPoint.x (mapFromGlobal origin w p)) = Some k ->
  updateSelected st origin (set_lastMousePosition p w)
  = mkRun [] (Returned tt (select k (set_lastMousePosition p w))).
Proof.
  intros I P H.
  rewrite (updateSelected_run st origin _ (set_lastMousePosition p w) []
             (layoutNow st w)).
  - change (QPoint.x (mapFromGlobal origin (set_lastMousePosition p w)
                        (_lastMousePosition (set_lastMousePosition p w))))
      with (QPoint.x (mapFromGlobal origin w p)).
    now rewrite H.
  - exact P.
  - apply (computeLayoutCurrent_idle st (set_lastMousePosition p w)).
    revert I. now apply Idle_frame.
Qed.

Lemma finishDragging_idle (st : style.DialogsStoriesList) (rtl : bool)
    (origin : QPoint.t) (w : Widget) :
  _dragging w = false ->
  finishDragging st rtl origin w = mkRun [] (Returned false w).
Proof.
  intro D. unfold finishDragging. now rewrite bind_get, D.
Qed.

(** What a left press at [p] leaves, from an idle widget that is not in
    transition: the item under the pointer is the pressed one. *)
Lemma mousePressEvent_idle (st : style.DialogsStoriesList)
    (origin p : QPoint.t) (w : Widget) (k : Z) :
  Idle st w ->
  _pressed w < 0 ->
  _state w <> Changing ->
  hit st (layoutNow st (pressedOn w)) (QPoint.x (mapFromGlobal origin w p))
  = Some k ->
  exists c,
    mousePressEvent st origin (leftButtonAt p) w
    = mkRun (match _state w with
             | Small => [toggleExpandedRequests true]
             | _ => []
             end)
        (Returned tt
           (set_pressed k
              (set_mouseDownPosition (Some p)
                 (set_selected k
                    (set_cursor c
                       (set_lastMousePosition p (pressedOn w))))))).
Proof.
  intros I P S H.
  assert (U := updateSelected_idle st origin p (pressedOn w) k).
  destruct (select_shape k (set_lastMousePosition p (pressedOn w)))
    as (c & Sh).
  exists c.
  unfold mousePressEvent. rewrite bind_get. cbn [button leftButtonAt].
  unfold pressedOn in *.
  destruct (_state w) eqn:St; [| contradiction | ]; cbn [State_eqb negb].
  - rewrite (bind_returned _ _ _ (expandedTo true w) true
               [toggleExpandedRequests true]).
    2:{ rewrite (bind_returned _ _ _ _ _ _ (requestExpanded_run true w)).
        reflexivity. }
    rewrite bind_modify.
    rewrite (bind_returned _ _ _ _ _ _
               (U (Idle_expandedTo st true w I) ltac:(
                    unfold expandedTo; destruct (Bool.eqb _ _); exact P)
                  ltac:(
                    unfold mapFromGlobal, x, y, expandedTo in *;
                    destruct (Bool.eqb _ _); exact H))).
    rewrite !bind_modify. cbn [modify fired outcome app globalPos].
    rewrite Sh. reflexivity.
  - rewrite bind_ret, bind_modify.
    rewrite (bind_returned _ _ _ _ _ _ (U I P H)).
    rewrite !bind_modify. cbn [modify fired outcome app globalPos].
    rewrite Sh. reflexivity.
Qed.

Lemma selected_below_size_item (w : Widget) (item : Item.t) :
  0 <= _selected w ->
  nth_error (Data.items (_data w)) (Z.to_nat (_selected w)) = Some item ->
  selected_below_size w = true.
Proof.
  intros P N. unfold selected_below_size, items_size.
  assert (L : (Z.to_nat (_selected w) < List.length (Data.items (_data w)))%nat).
  { apply nth_error_Some. congruence. }
  apply Z.ltb_lt.
  assert (_selected w mod 2 ^ 64 <= _selected w)
    by (apply Z.mod_le; lia).
  lia.
Qed.

(** What the release at [p] fires when the item under the pointer is the
    pressed one: the click of that item if the widget is expanded, and the
    expand request if it is not. *)
Lemma mouseReleaseEvent_idle (st : style.DialogsStoriesList) (rtl : bool)
    (origin p : QPoint.t) (w : Widget) (k : Z) (item : Item.t) :
  Idle st w ->
  _dragging w = false ->
  _pressed w = k ->
  0 <= k ->
  hit st (layoutNow st w) (QPoint.x (mapFromGlobal origin w p)) = Some k ->
  nth_error (Data.items (_data w)) (Z.to_nat k) = Some item ->
  exists w',
    mouseReleaseEvent st rtl origin (leftButtonAt p) w
    = mkRun (if _expanded w then [clicks (item_id item)]
             else [toggleExpandedRequests true])
        (Returned tt w').
Proof.
  intros I D P K H N.
  unfold mouseReleaseEvent.
  rewrite bind_modify, bind_get, bind_modify.
  cbn [globalPos leftButtonAt set_lastMousePosition _pressed].
  rewrite P.
  match goal with
  | |- context [bind (finishDragging st rtl origin) ?k ?w0] =>
      change w0 with (set_lastMousePosition p (set_pressed (-1) w));
      rewrite (bind_returned _ k _ _ _ _
                 (finishDragging_idle st rtl origin
                    (set_lastMousePosition p (set_pressed (-1) w)) D))
  end.
  cbn [app].
  assert (U : updateSelected st origin
                (set_lastMousePosition p (set_pressed (-1) w))
              = mkRun []
                  (Returned tt
                     (select k
                        (set_lastMousePosition p (set_pressed (-1) w))))).
  { apply updateSelected_idle.
    - revert I. now apply Idle_frame.
    - reflexivity.
    - exact H. }
  destruct (select_shape k (set_lastMousePosition p (set_pressed (-1) w)))
    as (c & Sh).
  rewrite Sh in U. clear Sh.
  rewrite bind_assoc, (bind_returned _ _ _ _ _ _ U), bind_assoc, bind_get.
  cbn [set_selected set_cursor set_lastMousePosition set_pressed _selected
       _expanded _data app].
  rewrite Z.eqb_refl.
  destruct (_expanded w); cbn [negb].
  - match goal with
    | |- context [selected_below_size ?w0] =>
        rewrite (selected_below_size_item w0 item K N)
    end.
    rewrite N. unfold bind, fire, modify. cbn [fired outcome app].
    eexists. reflexivity.
  - rewrite (bind_returned _ _ _ _ _ _ (requestExpanded_run true _)).
    unfold modify. cbn [fired outcome app].
    eexists. reflexivity.
Qed.

Lemma pressedOn_frame (w : Widget) :
  _data (pressedOn w) = _data w
  /\ geometry (pressedOn w) = geometry w
  /\ _dragging (pressedOn w) = _dragging w
  /\ _pressed (pressedOn w) = _pressed w.
Proof.
  unfold pressedOn, expandedTo.
  destruct (_state w); try destruct (Bool.eqb _ _); repeat split.
Qed.

(** A left press and release at [p], from an idle widget that is not in
    transition and has no pressed item, with the pointer on the item [k]:
    the press fires the expand request if the widget is compact, and
    nothing otherwise; the release fires the click of the item if the
    widget is expanded by then, which it always is after a press in the
    compact state. *)
Theorem tap_on_item (st : style.DialogsStoriesList) (rtl : bool)
    (origin p : QPoint.t) (w : Widget) (k : Z) (item : Item.t) :
  Idle st w ->
  _pressed w < 0 ->
  _dragging w = false ->
  _state w <> Changing ->
  hit st (layoutNow st (pressedOn w)) (QPoint.x (mapFromGlobal origin w p))
  = Some k ->
  0 <= k ->
  nth_error (Data.items (_data w)) (Z.to_nat k) = Some item ->
  exists w1 w2,
    mousePressEvent st origin (leftButtonAt p) w
    = mkRun (match _state w with
             | Small => [toggleExpandedRequests true]
             | _ => []
             end)
        (Returned tt w1)
    /\ mouseReleaseEvent st rtl origin (leftButtonAt p) w1
       = mkRun (if _expanded (pressedOn w) then [clicks (item_id item)]
                else [toggleExpandedRequests true])
           (Returned tt w2)
    /\ (_state w = Small -> _expanded (pressedOn w) = true).
Proof.
  intros I P D S H K N.
  destruct (mousePressEvent_idle st origin p w k I P S H) as (c & Press).
  destruct (pressedOn_frame w) as (Fd & Fg & Fdr & Fp).
  match type of Press with
  | _ = mkRun _ (Returned tt ?w1) =>
      destruct (mouseReleaseEvent_idle st rtl origin p w1 k item)
        as (w2 & Release)
  end.
  - generalize (Idle_pressedOn st w I). now apply Idle_frame.
  - cbn. now rewrite Fdr.
  - reflexivity.
  - exact K.
  - unfold mapFromGlobal, x, y in *.
    cbn [set_pressed set_mouseDownPosition set_selected set_cursor
         set_lastMousePosition geometry].
    rewrite Fg. exact H.
  - cbn [set_pressed set_mouseDownPosition set_selected set_cursor
         set_lastMousePosition _data].
    now rewrite Fd.
  - eexists. eexists. split; [exact Press|]. split; [exact Release|].
    intro E. unfold pressedOn. rewrite E. apply expandedTo_expanded.
Qed.

(** C7 fails in the compact state: on the widget showing three stories,
    compact and not expanded, a press on the first story fires the expand
    request and sets the flag, and the release at the same place then
    fires the click of that story. *)
Theorem compact_tap_fires_click :
  let w := Sample.shown Sample.st 3 in
  _state w = Small
  /\ _expanded w = false
  /\ exists w1 w2,
       mousePressEvent Sample.st Sample.origin Sample.tap w
       = mkRun [toggleExpandedRequests true] (Returned tt w1)
       /\ _pressed w1 = 0
       /\ _expanded w1 = true
       /\ mouseReleaseEvent Sample.st false Sample.origin Sample.tap w1
          = mkRun [clicks 10] (Returned tt w2).
Proof.
  split; [reflexivity|]. split; [reflexivity|].
  eexists. eexists.
  split; [vm_compute; reflexivity|].
  split; [reflexivity|]. split; [reflexivity|].
  vm_compute. reflexivity.
Qed.

(** ** The windows of the layout *)

Lemma quot_bounds (a b : Z) :
  0 <= a -> 0 < b -> b * (a ÷ b) <= a < b * (a ÷ b) + b.
Proof.
  intros A B. rewrite Z.quot_div_nonneg by lia.
  pose proof (Z.mul_div_le a b B).
  pose proof (Z.mul_succ_div_gt a b B). lia.
Qed.

Lemma quot_nonneg (a b : Z) : 0 <= a -> 0 <= b -> 0 <= a ÷ b.
Proof.
  intros A B. destruct (Z.eq_dec b 0) as [-> | N].
  - now rewrite Z.quot_0_r_ext.
  - apply Z.quot_pos; lia.
Qed.

Lemma quot_nonpos (a b : Z) : a <= 0 -> 0 < b -> a ÷ b <= 0.
Proof.
  intros A B. replace a with (- (- a)) by lia.
  rewrite Z.quot_opp_l by lia.
  pose proof (quot_nonneg (- a) b). lia.
Qed.

Lemma items_size_nonneg (w : Widget) : 0 <= items_size w.
Proof. unfold items_size. lia. Qed.

(** The spare width spread between the cells is never negative. *)
Lemma computeLayout_pitch (st : style.DialogsStoriesList) (e : Q)
    (w : Widget) :
  fullPitch st <= Layout.singleFull (computeLayout st e w).
Proof.
  unfold computeLayout, fullPitch. cbn [Layout.singleFull].
  pose proof (items_size_nonneg w) as N.
  set (n := items_size w) in *.
  set (total := style.left (style.full st)
                + (style.photoLeft (style.full st) * 2
                   + style.photo (style.full st)) * n).
  destruct (total <? width w) eqn:T; cbn [andb].
  - apply Z.ltb_lt in T.
    assert (S0 : 0 <= (width w - total) ÷ (n + 1))
      by (apply quot_nonneg; lia).
    destruct (1 <? n) eqn:One.
    + apply Z.ltb_lt in One.
      pose proof (quot_bounds (width w - total) (n + 1)
                    ltac:(lia) ltac:(lia)) as B.
      assert (0 <= (width w - total - 2 * ((width w - total) ÷ (n + 1)))
                   ÷ (n - 1)) by (apply quot_nonneg; nia).
      lia.
    + lia.
  - destruct (1 <? n); lia.
Qed.

(** X1: in every layout the compact row skips no item or the first one,
    and only when there are at least two; it shows at most three items,
    the items [smallSkip, endIndexSmall) that all exist; and its window
    never starts after the skipped item. *)
Theorem computeLayout_small_window (st : style.DialogsStoriesList) (e : Q)
    (w : Widget) :
  Layout.itemsCount (computeLayout st e w) = items_size w
  /\ Layout.smallSkip (computeLayout st e w)
     = (if (1 <? items_size w) && skipsFirst w then 1 else 0)
  /\ Layout.endIndexSmall (computeLayout st e w)
     - Layout.smallSkip (computeLayout st e w)
     <= kSmallThumbsShown
  /\ Layout.smallSkip (computeLayout st e w)
     <= Layout.endIndexSmall (computeLayout st e w)
     <= items_size w
  /\ Layout.startIndexSmall (computeLayout st e w)
     <= Layout.smallSkip (computeLayout st e w).
Proof.
  unfold computeLayout, skipsFirst, kSmallThumbsShown.
  cbn [Layout.itemsCount Layout.smallSkip Layout.endIndexSmall
       Layout.startIndexSmall].
  pose proof (items_size_nonneg w) as N.
  split; [reflexivity|]. split; [reflexivity|].
  destruct (1 <? items_size w) eqn:One; cbn [andb].
  - apply Z.ltb_lt in One.
    destruct (match Data.items (_data w) with
              | [] => false
              | first :: _ => Element.skipSmall (Item.element first)
              end); lia.
  - lia.
Qed.

(** X2: with a positive cell width in the style, the window of the full
    row is the range of the cells that meet the widget: an existing item
    [i] is in [startIndexFull, endIndexFull) exactly when its cell
    [leftFull + i * singleFull, leftFull + (i + 1) * singleFull) meets
    [0, width); the window starts at an index that is not negative and
    ends at most at the number of items. *)
Theorem computeLayout_full_window (st : style.DialogsStoriesList) (e : Q)
    (w : Widget) (i : Z) :
  0 < fullPitch st ->
  0 <= i < items_size w ->
  0 <= Layout.startIndexFull (computeLayout st e w)
  /\ Layout.endIndexFull (computeLayout st e w) <= items_size w
  /\ (Layout.startIndexFull (computeLayout st e w) <= i
      < Layout.endIndexFull (computeLayout st e w)
      <-> cellVisible (computeLayout st e w) (width w) i).
Proof.
  intros P I.
  pose proof (computeLayout_pitch st e w) as S.
  unfold cellVisible. revert S.
  unfold computeLayout.
  cbn [Layout.startIndexFull Layout.endIndexFull Layout.leftFull
       Layout.singleFull].
  match goal with
  | |- _ <= ?s -> _ => generalize s
  end.
  intros s S.
  set (leftFull := style.left (style.full st) - _scrollLeft w + _).
  assert (Start : 0 <= Z.max (- leftFull) 0 ÷ s
                  /\ (Z.max (- leftFull) 0 ÷ s <= i
                      <-> 0 < leftFull + (i + 1) * s)).
  { pose proof (quot_bounds (Z.max (- leftFull) 0) s
                  ltac:(lia) ltac:(lia)) as B.
    split; [apply quot_nonneg; lia|]. split; intro Hi; nia. }
  assert (End : i < (width w - leftFull + s - 1) ÷ s
                <-> leftFull + i * s < width w).
  { destruct (Z_le_gt_dec 0 (width w - leftFull + s - 1)) as [A | A].
    - pose proof (quot_bounds _ s A ltac:(lia)) as B.
      split; intro Hi; nia.
    - pose proof (quot_nonpos (width w - leftFull + s - 1) s
                    ltac:(lia) ltac:(lia)).
      split; intro Hi; nia. }
  split; [tauto|]. split; [lia|].
  split.
  - intros [H1 H2]. split; [apply End; lia | now apply Start].
  - intros [H1 H2]. split; [now apply Start|].
    apply End in H1. lia.
Qed.

Lemma computeLayout_full_window_witness :
  0 < fullPitch Sample.st
  /\ 0 <= 3 < items_size Sample.scrolled
  /\ (Layout.startIndexFull (computeLayout Sample.st 1 Sample.scrolled)
      <= 3
      < Layout.endIndexFull (computeLayout Sample.st 1 Sample.scrolled)
      <-> cellVisible (computeLayout Sample.st 1 Sample.scrolled)
            (width Sample.scrolled) 3).
Proof.
  assert (P : 0 < fullPitch Sample.st) by reflexivity.
  assert (I : 0 <= 3 < items_size Sample.scrolled)
    by (split; [discriminate | reflexivity]).
  split; [exact P|]. split; [exact I|].
  exact (proj2 (proj2
           (computeLayout_full_window Sample.st 1 Sample.scrolled 3 P I))).
Defined.

(** X3: a full row that is narrower than the widget is not scrolled and is
    spread over it: every item is in the window of the full row, and the
    last cell, with the margin that is left of the first one, ends inside
    the widget. *)
Theorem computeLayout_row_fits (st : style.DialogsStoriesList) (e : Q)
    (w : Widget) :
  0 < fullPitch st ->
  0 <= style.left (style.full st) ->
  totalFull st w < width w ->
  ScrollWithin st w ->
  _scrollLeft w = 0
  /\ Layout.startIndexFull (computeLayout st e w) = 0
  /\ Layout.endIndexFull (computeLayout st e w) = items_size w
  /\ style.left (style.full st) <= Layout.leftFull (computeLayout st e w)
  /\ Layout.leftFull (computeLayout st e w)
     + (items_size w - 1) * Layout.singleFull (computeLayout st e w)
     + fullPitch st
     + (Layout.leftFull (computeLayout st e w)
        - style.left (style.full st))
     <= width w.
Proof.
  intros P L T [S0 S1].
  pose proof (items_size_nonneg w) as N.
  assert (Z0 : _scrollLeft w = 0).
  { unfold scrollBound in S1. unfold totalFull, fullPitch in T. nia. }
  split; [exact Z0|].
  unfold computeLayout, totalFull, fullPitch in *.
  cbn [Layout.startIndexFull Layout.endIndexFull Layout.leftFull
       Layout.singleFull].
  rewrite Z0.
  set (n := items_size w) in *.
  set (pitch := style.photoLeft (style.full st) * 2
                + style.photo (style.full st)) in *.
  set (total := style.left (style.full st) + pitch * n) in *.
  apply Z.ltb_lt in T. rewrite T. apply Z.ltb_lt in T. cbn [andb].
  set (side := (width w - total) ÷ (n + 1)).
  pose proof (quot_bounds (width w - total) (n + 1)
                ltac:(lia) ltac:(lia)) as B.
  fold side in B.
  assert (Side : 0 <= side) by (apply quot_nonneg; lia).
  set (between := if 1 <? n
                  then (width w - total - 2 * side) ÷ (n - 1)
                  else side).
  assert (Between : 0 <= between
                    /\ (n - 1) * between <= width w - total - 2 * side).
  { subst between. destruct (1 <? n) eqn:One.
    - apply Z.ltb_lt in One.
      pose proof (quot_bounds (width w - total - 2 * side) (n - 1)
                    ltac:(nia) ltac:(lia)).
      split; [apply quot_nonneg; nia | lia].
    - apply Z.ltb_ge in One. split; [exact Side | nia]. }
  destruct Between as [B0 B1].
  replace (Z.max (- (style.left (style.full st) - 0 + side)) 0)
    with 0 by lia.
  split; [apply Z.quot_0_l; lia|].
  split.
  { apply Z.min_r.
    pose proof (quot_bounds
                  (width w - (style.left (style.full st) - 0 + side)
                   + (pitch + between) - 1)
                  (pitch + between) ltac:(nia) ltac:(lia)) as Q.
    nia. }
  split; [lia|]. nia.
Qed.

Lemma computeLayout_row_fits_witness :
  0 < fullPitch Sample.st
  /\ 0 <= style.left (style.full Sample.st)
  /\ totalFull Sample.st (Sample.pulled Sample.st 3 77)
     < width (Sample.pulled Sample.st 3 77)
  /\ ScrollWithin Sample.st (Sample.pulled Sample.st 3 77)
  /\ Layout.endIndexFull
       (computeLayout Sample.st 1 (Sample.pulled Sample.st 3 77))
     = items_size (Sample.pulled Sample.st 3 77).
Proof.
  assert (P : 0 < fullPitch Sample.st) by reflexivity.
  assert (L : 0 <= style.left (style.full Sample.st)) by discriminate.
  assert (T : totalFull Sample.st (Sample.pulled Sample.st 3 77)
              < width (Sample.pulled Sample.st 3 77))
    by (vm_compute; reflexivity).
  assert (S : ScrollWithin Sample.st (Sample.pulled Sample.st 3 77))
    by (vm_compute; split; discriminate).
  split; [exact P|]. split; [exact L|]. split; [exact T|].
  split; [exact S|].
  exact (proj1 (proj2 (proj2
           (computeLayout_row_fits Sample.st 1 (Sample.pulled Sample.st 3 77)
              P L T S)))).
Defined.

(** ** Expansion requests in a row *)

(** One sample fires nothing or the request for the opposite state. *)
Lemma updateExpanding_step (h H : Z) (w : Widget) :
  contract h H ->
  exists change w',
    updateExpanding h H w
    = mkRun (if change : bool
             then [toggleExpandedRequests (negb (_expanded w))]
             else [])
        (Returned tt w')
    /\ _expanded w' = xorb change (_expanded w).
Proof.
  intro C.
  destruct (expandingRatio_finite h H C) as (ratio & R & _).
  destruct (updateExpanding_sample h H w (_lastRatio w) ratio ratio C R
              (Qeq_refl _) (Qeq_refl _)) as (w' & Run & _ & E).
  eexists. exists w'. split; [exact Run | exact E].
Qed.

Lemma alternating_app (b : bool) (change : bool) (rest : list Event) :
  alternating (xorb change b) rest ->
  alternating b
    ((if change then [toggleExpandedRequests (negb b)] else []) ++ rest).
Proof.
  destruct change; cbn [app alternating].
  - intro A. split; [reflexivity|]. now destruct b.
  - now destruct b.
Qed.

(** X4: whatever heights the driver reports, as long as each keeps the
    contract of [updateExpanding]: every sample is answered, a sample
    fires at most one event, and the events of the whole sequence are
    expansion requests that alternate, the first one for the opposite of
    the state the widget is in.  Two requests for the same state never
    follow each other. *)
Theorem updateExpanding_alternates (samples : list (Z * Z)) (w : Widget) :
  Forall (fun s => contract (fst s) (snd s)) samples ->
  List.length (feed samples w) = List.length samples
  /\ Forall (fun events => (List.length events <= 1)%nat) (feed samples w)
  /\ alternating (_expanded w) (List.concat (feed samples w)).
Proof.
  intro F. revert w.
  induction F as [|[h H] samples C _ IH]; intro w; cbn [feed].
  - repeat split. constructor.
  - cbn [fst snd] in C.
    destruct (updateExpanding_step h H w C) as (change & w' & Run & E).
    rewrite Run. cbn [fired after outcome].
    destruct (IH w') as (L & O & A).
    cbn [List.length List.concat]. split; [now rewrite L|]. split.
    + constructor; [destruct change; cbn; lia | exact O].
    + apply alternating_app. now rewrite <- E.
Qed.

Lemma updateExpanding_alternates_witness :
  Forall (fun s => contract (fst s) (snd s))
    [(0, 77); (60, 77); (70, 77); (20, 77); (77, 77)]
  /\ List.concat (feed [(0, 77); (60, 77); (70, 77); (20, 77); (77, 77)]
               initial)
     = [toggleExpandedRequests true; toggleExpandedRequests false;
        toggleExpandedRequests true]
  /\ alternating (_expanded initial)
       (List.concat (feed [(0, 77); (60, 77); (70, 77); (20, 77); (77, 77)]
                  initial)).
Proof.
  assert (C : Forall (fun s => contract (fst s) (snd s))
                [(0, 77); (60, 77); (70, 77); (20, 77); (77, 77)])
    by (repeat constructor; right; reflexivity).
  split; [exact C|]. split; [vm_compute; reflexivity|].
  exact (proj2 (proj2 (updateExpanding_alternates _ initial C))).
Defined.

(** *** The band between the thresholds *)

Lemma ratio_of_heights (h H : Z) :
  0 < H -> h <> 0 ->
  expandingRatio h H
  = Float64.Finite (Float64.of_int h / Float64.of_int H)%Q.
Proof.
  intros P N.
  destruct (expandingRatio_finite h H (or_intror P)) as (r & R & _ & D).
  destruct (D N) as [_ ->]. exact R.
Qed.

Lemma ratio_below (h H p : Z) :
  0 < H ->
  ((Float64.of_int h / Float64.of_int H < p # 100)%Q <-> 100 * h < p * H).
Proof.
  intro P. unfold Float64.of_int.
  assert (Hq : (0 < inject_Z H)%Q)
    by (change 0%Q with (inject_Z 0); now rewrite <- Zlt_Qlt).
  rewrite (Qmake_Qdiv p 100).
  split; intro L.
  - apply (Qmult_lt_r _ _ (inject_Z H) Hq) in L.
    apply (Qmult_lt_r _ _ (inject_Z 100) ltac:(reflexivity)) in L.
    rewrite Zlt_Qlt, !inject_Z_mult.
    setoid_replace (inject_Z 100 * inject_Z h)%Q
      with (inject_Z h / inject_Z H * inject_Z H * inject_Z 100)%Q
      by (field; lra).
    setoid_replace (inject_Z p * inject_Z H)%Q
      with (inject_Z p / inject_Z 100 * inject_Z H * inject_Z 100)%Q
      by (field; lra).
    exact L.
  - rewrite Zlt_Qlt, !inject_Z_mult in L.
    apply Qlt_shift_div_r; [exact Hq|].
    apply (Qmult_lt_r _ _ (inject_Z 100) ltac:(reflexivity)).
    setoid_replace (inject_Z p / inject_Z 100 * inject_Z H
                    * inject_Z 100)%Q
      with (inject_Z p * inject_Z H)%Q by (field; lra).
    setoid_replace (inject_Z h * inject_Z 100)%Q
      with (inject_Z 100 * inject_Z h)%Q by ring.
    exact L.
Qed.

Lemma ratio_above (h H p : Z) :
  0 < H ->
  ((p # 100 < Float64.of_int h / Float64.of_int H)%Q <-> p * H < 100 * h).
Proof.
  intro P. unfold Float64.of_int.
  assert (Hq : (0 < inject_Z H)%Q)
    by (change 0%Q with (inject_Z 0); now rewrite <- Zlt_Qlt).
  rewrite (Qmake_Qdiv p 100).
  split; intro L.
  - apply (Qmult_lt_r _ _ (inject_Z H) Hq) in L.
    apply (Qmult_lt_r _ _ (inject_Z 100) ltac:(reflexivity)) in L.
    rewrite Zlt_Qlt, !inject_Z_mult.
    setoid_replace (inject_Z 100 * inject_Z h)%Q
      with (inject_Z h / inject_Z H * inject_Z H * inject_Z 100)%Q
      by (field; lra).
    setoid_replace (inject_Z p * inject_Z H)%Q
      with (inject_Z p / inject_Z 100 * inject_Z H * inject_Z 100)%Q
      by (field; lra).
    exact L.
  - rewrite Zlt_Qlt, !inject_Z_mult in L.
    apply Qlt_shift_div_l; [exact Hq|].
    apply (Qmult_lt_r _ _ (inject_Z 100) ltac:(reflexivity)).
    setoid_replace (inject_Z p / inject_Z 100 * inject_Z H
                    * inject_Z 100)%Q
      with (inject_Z p * inject_Z H)%Q by (field; lra).
    setoid_replace (inject_Z h * inject_Z 100)%Q
      with (inject_Z 100 * inject_Z h)%Q by ring.
    exact L.
Qed.

(** X5: a height whose ratio to the capacity is between the two
    thresholds, [0.68 <= h / H <= 0.72], updates only the stored ratio,
    whatever the widget and the direction of the movement: no event is
    fired, the widget is left as it was or with nothing but [_lastRatio]
    replaced, and the stored ratio is [h / H] afterwards. *)
Theorem updateExpanding_between_thresholds (h H : Z) (w : Widget) :
  0 < H ->
  68 * H <= 100 * h <= 72 * H ->
  exists w',
    updateExpanding h H w = mkRun [] (Returned tt w')
    /\ (w' = w
        \/ w' = set_lastRatio (Float64.of_int h / Float64.of_int H)%Q w)
    /\ (_lastRatio w' == Float64.of_int h / Float64.of_int H)%Q.
Proof.
  intros P [Lo Hi].
  assert (N : h <> 0) by lia.
  pose proof (ratio_of_heights h H P N) as R.
  rewrite (updateExpanding_run h H w _ (or_intror P) R).
  destruct (Float64.eqb (_lastRatio w) _) eqn:E.
  - exists w. split; [reflexivity|]. split; [now left|].
    now apply Float64Facts.eqb_eq.
  - assert (Q : hysteresis (_lastRatio w)
                  (Float64.of_int h / Float64.of_int H) (_expanded w)
                = false).
    { unfold hysteresis.
      destruct (_expanded w); apply andb_false_iff; right;
        apply Float64Facts.ltb_ge; apply Qnot_lt_le; intro L.
      - apply ratio_below in L; [lia | exact P].
      - unfold kExpandAfterRatio in L.
        apply ratio_above in L; [lia | exact P]. }
    rewrite Q. eexists. split; [reflexivity|].
    split; [now right | reflexivity].
Qed.

Lemma updateExpanding_between_thresholds_witness :
  0 < 100
  /\ 68 * 100 <= 100 * 70 <= 72 * 100
  /\ exists w',
       updateExpanding 70 100 Sample.expanded = mkRun [] (Returned tt w')
       /\ (w' = Sample.expanded
           \/ w' = set_lastRatio (Float64.of_int 70 / Float64.of_int 100)%Q
                     Sample.expanded)
       /\ (_lastRatio w' == Float64.of_int 70 / Float64.of_int 100)%Q.
Proof.
  assert (P : 0 < 100) by reflexivity.
  assert (B : 68 * 100 <= 100 * 70 <= 72 * 100)
    by (split; discriminate).
  split; [exact P|]. split; [exact B|].
  exact (updateExpanding_between_thresholds 70 100 Sample.expanded P B).
Defined.

(** ** Invariants of the handlers *)

Lemma preserves_keeps {X A} (f : Widget -> X) (m : M A) :
  preserves f m -> keeps f m.
Proof.
  intros P w. destruct (P w) as (ev & a & w' & -> & F). exact F.
Qed.

(** ** What a handler leaves untouched

    A handler changes the widget through the setters in its text only:
    a component [f] of the widget that no setter of a handler changes is
    kept by the handler. *)

Section Untouched.

Context {X : Type} (f : Widget -> X).

Hypothesis f_content : forall v w, f (set_content v w) = f w.
Hypothesis f_data : forall v w, f (set_data v w) = f w.
Hypothesis f_empty : forall v w, f (set_empty v w) = f w.
Hypothesis f_scrollLeft : forall v w, f (set_scrollLeft v w) = f w.
Hypothesis f_scrollLeftMax : forall v w, f (set_scrollLeftMax v w) = f w.
Hypothesis f_startDraggingLeft : forall v w, f (set_startDraggingLeft v w) = f w.
Hypothesis f_dragging : forall v w, f (set_dragging v w) = f w.
Hypothesis f_expanded : forall v w, f (set_expanded v w) = f w.
Hypothesis f_expandedAnimation : forall v w, f (set_expandedAnimation v w) = f w.
Hypothesis f_expandCatchUpAnimation : forall v w, f (set_expandCatchUpAnimation v w) = f w.
Hypothesis f_lastRatio : forall v w, f (set_lastRatio v w) = f w.
Hypothesis f_lastExpandedHeight : forall v w, f (set_lastExpandedHeight v w) = f w.
Hypothesis f_expandIgnored : forall v w, f (set_expandIgnored v w) = f w.
Hypothesis f_state : forall v w, f (set_state v w) = f w.
Hypothesis f_positionSmall : forall v w, f (set_positionSmall v w) = f w.
Hypothesis f_alignSmall : forall v w, f (set_alignSmall v w) = f w.
Hypothesis f_geometryFull : forall v w, f (set_geometryFull v w) = f w.
Hypothesis f_changingGeometryFrom : forall v w, f (set_changingGeometryFrom v w) = f w.
Hypothesis f_lastMousePosition : forall v w, f (set_lastMousePosition v w) = f w.
Hypothesis f_mouseDownPosition : forall v w, f (set_mouseDownPosition v w) = f w.
Hypothesis f_selected : forall v w, f (set_selected v w) = f w.
Hypothesis f_pressed : forall v w, f (set_pressed v w) = f w.
Hypothesis f_geometry : forall v w, f (set_geometry v w) = f w.
Hypothesis f_cursor : forall v w, f (set_cursor v w) = f w.

Ltac setter :=
  cbv beta;
  lazymatch goal with
  | |- f (set_content _ _) = _ => apply f_content
  | |- f (set_data _ _) = _ => apply f_data
  | |- f (set_empty _ _) = _ => apply f_empty
  | |- f (set_scrollLeft _ _) = _ => apply f_scrollLeft
  | |- f (set_scrollLeftMax _ _) = _ => apply f_scrollLeftMax
  | |- f (set_startDraggingLeft _ _) = _ => apply f_startDraggingLeft
  | |- f (set_dragging _ _) = _ => apply f_dragging
  | |- f (set_expanded _ _) = _ => apply f_expanded
  | |- f (set_expandedAnimation _ _) = _ => apply f_expandedAnimation
  | |- f (set_expandCatchUpAnimation _ _) = _ => apply f_expandCatchUpAnimation
  | |- f (set_lastRatio _ _) = _ => apply f_lastRatio
  | |- f (set_lastExpandedHeight _ _) = _ => apply f_lastExpandedHeight
  | |- f (set_expandIgnored _ _) = _ => apply f_expandIgnored
  | |- f (set_state _ _) = _ => apply f_state
  | |- f (set_positionSmall _ _) = _ => apply f_positionSmall
  | |- f (set_alignSmall _ _) = _ => apply f_alignSmall
  | |- f (set_geometryFull _ _) = _ => apply f_geometryFull
  | |- f (set_changingGeometryFrom _ _) = _ => apply f_changingGeometryFrom
  | |- f (set_lastMousePosition _ _) = _ => apply f_lastMousePosition
  | |- f (set_mouseDownPosition _ _) = _ => apply f_mouseDownPosition
  | |- f (set_selected _ _) = _ => apply f_selected
  | |- f (set_pressed _ _) = _ => apply f_pressed
  | |- f (set_geometry _ _) = _ => apply f_geometry
  | |- f (set_cursor _ _) = _ => apply f_cursor
  end.

Ltac framing :=
  repeat lazymatch goal with
  | H : preserves f ?m |- preserves f ?m => exact H
  | |- preserves _ (bind _ _) => apply preserves_bind; [|intro]
  | |- preserves _ (ret _) => apply preserves_ret
  | |- preserves _ get => apply preserves_get
  | |- preserves _ (fire _) => apply preserves_fire
  | |- preserves _ (modify _) => apply preserves_modify; intro; setter
  | |- preserves _ (if ?c then _ else _) => destruct c
  | |- preserves _ (match ?s with _ => _ end) => destruct s
  | |- preserves ?g (let x := ?v in @?b x) =>
      change (preserves g (b v)); cbv beta
  end.

Ltac keeping_all :=
  repeat lazymatch goal with
  | H : keeps f ?m |- keeps f ?m => exact H
  | H : preserves f ?m |- keeps f ?m => exact (preserves_keeps f m H)
  | |- keeps _ (bind _ _) => apply keeps_bind; [|intro]
  | |- keeps _ (ret _) => apply keeps_ret
  | |- keeps _ get => apply keeps_get
  | |- keeps _ (fire _) => apply keeps_fire
  | |- keeps _ (fail _) => apply keeps_fail
  | |- keeps _ (modify _) => apply keeps_modify; intro; setter
  | |- keeps _ (if ?c then _ else _) => destruct c
  | |- keeps _ (match ?s with _ => _ end) => destruct s
  | |- keeps ?g (let x := ?v in @?b x) => change (keeps g (b v)); cbv beta
  end.

Variable st : style.DialogsStoriesList.
Variable RightToLeft : bool.
Variable startDragDistance : Z.
Variable origin : QPoint.t.

Lemma checkLoadMore_untouched : preserves f checkLoadMore.
Proof. unfold checkLoadMore. framing. Qed.

Lemma requestExpanded_untouched b : preserves f (requestExpanded b).
Proof. unfold requestExpanded. framing. Qed.

Lemma updateScrollMax_untouched : preserves f (updateScrollMax st).
Proof.
  pose proof checkLoadMore_untouched. unfold updateScrollMax. framing.
Qed.

Lemma setGeometry_untouched r : preserves f (setGeometry st r).
Proof.
  pose proof updateScrollMax_untouched.
  unfold setGeometry, resizeEvent. framing.
Qed.

Lemma updateGeometry_untouched : preserves f (updateGeometry st).
Proof.
  unfold updateGeometry. framing; apply setGeometry_untouched.
Qed.

Lemma setState_untouched s : preserves f (setState st s).
Proof.
  pose proof updateGeometry_untouched. unfold setState. framing.
Qed.

Lemma checkForFullState_untouched : preserves f (checkForFullState st).
Proof.
  pose proof (setState_untouched Full). unfold checkForFullState. framing.
Qed.

Lemma setLayoutConstraints_untouched p a r :
  preserves f (setLayoutConstraints st p a r).
Proof.
  pose proof updateGeometry_untouched. unfold setLayoutConstraints.
  framing.
Qed.

Lemma showContent_untouched c : preserves f (showContent st c).
Proof.
  pose proof updateGeometry_untouched. pose proof updateScrollMax_untouched.
  unfold showContent. framing.
Qed.

Lemma setExpandedHeight_untouched height momentum :
  preserves f (setExpandedHeight st height momentum).
Proof.
  pose proof checkForFullState_untouched.
  unfold setExpandedHeight. framing; apply setState_untouched.
Qed.

Lemma expandedAnimationTick_untouched v :
  preserves f (expandedAnimationTick st v).
Proof.
  pose proof checkForFullState_untouched.
  unfold expandedAnimationTick. framing.
Qed.

Lemma expandCatchUpTick_untouched v :
  preserves f (expandCatchUpTick st v).
Proof.
  pose proof checkForFullState_untouched.
  unfold expandCatchUpTick. framing.
Qed.

Lemma updateExpanding_untouched h H : keeps f (updateExpanding h H).
Proof.
  unfold updateExpanding. keeping_all.
  apply preserves_keeps, requestExpanded_untouched.
Qed.

Lemma computeLayoutCurrent_untouched : keeps f (computeLayoutCurrent st).
Proof.
  unfold computeLayoutCurrent. keeping_all. apply updateExpanding_untouched.
Qed.

Lemma updateSelected_untouched : keeps f (updateSelected st origin).
Proof.
  pose proof computeLayoutCurrent_untouched.
  unfold updateSelected. keeping_all.
Qed.

Lemma checkDragging_untouched : keeps f (checkDragging RightToLeft).
Proof.
  pose proof checkLoadMore_untouched. unfold checkDragging. keeping_all.
Qed.

Lemma finishDragging_untouched :
  keeps f (finishDragging st RightToLeft origin).
Proof.
  pose proof checkDragging_untouched. pose proof updateSelected_untouched.
  unfold finishDragging. keeping_all.
Qed.

Lemma wheelEvent_untouched e :
  keeps f (wheelEvent st RightToLeft origin e).
Proof.
  pose proof (requestExpanded_untouched true).
  pose proof updateSelected_untouched. pose proof checkLoadMore_untouched.
  unfold wheelEvent. keeping_all.
Qed.

Lemma mousePressEvent_untouched e : keeps f (mousePressEvent st origin e).
Proof.
  pose proof (requestExpanded_untouched true).
  pose proof updateSelected_untouched.
  unfold mousePressEvent. keeping_all.
Qed.

Lemma mouseMoveEvent_untouched e :
  keeps f (mouseMoveEvent st RightToLeft startDragDistance origin e).
Proof.
  pose proof updateSelected_untouched. pose proof checkDragging_untouched.
  unfold mouseMoveEvent. keeping_all.
Qed.

Lemma mouseReleaseEvent_untouched e :
  keeps f (mouseReleaseEvent st RightToLeft origin e).
Proof.
  pose proof (requestExpanded_untouched true).
  pose proof updateSelected_untouched. pose proof finishDragging_untouched.
  unfold mouseReleaseEvent. keeping_all.
Qed.

End Untouched.

Lemma upholds_bind {A B} (Inv : Widget -> Prop) (m : M A) (k : A -> M B) :
  upholds Inv m -> (forall a, upholds Inv (k a)) -> upholds Inv (bind m k).
Proof. intros Hm Hk. apply (hoare_bind _ (fun _ => Inv)); assumption. Qed.

Lemma upholds_ret {A} (Inv : Widget -> Prop) (a : A) : upholds Inv (ret a).
Proof. apply hoare_ret. auto. Qed.

(** A handler that returns from every widget and leaves [f] untouched. *)
Ltac returning :=
  lazymatch goal with
  | |- preserves _ (ret _) => apply preserves_ret
  | |- preserves _ get => apply preserves_get
  | |- preserves _ (fire _) => apply preserves_fire
  | |- preserves _ (modify _) => apply preserves_modify
  | |- preserves _ enterEventHook => apply preserves_fire
  | |- preserves _ checkLoadMore => apply checkLoadMore_untouched
  | |- preserves _ (requestExpanded _) => apply requestExpanded_untouched
  | |- preserves _ (updateScrollMax _) => apply updateScrollMax_untouched
  | |- preserves _ (resizeEvent _) => apply updateScrollMax_untouched
  | |- preserves _ (setGeometry _ _) => apply setGeometry_untouched
  | |- preserves _ (updateGeometry _) => apply updateGeometry_untouched
  | |- preserves _ (setState _ _) => apply setState_untouched
  | |- preserves _ (checkForFullState _) =>
      apply checkForFullState_untouched
  | |- preserves _ (setLayoutConstraints _ _ _ _) =>
      apply setLayoutConstraints_untouched
  | |- preserves _ (showContent _ _) => apply showContent_untouched
  | |- preserves _ (setExpandedHeight _ _ _) =>
      apply setExpandedHeight_untouched
  | |- preserves _ (expandedAnimationTick _ _) =>
      apply expandedAnimationTick_untouched
  | |- preserves _ (expandCatchUpTick _ _) =>
      apply expandCatchUpTick_untouched
  end;
  intros; reflexivity.

(** A handler that leaves [f] untouched whenever it returns. *)
Ltac untouched :=
  lazymatch goal with
  | |- keeps _ (fail _) => apply keeps_fail
  | |- keeps _ (updateExpanding _ _) =>
      apply updateExpanding_untouched; intros; reflexivity
  | |- keeps _ (computeLayoutCurrent _) =>
      apply computeLayoutCurrent_untouched; intros; reflexivity
  | |- keeps _ (updateSelected _ _) =>
      apply updateSelected_untouched; intros; reflexivity
  | |- keeps _ (checkDragging _) =>
      apply checkDragging_untouched; intros; reflexivity
  | |- keeps _ (finishDragging _ _ _) =>
      apply finishDragging_untouched; intros; reflexivity
  | |- keeps _ (wheelEvent _ _ _ _) =>
      apply wheelEvent_untouched; intros; reflexivity
  | |- keeps _ (mousePressEvent _ _ _) =>
      apply mousePressEvent_untouched; intros; reflexivity
  | |- keeps _ (mouseMoveEvent _ _ _ _ _) =>
      apply mouseMoveEvent_untouched; intros; reflexivity
  | |- keeps _ (mouseReleaseEvent _ _ _ _) =>
      apply mouseReleaseEvent_untouched; intros; reflexivity
  | |- keeps _ _ => apply preserves_keeps; returning
  end.

(** Walks through a handler along its syntax: a handler with a lemma
    among the hypotheses is taken from there, and what is left must leave
    untouched the component [f] the invariant depends on. *)
Ltac maintain f F :=
  repeat lazymatch goal with
  | H : upholds ?I ?m |- upholds ?I ?m => exact H
  | |- upholds _ (bind _ _) => apply upholds_bind; [|intro]
  | |- upholds _ (ret _) => apply upholds_ret
  | |- upholds _ (if ?c then _ else _) => destruct c
  | |- upholds _ (match ?s with _ => _ end) => destruct s
  | |- upholds ?I (let x := ?v in @?b x) =>
      change (upholds I (b v)); cbv beta
  | |- upholds _ _ => apply (hoare_keeps f); [solve [untouched] | exact F]
  end.

Lemma handleAll_upholds (st : style.DialogsStoriesList) (rtl : bool)
    (startDrag : Z) (origin : QPoint.t) (Inv : Widget -> Prop)
    (allowed : Input -> Prop) :
  (forall i, allowed i -> upholds Inv (handle st rtl startDrag origin i)) ->
  forall inputs,
    Forall allowed inputs ->
    upholds Inv (handleAll st rtl startDrag origin inputs).
Proof.
  intros H inputs F.
  induction F as [|i inputs K _ IH]; cbn [handleAll].
  - apply upholds_ret.
  - apply upholds_bind; [now apply H | intro; exact IH].
Qed.

Lemma upholds_after {A} (Inv : Widget -> Prop) (m : M A) (w w' : Widget) :
  upholds Inv m -> Inv w -> after (m w) = Some w' -> Inv w'.
Proof.
  intros U I A0. specialize (U w I). unfold after in A0.
  destruct (outcome (m w)); [|discriminate]. now injection A0 as <-.
Qed.

(** After [get] the widget read is the current one, and has what the
    precondition says. *)
Lemma hoare_read {B} (P : Widget -> Prop) (Q : B -> Widget -> Prop)
    (k : Widget -> M B) :
  (forall w0, P w0 -> hoare (fun w => w = w0) (k w0) Q) ->
  hoare P (bind get k) Q.
Proof. intros H w Pw. rewrite bind_get. now apply (H w Pw w). Qed.

Lemma hoare_post {A} (P : Widget -> Prop) (Q Q' : A -> Widget -> Prop)
    (m : M A) :
  (forall a w, Q' a w -> Q a w) -> hoare P m Q' -> hoare P m Q.
Proof.
  intros I H w Pw. specialize (H w Pw).
  destruct (outcome (m w)); [now apply I | constructor].
Qed.

Lemma State_eqb_eq (a b : State) : State_eqb a b = true <-> a = b.
Proof. destruct a, b; cbn; split; congruence. Qed.

(** ** The discrete state *)

Section DiscreteState.

Variable st : style.DialogsStoriesList.

Lemma StateFollowsHeight_frame (w w' : Widget) :
  expansion w' = expansion w ->
  StateFollowsHeight st w -> StateFollowsHeight st w'.
Proof.
  unfold expansion, StateFollowsHeight. intro E.
  injection E as -> ->. auto.
Qed.

(** [setState] leaves the widget in the state it is given. *)
Lemma setState_sets (s : State) (h : Z) :
  hoare (fun w => _lastExpandedHeight w = h) (setState st s)
    (fun _ w => _state w = s /\ _lastExpandedHeight w = h).
Proof.
  unfold setState. apply hoare_read. intros w0 L.
  destruct (State_eqb (_state w0) s) eqn:E.
  - apply hoare_ret. intros w ->.
    split; [now apply State_eqb_eq | exact L].
  - apply (hoare_bind _
             (fun _ w => _state w = s /\ _lastExpandedHeight w = h)).
    + apply hoare_modify. intros w ->. now split.
    + intros _. apply (hoare_keeps expansion); [untouched|].
      unfold expansion. intros w w' F. injection F as -> ->. auto.
Qed.

(** [checkForFullState] answers whether the widget is now in the full
    state; it is only for a height that is not below the full one. *)
Lemma checkForFullState_sets (s : State) (h : Z) :
  hoare (fun w => _state w = s /\ _lastExpandedHeight w = h)
    (checkForFullState st)
    (fun isFull w =>
       _lastExpandedHeight w = h
       /\ if isFull : bool
          then _state w = Full /\ style.height (style.full st) <= h
          else _state w = s).
Proof.
  unfold checkForFullState. apply hoare_read. intros w0 [S L].
  destruct (_ || _ || (_lastExpandedHeight w0 <? _)) eqn:C.
  - apply hoare_ret. intros w ->. now split.
  - apply orb_false_iff in C. destruct C as [_ C].
    apply Z.ltb_ge in C.
    apply (hoare_bind _
             (fun _ w => _state w = Full /\ _lastExpandedHeight w = h)).
    + apply (hoare_weaken _ (fun w => _lastExpandedHeight w = h));
        [now intros w -> | apply setState_sets].
    + intros _. apply hoare_ret. intros w [S' L'].
      split; [exact L'|]. split; [exact S' | lia].
Qed.

Lemma checkForFullState_follows :
  0 < style.height (style.full st) ->
  upholds (StateFollowsHeight st) (checkForFullState st).
Proof.
  intros P w I.
  pose proof (checkForFullState_sets (_state w) (_lastExpandedHeight w) w
                (conj eq_refl eq_refl)) as H.
  destruct (outcome (checkForFullState st w)) as [isFull w'|]; [|constructor].
  destruct H as [L S]. unfold StateFollowsHeight in *. rewrite L.
  destruct isFull.
  - destruct S as [-> F]. split; [tauto|].
    split; [split; [discriminate | lia] | lia].
  - now rewrite S.
Qed.

Lemma setExpandedHeight_follows (height : Z) (momentum : bool) :
  0 < style.height (style.full st) ->
  upholds (StateFollowsHeight st) (setExpandedHeight st height momentum).
Proof.
  intro P. unfold setExpandedHeight, upholds. apply hoare_read.
  intros w0 I.
  pose proof (clamp_within height 0 (style.height (style.full st))
                ltac:(lia)) as C.
  set (h := clamp height 0 (style.height (style.full st))) in *.
  destruct (_lastExpandedHeight w0 =? h);
    [apply hoare_ret; now intros w ->|].
  destruct (momentum && _expandIgnored w0);
    [apply hoare_ret; now intros w ->|].
  destruct (momentum && (0 <? h) && (_lastExpandedHeight w0 =? 0)).
  { apply hoare_modify. intros w ->. exact I. }
  apply (hoare_bind _ (fun _ _ => True)); [apply hoare_true | intros _].
  apply (hoare_bind _ (fun _ w => _lastExpandedHeight w = h)).
  { apply hoare_modify. reflexivity. }
  intros _ w1 L1.
  pose proof (checkForFullState_sets (_state w1) h w1 (conj eq_refl L1))
    as Full.
  unfold bind.
  destruct (outcome (checkForFullState st w1)) as [isFull w2|];
    cbn [outcome]; [|constructor].
  destruct Full as [L2 S2]. destruct isFull.
  - cbn [ret outcome]. destruct S2 as [S2 F].
    unfold StateFollowsHeight. rewrite L2, S2.
    split; [exact C|]. split; [split; [discriminate | lia] | lia].
  - pose proof (setState_sets (if h =? 0 then Small else Changing) h w2 L2)
      as Placed.
    destruct (outcome (setState st _ w2)) as [[] w3|]; [|constructor].
    destruct Placed as [S3 L3]. unfold StateFollowsHeight.
    rewrite L3, S3. split; [exact C|].
    destruct (h =? 0) eqn:Z0;
      [apply Z.eqb_eq in Z0 | apply Z.eqb_neq in Z0];
      (split; [split; congruence | discriminate]).
Qed.

Variable RightToLeft : bool.
Variable startDragDistance : Z.
Variable origin : QPoint.t.

Lemma handle_follows (i : Input) :
  0 < style.height (style.full st) ->
  upholds (StateFollowsHeight st)
    (handle st RightToLeft startDragDistance origin i).
Proof.
  intro P.
  pose proof (checkForFullState_follows P) as Check.
  destruct i; cbn [handle];
    try (now apply setExpandedHeight_follows);
    try (unfold expandedAnimationTick, expandCatchUpTick);
    maintain expansion StateFollowsHeight_frame.
Qed.

End DiscreteState.

(** X6: with a positive full height in the style, after any sequence of
    inputs to the new widget the discrete state follows the height the
    owner has set last: the height is within [0, full height], the state
    is [Small] exactly when the height is 0, and [Full] only when the
    height is the full one. *)
Theorem state_follows_height (st : style.DialogsStoriesList) (rtl : bool)
    (startDrag : Z) (origin : QPoint.t) (inputs : list Input)
    (w : Widget) :
  0 < style.height (style.full st) ->
  after (handleAll st rtl startDrag origin inputs initial) = Some w ->
  StateFollowsHeight st w.
Proof.
  intros P A.
  apply (upholds_after (StateFollowsHeight st)
           (handleAll st rtl startDrag origin inputs) initial w);
    [| | exact A].
  - apply (handleAll_upholds st rtl startDrag origin _ (fun _ => True)).
    + intros i _. now apply handle_follows.
    + apply Forall_forall. auto.
  - unfold StateFollowsHeight. cbn.
    split; [lia|]. split; [tauto | discriminate].
Qed.

Lemma state_follows_height_witness :
  0 < style.height (style.full Sample.st)
  /\ after (handleAll Sample.st false 10 Sample.origin Sample.scrolling
              initial)
     = Some Sample.scrolled
  /\ StateFollowsHeight Sample.st Sample.scrolled.
Proof.
  assert (P : 0 < style.height (style.full Sample.st)) by reflexivity.
  assert (A : after (handleAll Sample.st false 10 Sample.origin
                       Sample.scrolling initial)
              = Some Sample.scrolled) by (vm_compute; reflexivity).
  split; [exact P|]. split; [exact A|].
  exact (state_follows_height Sample.st false 10 Sample.origin
           Sample.scrolling Sample.scrolled P A).
Defined.

(** ** The cursor *)

Section Pointer.

Variable st : style.DialogsStoriesList.
Variable RightToLeft : bool.
Variable startDragDistance : Z.
Variable origin : QPoint.t.

Lemma PointerOverItem_frame (w w' : Widget) :
  pointing w' = pointing w -> PointerOverItem w -> PointerOverItem w'.
Proof.
  unfold pointing, PointerOverItem. intro E. injection E as -> ->. auto.
Qed.

(** The end of [updateSelected]: the new selection is stored, and the
    cursor changes when the selection appears or disappears. *)
Lemma select_pointer (selected : Z) :
  upholds PointerOverItem
    (bind get (fun w =>
       if _selected w =? selected then ret tt
       else
         let over := 0 <=? selected in
         bind (if negb (Bool.eqb over (0 <=? _selected w))
               then modify
                      (set_cursor (if over then cur_pointer
                                   else cur_default))
               else ret tt)
           (fun _ => modify (set_selected selected)))).
Proof.
  intros w I. rewrite bind_get.
  destruct (_selected w =? selected); [exact I|].
  cbv zeta. unfold PointerOverItem in *.
  destruct (0 <=? selected) eqn:Over, (0 <=? _selected w) eqn:Was;
    cbn [Bool.eqb negb]; rewrite ?bind_modify, ?bind_ret;
    cbn [modify outcome set_selected set_cursor _selected cursor];
    try apply Z.leb_le in Over; try apply Z.leb_gt in Over;
    try apply Z.leb_le in Was; try apply Z.leb_gt in Was;
    destruct I as [I1 I2]; split; intro H;
    first [lia | discriminate | reflexivity | now apply I2
          | specialize (I1 H); lia].
Qed.

Lemma updateSelected_pointer :
  upholds PointerOverItem (updateSelected st origin).
Proof.
  unfold updateSelected. apply upholds_bind; [|intro w0].
  { maintain pointing PointerOverItem_frame. }
  destruct (0 <=? _pressed w0); [apply upholds_ret|].
  cbv zeta.
  apply upholds_bind; [|intro layout].
  { maintain pointing PointerOverItem_frame. }
  apply upholds_bind; [|intro candidate].
  { destruct (Float64.ltb _ _); [apply upholds_ret|].
    destruct (Float64.div _ _); [apply upholds_ret | apply hoare_fail]. }
  apply select_pointer.
Qed.

Lemma finishDragging_pointer :
  upholds PointerOverItem (finishDragging st RightToLeft origin).
Proof.
  pose proof updateSelected_pointer. unfold finishDragging.
  maintain pointing PointerOverItem_frame.
Qed.

Lemma handle_pointer (i : Input) :
  upholds PointerOverItem
    (handle st RightToLeft startDragDistance origin i).
Proof.
  pose proof updateSelected_pointer. pose proof finishDragging_pointer.
  destruct i; cbn [handle];
    try unfold wheelEvent, mousePressEvent, mouseMoveEvent,
      mouseReleaseEvent;
    maintain pointing PointerOverItem_frame.
Qed.

End Pointer.

(** X7: after any sequence of inputs to the new widget, the cursor over
    the widget is the pointing hand exactly when an item is selected. *)
Theorem cursor_follows_selection (st : style.DialogsStoriesList)
    (rtl : bool) (startDrag : Z) (origin : QPoint.t)
    (inputs : list Input) (w : Widget) :
  after (handleAll st rtl startDrag origin inputs initial) = Some w ->
  (cursor w = cur_pointer <-> 0 <= _selected w).
Proof.
  intro A.
  apply (upholds_after PointerOverItem
           (handleAll st rtl startDrag origin inputs) initial w);
    [| | exact A].
  - apply (handleAll_upholds st rtl startDrag origin _ (fun _ => True)).
    + intros i _. apply handle_pointer.
    + apply Forall_forall. auto.
  - unfold PointerOverItem. cbn. split; [discriminate | lia].
Qed.

Lemma cursor_follows_selection_witness :
  exists w,
    after (handleAll Sample.st false 10 Sample.origin
             (Sample.hovering 100) initial)
    = Some w
    /\ (cursor w = cur_pointer <-> 0 <= _selected w).
Proof.
  eexists.
  assert (A : after (handleAll Sample.st false 10 Sample.origin
                       (Sample.hovering 100) initial)
              = Some _) by (vm_compute; reflexivity).
  split; [exact A|].
  exact (cursor_follows_selection Sample.st false 10 Sample.origin
           (Sample.hovering 100) _ A).
Defined.

(** ** The content and the items *)

Lemma hoare_value {X A} (f : Widget -> X) (v : X) (m : M A) :
  keeps f m -> hoare (fun w => f w = v) m (fun _ w => f w = v).
Proof.
  intro K. apply (hoare_keeps f); [exact K|]. intros w w' E. congruence.
Qed.

Lemma reconcile_ids (elements : list Element.t) (items : list Item.t) :
  map item_id (reconcile elements items [])
  = map Element.id elements.
Proof. now rewrite reconcile_order. Qed.

Section Snapshot.

Variable st : style.DialogsStoriesList.
Variable RightToLeft : bool.
Variable startDragDistance : Z.
Variable origin : QPoint.t.

Lemma SnapshotShown_frame (w w' : Widget) :
  snapshot w' = snapshot w -> SnapshotShown w -> SnapshotShown w'.
Proof.
  unfold snapshot, SnapshotShown. intro E. injection E as -> -> ->. auto.
Qed.

Lemma showContent_snapshot (c : Content.t) :
  upholds SnapshotShown (showContent st c).
Proof.
  unfold showContent, upholds. apply hoare_read. intros w0 I.
  destruct (Content.eqb (_content w0) c);
    [apply hoare_ret; now intros w ->|].
  destruct (Content.elements c) as [|e rest] eqn:Els.
  - intros w ->. rewrite !bind_modify. cbn.
    split; [reflexivity | now left].
  - set (items := reconcile (e :: rest) (Data.items (_data w0)) []).
    apply (hoare_bind _ (fun _ w => w = set_content c w0)).
    { apply hoare_modify. now intros w ->. }
    intros _.
    apply (hoare_bind _
             (fun _ w => snapshot w = (c, Data.mk items, _empty w0))).
    { apply hoare_modify. intros w ->. cbn. subst items.
      now rewrite Els. }
    intros _. apply hoare_read. intros w1 S1.
    apply (hoare_bind _
             (fun _ w => snapshot w = (c, Data.mk items, _empty w0))).
    { apply (hoare_weaken _
               (fun w => snapshot w = (c, Data.mk items, _empty w0)));
        [now intros w -> |].
      apply hoare_value. destruct (negb _); untouched. }
    intros _.
    apply (hoare_bind _
             (fun _ w => snapshot w = (c, Data.mk items, _empty w0))).
    { apply hoare_value. untouched. }
    intros _.
    assert (Ids : map item_id items = map Element.id (e :: rest))
      by apply reconcile_ids.
    assert (N : Data.empty (Data.mk items) = false).
    { unfold Data.empty. cbn [Data.items].
      destruct items; [discriminate Ids | reflexivity]. }
    destruct I as [E0 _].
    destruct (items_size w0 =? 0) eqn:Was.
    + apply hoare_modify. intros w S. unfold snapshot in S.
      injection S as C D _. unfold SnapshotShown.
      cbn [set_empty _empty _data _content]. rewrite C, D, Els, N.
      split; [reflexivity | now right].
    + apply hoare_ret. intros w S. unfold snapshot in S.
      injection S as C D E. unfold SnapshotShown.
      rewrite C, D, E, Els, N. split; [|now right].
      rewrite E0. unfold items_size, Data.empty in *.
      destruct (Data.items (_data w0)); [discriminate Was | reflexivity].
Qed.

Lemma handle_snapshot (i : Input) :
  upholds SnapshotShown
    (handle st RightToLeft startDragDistance origin i).
Proof.
  destruct i; cbn [handle]; try apply showContent_snapshot;
    maintain snapshot SnapshotShown_frame.
Qed.

End Snapshot.

(** X8: after any sequence of inputs to the new widget, the flag [_empty]
    is set exactly when there are no items, and the items are none at all
    or one for each element of the stored content, with the ids of the
    elements in their order. *)
Theorem items_follow_content (st : style.DialogsStoriesList)
    (rtl : bool) (startDrag : Z) (origin : QPoint.t)
    (inputs : list Input) (w : Widget) :
  after (handleAll st rtl startDrag origin inputs initial) = Some w ->
  _empty w = Data.empty (_data w)
  /\ (Data.items (_data w) = []
      \/ map item_id (Data.items (_data w))
         = map Element.id (Content.elements (_content w))).
Proof.
  intro A.
  apply (upholds_after SnapshotShown
           (handleAll st rtl startDrag origin inputs) initial w);
    [| | exact A].
  - apply (handleAll_upholds st rtl startDrag origin _ (fun _ => True)).
    + intros i _. apply handle_snapshot.
    + apply Forall_forall. auto.
  - split; [reflexivity | now left].
Qed.

Lemma items_follow_content_witness :
  after (handleAll Sample.st false 10 Sample.origin (Sample.showing 5)
           initial)
  = Some Sample.collapsed
  /\ _empty Sample.collapsed = false
  /\ map item_id (Data.items (_data Sample.collapsed))
     = map Element.id (Content.elements (_content Sample.collapsed)).
Proof.
  assert (A : after (handleAll Sample.st false 10 Sample.origin
                       (Sample.showing 5) initial)
              = Some Sample.collapsed) by (vm_compute; reflexivity).
  split; [exact A|].
  destruct (items_follow_content Sample.st false 10 Sample.origin
              (Sample.showing 5) Sample.collapsed A) as [E [N | I]].
  - split; [exact E|]. discriminate N.
  - split; [exact E | exact I].
Defined.

(** ** Runs that return *)

Lemma total_ret {A} (P : Widget -> Prop) (Q : A -> Widget -> Prop) (a : A) :
  (forall w, P w -> Q a w) -> total P (ret a) Q.
Proof. intros H w Pw. exists [], a, w. split; [reflexivity | auto]. Qed.

Lemma total_modify (P : Widget -> Prop) (Q : unit -> Widget -> Prop)
    (g : Widget -> Widget) :
  (forall w, P w -> Q tt (g w)) -> total P (modify g) Q.
Proof. intros H w Pw. exists [], tt, (g w). split; [reflexivity | auto]. Qed.

Lemma total_fire (P : Widget -> Prop) (Q : unit -> Widget -> Prop)
    (e : Event) :
  (forall w, P w -> Q tt w) -> total P (fire e) Q.
Proof. intros H w Pw. exists [e], tt, w. split; [reflexivity | auto]. Qed.

Lemma total_bind {A B} (P : Widget -> Prop) (R : A -> Widget -> Prop)
    (Q : B -> Widget -> Prop) (m : M A) (k : A -> M B) :
  total P m R -> (forall a, total (R a) (k a) Q) -> total P (bind m k) Q.
Proof.
  intros Hm Hk w Pw.
  destruct (Hm w Pw) as (ev & a & w1 & E & Ra).
  destruct (Hk a w1 Ra) as (ev' & b & w2 & E' & Qb).
  exists (ev ++ ev'), b, w2.
  rewrite (bind_returned m k w w1 a ev E), E'. split; [reflexivity | auto].
Qed.

Lemma total_read {B} (P : Widget -> Prop) (Q : B -> Widget -> Prop)
    (k : Widget -> M B) :
  (forall w0, P w0 -> total (fun w => w = w0) (k w0) Q) ->
  total P (bind get k) Q.
Proof. intros H w Pw. rewrite bind_get. now apply (H w Pw w). Qed.

Lemma total_weaken {A} (P P' : Widget -> Prop) (Q : A -> Widget -> Prop)
    (m : M A) :
  (forall w, P w -> P' w) -> total P' m Q -> total P m Q.
Proof. intros I H w Pw. apply H. now apply I. Qed.

Lemma total_post {A} (P : Widget -> Prop) (Q Q' : A -> Widget -> Prop)
    (m : M A) :
  (forall a w, Q' a w -> Q a w) -> total P m Q' -> total P m Q.
Proof.
  intros I H w Pw. destruct (H w Pw) as (ev & a & w' & E & Qa).
  exists ev, a, w'. split; [exact E | now apply I].
Qed.

(** A computation that returns from every widget, and what is known
    whenever it returns. *)
Lemma total_hoare {A} (P : Widget -> Prop) (Q : A -> Widget -> Prop)
    (m : M A) :
  preserves (fun _ => tt) m -> hoare P m Q -> total P m Q.
Proof.
  intros R H w Pw. destruct (R w) as (ev & a & w' & E & _).
  exists ev, a, w'. split; [exact E|].
  specialize (H w Pw). now rewrite E in H.
Qed.

Lemma total_and {A} (P : Widget -> Prop) (Q Q' : A -> Widget -> Prop)
    (m : M A) :
  total P m Q -> hoare P m Q' -> total P m (fun a w => Q a w /\ Q' a w).
Proof.
  intros T H w Pw. destruct (T w Pw) as (ev & a & w' & E & Qa).
  exists ev, a, w'. split; [exact E|]. split; [exact Qa|].
  specialize (H w Pw). now rewrite E in H.
Qed.

(** ** The numbers of the layout stay in range *)

Lemma InUnit_0 : InUnit 0.
Proof. split; discriminate. Qed.

Lemma InUnit_1 : InUnit 1.
Proof. split; discriminate. Qed.

Lemma value_InUnit (a : Simple) (final : bool) :
  AnimationInUnit a ->
  InUnit (Animations.value a (if final then 1%Q else 0%Q)).
Proof.
  destruct a as [v|]; cbn; [auto|].
  intros _. destruct final; [apply InUnit_1 | apply InUnit_0].
Qed.

(** The height reported to [updateExpanding] is a part of the height the
    owner has set. *)
Lemma to_int_part (n : Z) (c : Q) :
  0 <= n -> InUnit c ->
  0 <= Float64.to_int (Float64.of_int n * c)%Q <= n.
Proof.
  intros N [C0 C1]. unfold Float64.to_int, Float64.of_int.
  destruct c as [a d]. unfold Qle in C0, C1. cbn in C0, C1 |- *.
  rewrite Z.mul_1_r in *.
  assert (A : 0 <= a) by lia.
  split; [apply quot_nonneg; nia|].
  pose proof (quot_bounds (n * a) (Z.pos d) ltac:(nia) ltac:(lia)).
  nia.
Qed.

Lemma reportedHeight_range (st : style.DialogsStoriesList) (w : Widget) :
  Sound st w -> 0 <= reportedHeight w <= _lastExpandedHeight w.
Proof.
  intros (H & _ & _ & C & _). unfold reportedHeight.
  apply to_int_part; [lia|].
  destruct (_expandCatchUpAnimation w); [exact C | apply InUnit_1].
Qed.

Lemma heights_ratio_InUnit (h H : Z) :
  0 < h <= H -> InUnit (Float64.of_int h / Float64.of_int H)%Q.
Proof.
  intros [P L]. unfold InUnit, Float64.of_int.
  assert (Hq : (0 < inject_Z H)%Q)
    by (change 0%Q with (inject_Z 0); rewrite <- Zlt_Qlt; lia).
  split.
  - apply Qle_shift_div_l; [exact Hq|]. rewrite Qmult_0_l.
    change 0%Q with (inject_Z 0). rewrite <- Zle_Qle. lia.
  - apply Qle_shift_div_r; [exact Hq|]. rewrite Qmult_1_l.
    now rewrite <- Zle_Qle.
Qed.

(** The ratio of a layout is between the two presentations. *)
Lemma computeLayout_ratio_InUnit (st : style.DialogsStoriesList)
    (w : Widget) (e : Q) :
  InUnit (_lastRatio w) -> InUnit e ->
  InUnit (Layout.ratio (computeLayout st e w)).
Proof.
  intros [L0 L1] [E0 E1]. unfold InUnit.
  rewrite computeLayout_ratio. unfold kFrictionRatio.
  set (r := _lastRatio w) in *.
  assert (0 <= r * e)%Q by (apply Qmult_le_0_compat; assumption).
  assert (0 <= r * (1 - e))%Q by (apply Qmult_le_0_compat; lra).
  lra.
Qed.

(** The pitch of a layout is positive. *)
Lemma computeLayout_single_positive (st : style.DialogsStoriesList)
    (w : Widget) (e : Q) :
  WellFormed st -> InUnit (_lastRatio w) -> InUnit e ->
  (0 < Layout.single (computeLayout st e w))%Q.
Proof.
  intros (_ & Shift & Pitch) L E.
  pose proof (computeLayout_ratio_InUnit st w e L E) as [R0 R1].
  pose proof (computeLayout_pitch st e w) as S.
  revert R0 R1 S. unfold computeLayout.
  cbn [Layout.single Layout.ratio Layout.singleFull].
  match goal with
  | |- (0 <= ?r)%Q -> _ => generalize r
  end.
  intros r R0 R1.
  match goal with
  | |- _ <= ?s -> _ => generalize s
  end.
  intros s S. unfold Float64.of_int.
  assert (Sq : (0 < inject_Z s)%Q)
    by (change 0%Q with (inject_Z 0); rewrite <- Zlt_Qlt; lia).
  assert (Tq : (0 < inject_Z (style.shift (style.small st)))%Q)
    by (change 0%Q with (inject_Z 0); now rewrite <- Zlt_Qlt).
  set (a := inject_Z (style.shift (style.small st))) in *.
  set (b := inject_Z s) in *.
  setoid_replace (a + (b - a) * r)%Q with (a * (1 - r) + b * r)%Q by ring.
  destruct (Qlt_le_dec r (1 # 2)) as [Lo | Hi].
  - assert (0 < a * (1 - r))%Q by (apply Qmult_lt_0_compat; lra).
    assert (0 <= b * r)%Q by (apply Qmult_le_0_compat; lra).
    lra.
  - assert (0 <= a * (1 - r))%Q by (apply Qmult_le_0_compat; lra).
    assert (0 < b * r)%Q by (apply Qmult_lt_0_compat; lra).
    lra.
Qed.

Lemma keeps_run {X A} (f : Widget -> X) (m : M A) (w w' : Widget)
    (ev : list Event) (a : A) :
  keeps f m -> m w = mkRun ev (Returned a w') -> f w' = f w.
Proof. intros K E. specialize (K w). now rewrite E in K. Qed.

(** What [m] leaves untouched it leaves as it was. *)
Lemma total_value {X A} (f : Widget -> X) (v : X) (P : Widget -> Prop)
    (Q : A -> Widget -> Prop) (m : M A) :
  keeps f m -> total P m Q ->
  total (fun w => P w /\ f w = v) m (fun a w => Q a w /\ f w = v).
Proof.
  intros K T w [Pw F]. destruct (T w Pw) as (ev & a & w' & E & Qa).
  exists ev, a, w'. split; [exact E|]. split; [exact Qa|].
  now rewrite (keeps_run f m w w' ev a K E).
Qed.

Lemma hit_defined (st : style.DialogsStoriesList) (layout : Layout.t)
    (pointer : Z) :
  (0 < Layout.single layout)%Q -> exists s, hit st layout pointer = Some s.
Proof.
  intro P. unfold hit, infiniteIndex.
  destruct (Float64.ltb _ _); [eexists; reflexivity|].
  unfold Float64.div. destruct (Qeq_bool (Layout.single layout) 0) eqn:E.
  - apply Qeq_bool_iff in E. rewrite E in P.
    exfalso. apply (Qlt_irrefl 0 P).
  - eexists. reflexivity.
Qed.

(** What is selected is no item, or an item of the window that exists. *)
Lemma hit_in_range (st : style.DialogsStoriesList) (layout : Layout.t)
    (pointer s : Z) :
  0 <= Layout.startIndexFull layout ->
  0 <= Layout.startIndexSmall layout ->
  hit st layout pointer = Some s ->
  s = -1 \/ 0 <= s < Layout.itemsCount layout.
Proof.
  intros F S. unfold hit.
  destruct (infiniteIndex st layout pointer) as [c|]; [|discriminate].
  cbn [option_map]. intro E. injection E as <-. unfold selectedFor.
  destruct (_ || _) eqn:O; [now left | right].
  apply orb_false_iff in O. destruct O as [O1 O2].
  apply Z.ltb_ge in O1. apply Z.leb_gt in O2.
  assert (0 <= startIndex layout)
    by (unfold startIndex; now destruct (activateFull layout)).
  lia.
Qed.

Section Safety.

Variable st : style.DialogsStoriesList.
Hypothesis WF : WellFormed st.
Variable RightToLeft : bool.
Variable startDragDistance : Z.
Variable origin : QPoint.t.

Lemma Sound_frame (w w' : Widget) :
  gesture w' = gesture w -> Sound st w -> Sound st w'.
Proof.
  unfold gesture, Sound. intro E. injection E as -> -> -> -> -> ->. auto.
Qed.

Lemma total_untouched {A} (m : M A) :
  preserves gesture m -> total (Sound st) m (fun _ => Sound st).
Proof.
  intros P w S. destruct (P w) as (ev & a & w' & E & G).
  exists ev, a, w'. split; [exact E|]. now apply (Sound_frame w).
Qed.

(** Splits [Sound] into its parts and closes those that are as they
    were. *)
Ltac sound_parts :=
  split; [|split; [|split; [|split]]]; try assumption.

Lemma Sound_expandedTo (b : bool) (w : Widget) :
  Sound st w -> Sound st (expandedTo b w).
Proof.
  intro S. unfold expandedTo.
  destruct (Bool.eqb _ _); [exact S|].
  destruct S as (H & R & A & C & D). sound_parts.
  cbn [set_expandedAnimation set_expanded _expandedAnimation].
  destruct (_expandedAnimation w); cbn; [exact A|].
  destruct b; [apply InUnit_0 | apply InUnit_1].
Qed.

Lemma requestExpanded_secure (b : bool) :
  total (Sound st) (requestExpanded b) (fun _ => Sound st).
Proof.
  intros w S. rewrite requestExpanded_run.
  eexists. eexists. eexists. split; [reflexivity|].
  now apply Sound_expandedTo.
Qed.

(** The height [computeLayout()] reports keeps the contract of
    [updateExpanding]. *)
Lemma reportedHeight_contract (w : Widget) :
  Sound st w ->
  contract (reportedHeight w) (style.height (style.full st)).
Proof.
  intro S. pose proof (reportedHeight_range st w S) as RH.
  destruct S as (H & _). unfold contract. lia.
Qed.

Lemma updateExpanding_secure (w : Widget) :
  Sound st w ->
  exists ev w',
    updateExpanding (reportedHeight w) (style.height (style.full st)) w
    = mkRun ev (Returned tt w')
    /\ Sound st w'.
Proof.
  intro S. pose proof (reportedHeight_range st w S) as RH.
  pose proof (reportedHeight_contract w S) as Con.
  destruct (expandingRatio_finite _ _ Con) as (ratio & E & Z0 & NZ).
  assert (U : InUnit ratio).
  { destruct (Z.eq_dec (reportedHeight w) 0) as [Zr | Nr].
    - rewrite (Z0 Zr). apply InUnit_0.
    - destruct (NZ Nr) as [_ ->]. apply heights_ratio_InUnit.
      destruct S as (H & _). lia. }
  rewrite (updateExpanding_run _ _ w ratio Con E).
  destruct (Float64.eqb _ _).
  - now exists [], w.
  - assert (S1 : Sound st (set_lastRatio ratio w))
      by (destruct S as (H & R & A & C & D); sound_parts).
    destruct (hysteresis _ _ _).
    + rewrite requestExpanded_run. eexists. eexists.
      split; [reflexivity|]. now apply Sound_expandedTo.
    + eexists. eexists. split; [reflexivity | exact S1].
Qed.

Lemma computeLayoutCurrent_secure (w : Widget) :
  Sound st w ->
  exists ev w',
    computeLayoutCurrent st w
    = mkRun ev (Returned (layoutNow st w') w')
    /\ Sound st w'.
Proof.
  intro S. destruct (updateExpanding_secure w S) as (ev & w' & E & S').
  exists ev, w'. split; [|exact S'].
  unfold computeLayoutCurrent. rewrite bind_get. fold (reportedHeight w).
  rewrite (bind_returned _ _ _ _ _ _ E), bind_get.
  cbn [ret fired outcome]. now rewrite app_nil_r.
Qed.

Lemma computeLayout_starts (e : Q) (w : Widget) :
  0 <= Layout.startIndexFull (computeLayout st e w)
  /\ 0 <= Layout.startIndexSmall (computeLayout st e w).
Proof.
  destruct WF as (_ & _ & Pitch).
  pose proof (computeLayout_pitch st e w) as S. revert S.
  unfold computeLayout.
  cbn [Layout.startIndexFull Layout.startIndexSmall Layout.singleFull].
  match goal with
  | |- _ <= ?s -> _ => generalize s
  end.
  intros s S.
  match goal with
  | |- 0 <= ?q /\ _ => assert (Q0 : 0 <= q) by (apply quot_nonneg; lia)
  end.
  split; [exact Q0|].
  destruct (_ && _); lia.
Qed.

Lemma layoutNow_single (w : Widget) :
  Sound st w -> (0 < Layout.single (layoutNow st w))%Q.
Proof.
  intros (_ & R & A & _). unfold layoutNow.
  apply computeLayout_single_positive; [exact WF | exact R|].
  now apply value_InUnit.
Qed.

Lemma Sound_select (s : Z) (w : Widget) :
  Sound st w -> Sound st (select s w).
Proof.
  destruct (select_shape s w) as (c & ->). now apply Sound_frame.
Qed.

(** [updateSelected] returns, and what it selects without a pressed item
    is no item or an existing one. *)
Lemma updateSelected_secure (w : Widget) :
  Sound st w ->
  exists ev w',
    updateSelected st origin w = mkRun ev (Returned tt w')
    /\ Sound st w'
    /\ (_pressed w < 0 -> SelectionInRange w').
Proof.
  intro S. destruct (Z_lt_le_dec (_pressed w) 0) as [P | P].
  - destruct (computeLayoutCurrent_secure w S) as (ev & w1 & L & S1).
    rewrite (updateSelected_run st origin w w1 ev _ P L).
    destruct (hit_defined st (layoutNow st w1)
                (QPoint.x (mapFromGlobal origin w (_lastMousePosition w)))
                (layoutNow_single w1 S1)) as (s & Hit).
    rewrite Hit. exists ev, (select s w1). split; [reflexivity|].
    split; [now apply Sound_select|]. intros _.
    destruct (computeLayout_starts
                (Animations.value (_expandedAnimation w1)
                   (if _expanded w1 then 1%Q else 0%Q)) w1) as [F Sm].
    pose proof (hit_in_range st _ _ s F Sm Hit) as R.
    unfold SelectionInRange. rewrite select_selected.
    destruct (select_shape s w1) as (c & ->). exact R.
  - exists [], w. unfold updateSelected. rewrite bind_get.
    replace (0 <=? _pressed w) with true by (symmetry; now apply Z.leb_le).
    split; [reflexivity|]. split; [exact S | lia].
Qed.

Lemma updateSelected_sound :
  total (Sound st) (updateSelected st origin) (fun _ => Sound st).
Proof.
  intros w S. destruct (updateSelected_secure w S) as (ev & w' & E & S' & _).
  now exists ev, tt, w'.
Qed.

Lemma checkLoadMore_sound :
  total (Sound st) checkLoadMore (fun _ => Sound st).
Proof. apply total_untouched. returning. Qed.

Lemma checkDragging_sound :
  total (Sound st) (checkDragging RightToLeft) (fun _ => Sound st).
Proof.
  unfold checkDragging. apply total_read. intros w0 S.
  destruct (_dragging w0) eqn:D; [|apply total_ret; now intros w ->].
  destruct (_mouseDownPosition w0) eqn:Down.
  2:{ destruct S as (_ & _ & _ & _ & N). now destruct (N D). }
  destruct (negb _); [|apply total_ret; now intros w ->].
  apply (total_bind _ (fun _ => Sound st));
    [|intros _; apply checkLoadMore_sound].
  apply total_modify. intros w ->. revert S. now apply Sound_frame.
Qed.

(** [finishDragging] leaves no drag behind. *)
Lemma finishDragging_sound :
  total (Sound st) (finishDragging st RightToLeft origin)
    (fun _ w => Sound st w /\ _dragging w = false).
Proof.
  unfold finishDragging. apply total_read. intros w0 S.
  destruct (_dragging w0) eqn:D; cbn [negb].
  - apply (total_bind _ (fun _ => Sound st)).
    { apply (total_weaken _ (Sound st)); [now intros w ->|].
      apply checkDragging_sound. }
    intros _.
    apply (total_bind _ (fun _ w => Sound st w /\ _dragging w = false)).
    { apply total_modify. intros w (H & R & A & C & _).
      split; [|reflexivity]. sound_parts. discriminate. }
    intros _.
    apply (total_bind _ (fun _ w => Sound st w /\ _dragging w = false)).
    { apply (total_value _dragging); [untouched|].
      apply updateSelected_sound. }
    intros _. apply total_ret. auto.
  - apply total_ret. now intros w ->.
Qed.

Lemma wheelEvent_sound (e : QWheelEvent) :
  total (Sound st) (wheelEvent st RightToLeft origin e)
    (fun _ => Sound st).
Proof.
  unfold wheelEvent. apply total_read. intros w0 S.
  destruct (_ || _); [apply total_ret; now intros w ->|].
  cbv zeta.
  apply (total_bind _ (fun _ => Sound st)); [|intros _; now apply total_ret].
  apply (total_weaken _ (Sound st)); [now intros w ->|].
  destruct (negb _); [|now apply total_ret].
  apply (total_bind _ (fun _ => Sound st));
    [apply requestExpanded_secure | intros _].
  apply (total_bind _ (fun _ => Sound st)).
  { apply total_untouched. returning. }
  intros _.
  apply (total_bind _ (fun _ => Sound st));
    [apply updateSelected_sound | intros _; apply checkLoadMore_sound].
Qed.

Lemma mousePressEvent_sound (e : QMouseEvent) :
  total (Sound st) (mousePressEvent st origin e) (fun _ => Sound st).
Proof.
  unfold mousePressEvent. apply total_read. intros w0 S.
  apply (total_weaken _ (Sound st)); [now intros w ->|].
  apply (total_bind _ (fun _ => Sound st)).
  { destruct (button e); [|now apply total_ret].
    destruct (State_eqb _ _).
    - apply (total_bind _ (fun _ => Sound st));
        [apply requestExpanded_secure | intros _; now apply total_ret].
    - destruct (negb _); now apply total_ret. }
  intros [|]; [|now apply total_ret].
  apply (total_bind _ (fun _ => Sound st)).
  { apply total_untouched. returning. }
  intros _.
  apply (total_bind _ (fun _ => Sound st));
    [apply updateSelected_sound | intros _].
  apply (total_bind _ (fun _ => Sound st)).
  { apply total_modify. intros w (H & R & A & C & _).
    sound_parts. discriminate. }
  intros _. apply total_untouched. returning.
Qed.

Lemma mouseMoveEvent_sound (e : QMouseEvent) :
  total (Sound st)
    (mouseMoveEvent st RightToLeft startDragDistance origin e)
    (fun _ => Sound st).
Proof.
  unfold mouseMoveEvent.
  apply (total_bind _ (fun _ => Sound st)).
  { apply total_untouched. returning. }
  intros _.
  apply (total_bind _ (fun _ => Sound st));
    [apply updateSelected_sound | intros _].
  apply total_read. intros w0 S.
  apply (total_bind _ (fun _ => Sound st));
    [|intros _; apply checkDragging_sound].
  destruct (_mouseDownPosition w0) eqn:Down;
    [|apply total_ret; now intros w ->].
  destruct (_ && _ && _); [|apply total_ret; now intros w ->].
  apply (total_bind _ (fun _ => Sound st)).
  { apply total_modify. intros w ->. destruct S as (H & R & A & C & _).
    sound_parts.
    cbn [set_dragging _mouseDownPosition]. rewrite Down. discriminate. }
  intros _. apply total_untouched. returning.
Qed.

Lemma nth_error_selected (w : Widget) :
  SelectionInRange w ->
  selected_below_size w = true ->
  exists item,
    nth_error (Data.items (_data w)) (Z.to_nat (_selected w)) = Some item.
Proof.
  unfold SelectionInRange, selected_below_size, items_size.
  intros R B. apply Z.ltb_lt in B.
  assert (L : (Z.to_nat (_selected w)
               < List.length (Data.items (_data w)))%nat).
  { destruct R as [E | R]; [rewrite E in * | lia].
    change (Z.to_nat (-1)) with 0%nat.
    assert (0 <= (-1) mod 2 ^ 64) by (apply Z.mod_pos_bound; lia).
    set (m := (-1) mod 2 ^ 64) in *. lia. }
  apply nth_error_Some in L.
  destruct (nth_error _ _) as [item|]; [now exists item | contradiction].
Qed.

Lemma mouseReleaseEvent_sound (e : QMouseEvent) :
  total (Sound st) (mouseReleaseEvent st RightToLeft origin e)
    (fun _ => Sound st).
Proof.
  unfold mouseReleaseEvent.
  apply (total_bind _ (fun _ => Sound st)).
  { apply total_untouched. returning. }
  intros _. apply total_read. intros w0 S. cbv zeta.
  apply (total_bind _ (fun _ w => Sound st w /\ _pressed w = -1)).
  { apply total_modify. intros w ->. split; [|reflexivity].
    revert S. now apply Sound_frame. }
  intros _.
  apply (total_bind _
           (fun _ w =>
              (Sound st w /\ _dragging w = false) /\ _pressed w = -1)).
  { apply (total_value _pressed); [untouched|].
    apply finishDragging_sound. }
  intros dragged.
  apply (total_bind _ (fun _ w => Sound st w /\ _dragging w = false)).
  2:{ intros _. apply total_modify. intros w [(H & R & A & C & _) D].
      sound_parts. cbn [set_mouseDownPosition _dragging].
      rewrite D. discriminate. }
  destruct dragged; [apply total_ret; tauto|].
  apply (total_bind _
           (fun _ w =>
              (Sound st w /\ SelectionInRange w) /\ _dragging w = false)).
  { intros w [[S1 D1] P1].
    destruct (updateSelected_secure w S1) as (ev & w' & E & S' & R).
    exists ev, tt, w'. split; [exact E|].
    split; [split; [exact S' | apply R; lia]|].
    rewrite <- D1.
    apply (keeps_run _dragging (updateSelected st origin) w w' ev tt);
      [untouched | exact E]. }
  intros _. apply total_read. intros w1 [[S1 R1] D1].
  destruct (_selected w1 =? _pressed w0);
    [|apply total_ret; now intros w ->].
  destruct (negb (_expanded w1)).
  { apply (total_weaken _ (fun w => Sound st w /\ _dragging w = false));
      [now intros w ->|].
    apply (total_value _dragging); [untouched|].
    apply requestExpanded_secure. }
  destruct (selected_below_size w1) eqn:B;
    [|apply total_ret; now intros w ->].
  destruct (nth_error_selected w1 R1 B) as (item & ->).
  apply total_fire. now intros w ->.
Qed.

Lemma upholds_untouched {A} (m : M A) :
  keeps gesture m -> upholds (Sound st) m.
Proof. intro K. apply (hoare_keeps gesture); [exact K|]. apply Sound_frame. Qed.

Lemma setExpandedHeight_upholds (height : Z) (momentum : bool) :
  upholds (Sound st) (setExpandedHeight st height momentum).
Proof.
  unfold setExpandedHeight, upholds. apply hoare_read. intros w0 S.
  destruct WF as (H0 & _).
  pose proof (clamp_within height 0 (style.height (style.full st)) H0)
    as C.
  set (h := clamp height 0 (style.height (style.full st))) in *.
  destruct (_lastExpandedHeight w0 =? h);
    [apply hoare_ret; now intros w ->|].
  destruct (momentum && _expandIgnored w0);
    [apply hoare_ret; now intros w ->|].
  destruct (momentum && (0 <? h) && (_lastExpandedHeight w0 =? 0)).
  { apply hoare_modify. intros w ->. revert S. now apply Sound_frame. }
  apply (hoare_weaken _ (Sound st)); [now intros w ->|].
  apply (hoare_bind _ (fun _ => Sound st)).
  { destruct (negb momentum && _expandIgnored w0 && (0 <? h)).
    - apply (hoare_bind _ (fun _ => Sound st)).
      + apply hoare_modify. intros w. now apply Sound_frame.
      + intros _. apply hoare_modify. intros w (H & R & A & Cu & D).
        sound_parts.
        cbn [set_expandCatchUpAnimation _expandCatchUpAnimation].
        destruct (_expandCatchUpAnimation w); cbn;
          [exact Cu | apply InUnit_0].
    - destruct ((h =? 0) && _).
      + apply hoare_modify. intros w (H & R & A & Cu & D).
        sound_parts. exact I.
      + apply hoare_ret. auto. }
  intros _.
  apply (hoare_bind _ (fun _ => Sound st)).
  { apply hoare_modify. intros w (H & R & A & Cu & D). sound_parts. }
  intros _.
  apply (hoare_bind _ (fun _ => Sound st)).
  { apply upholds_untouched. untouched. }
  intros [|]; [apply hoare_ret; auto|].
  apply upholds_untouched. untouched.
Qed.

Lemma expandedAnimationTick_upholds (v : Simple) :
  AnimationInUnit v -> upholds (Sound st) (expandedAnimationTick st v).
Proof.
  intro V. unfold expandedAnimationTick, upholds.
  apply hoare_read. intros w0 S.
  destruct (Animations.animating _); [|apply hoare_ret; now intros w ->].
  apply (hoare_bind _ (fun _ => Sound st)).
  { apply hoare_modify. intros w ->. destruct S as (H & R & A & Cu & D).
    sound_parts. }
  intros _. apply (hoare_bind _ (fun _ => Sound st)).
  { apply upholds_untouched. untouched. }
  intros _. apply hoare_fire. auto.
Qed.

Lemma expandCatchUpTick_upholds (v : Simple) :
  AnimationInUnit v -> upholds (Sound st) (expandCatchUpTick st v).
Proof.
  intro V. unfold expandCatchUpTick, upholds.
  apply hoare_read. intros w0 S.
  destruct (Animations.animating _); [|apply hoare_ret; now intros w ->].
  apply (hoare_bind _ (fun _ => Sound st)).
  { apply hoare_modify. intros w ->. destruct S as (H & R & A & Cu & D).
    sound_parts. }
  intros _. apply (hoare_bind _ (fun _ => Sound st)).
  { apply upholds_untouched. untouched. }
  intros _. apply hoare_ret. auto.
Qed.

(** Every input is handled: from a sound widget the handler returns and
    leaves a sound widget. *)
Lemma handle_sound (i : Input) :
  tickInUnit i ->
  total (Sound st) (handle st RightToLeft startDragDistance origin i)
    (fun _ => Sound st).
Proof.
  destruct i; cbn [handle tickInUnit]; intro T.
  - apply (total_bind _ (fun _ => Sound st));
      [apply wheelEvent_sound | intros _; now apply total_ret].
  - apply mousePressEvent_sound.
  - apply mouseMoveEvent_sound.
  - apply mouseReleaseEvent_sound.
  - apply total_untouched. returning.
  - apply total_untouched. returning.
  - apply total_hoare; [returning | apply setExpandedHeight_upholds].
  - apply total_untouched. returning.
  - apply total_untouched. returning.
  - apply total_hoare;
      [returning | now apply expandedAnimationTick_upholds].
  - apply total_hoare; [returning | now apply expandCatchUpTick_upholds].
Qed.

Lemma handleAll_sound (inputs : list Input) :
  Forall tickInUnit inputs ->
  total (Sound st) (handleAll st RightToLeft startDragDistance origin inputs)
    (fun _ => Sound st).
Proof.
  induction 1 as [|i inputs T _ IH]; cbn [handleAll].
  - now apply total_ret.
  - apply (total_bind _ (fun _ => Sound st));
      [now apply handle_sound | intros _; exact IH].
Qed.

End Safety.

Lemma Sound_initial (st : style.DialogsStoriesList) :
  WellFormed st -> Sound st initial.
Proof.
  intros (H & _). unfold Sound. cbn.
  split; [lia|]. split; [apply InUnit_0|].
  split; [exact I|]. split; [exact I | discriminate].
Qed.

(** X9: with a style whose full height is not negative and whose cells
    have positive widths, and with animation clocks that report values
    between 0 and 1, the new widget handles every sequence of inputs: no
    handler stops at the [Expects] of [updateExpanding], divides by a
    zero pitch in [updateSelected], reads the empty [_mouseDownPosition]
    in [checkDragging] or indexes [_data.items] out of range in
    [mouseReleaseEvent]. *)
Theorem handlers_never_stop (st : style.DialogsStoriesList) (rtl : bool)
    (startDrag : Z) (origin : QPoint.t) (inputs : list Input) :
  WellFormed st ->
  Forall tickInUnit inputs ->
  exists events w,
    handleAll st rtl startDrag origin inputs initial
    = mkRun events (Returned tt w).
Proof.
  intros WF T.
  destruct (handleAll_sound st WF rtl startDrag origin inputs T initial
              (Sound_initial st WF)) as (ev & [] & w & E & _).
  now exists ev, w.
Qed.

Lemma handlers_never_stop_witness :
  WellFormed Sample.st
  /\ Forall tickInUnit (Sample.hovering 100)
  /\ exists events w,
       handleAll Sample.st false 10 Sample.origin (Sample.hovering 100)
         initial
       = mkRun events (Returned tt w).
Proof.
  assert (WF : WellFormed Sample.st)
    by (split; [discriminate | split; reflexivity]).
  assert (T : Forall tickInUnit (Sample.hovering 100))
    by (repeat constructor).
  split; [exact WF|]. split; [exact T|].
  exact (handlers_never_stop Sample.st false 10 Sample.origin
           (Sample.hovering 100) WF T).
Defined.

(** X10: under the same conditions, after any sequence of inputs the
    stored expansion ratio is within [0, 1], and so is the ratio of the
    layout for every blend ratio within [0, 1]; the pitch of that layout
    is positive. *)
Theorem ratios_within_unit (st : style.DialogsStoriesList) (rtl : bool)
    (startDrag : Z) (origin : QPoint.t) (inputs : list Input)
    (w : Widget) (e : Q) :
  WellFormed st ->
  Forall tickInUnit inputs ->
  after (handleAll st rtl startDrag origin inputs initial) = Some w ->
  (0 <= e <= 1)%Q ->
  (0 <= _lastRatio w <= 1)%Q
  /\ (0 <= Layout.ratio (computeLayout st e w) <= 1)%Q
  /\ (0 < Layout.single (computeLayout st e w))%Q.
Proof.
  intros WF T A E.
  destruct (handleAll_sound st WF rtl startDrag origin inputs T initial
              (Sound_initial st WF)) as (ev & [] & w' & R & S).
  rewrite R in A. injection A as <-.
  destruct S as (_ & L & _).
  split; [exact L|]. split.
  - now apply computeLayout_ratio_InUnit.
  - now apply computeLayout_single_positive.
Qed.

Lemma ratios_within_unit_witness :
  WellFormed Sample.st
  /\ Forall tickInUnit Sample.scrolling
  /\ after (handleAll Sample.st false 10 Sample.origin Sample.scrolling
              initial)
     = Some Sample.scrolled
  /\ (0 <= 1 # 2 <= 1)%Q
  /\ (0 <= _lastRatio Sample.scrolled <= 1)%Q.
Proof.
  assert (WF : WellFormed Sample.st)
    by (split; [discriminate | split; reflexivity]).
  assert (T : Forall tickInUnit Sample.scrolling)
    by (repeat constructor).
  assert (A : after (handleAll Sample.st false 10 Sample.origin
                       Sample.scrolling initial)
              = Some Sample.scrolled) by (vm_compute; reflexivity).
  assert (E : (0 <= 1 # 2 <= 1)%Q) by (split; discriminate).
  split; [exact WF|]. split; [exact T|]. split; [exact A|].
  split; [exact E|].
  exact (proj1 (ratios_within_unit Sample.st false 10 Sample.origin
                  Sample.scrolling Sample.scrolled (1 # 2) WF T A E)).
Defined.

(** ** What the handlers fire *)

Section Emits.

Variable allowed : Event -> Prop.

Lemma emits_ret {A} (a : A) : emits allowed (ret a).
Proof. intro w. constructor. Qed.

Lemma emits_get : emits allowed get.
Proof. intro w. constructor. Qed.

Lemma emits_modify (g : Widget -> Widget) : emits allowed (modify g).
Proof. intro w. constructor. Qed.

Lemma emits_fail {A} (f : Failure) : emits allowed (@fail A f).
Proof. intro w. constructor. Qed.

Lemma emits_fire (e : Event) : allowed e -> emits allowed (fire e).
Proof. intros H w. now repeat constructor. Qed.

Lemma emits_bind {A B} (m : M A) (k : A -> M B) :
  emits allowed m -> (forall a, emits allowed (k a)) ->
  emits allowed (bind m k).
Proof.
  intros Hm Hk w. specialize (Hm w). unfold bind.
  destruct (outcome (m w)) as [a w'|]; cbn [fired]; [|exact Hm].
  apply Forall_app. split; [exact Hm | apply Hk].
Qed.

Hypothesis may_click : forall id, allowed (clicks id).
Hypothesis may_toggle : forall b, allowed (toggleExpandedRequests b).
Hypothesis may_load : allowed loadMoreRequests.
Hypothesis may_change : allowed collapsedGeometryChanged.

Ltac emitting :=
  repeat lazymatch goal with
  | H : emits allowed ?m |- emits allowed ?m => exact H
  | |- emits _ (bind _ _) => apply emits_bind; [|intro]
  | |- emits _ (ret _) => apply emits_ret
  | |- emits _ get => apply emits_get
  | |- emits _ (modify _) => apply emits_modify
  | |- emits _ (fail _) => apply emits_fail
  | |- emits _ (fire (clicks _)) => apply emits_fire, may_click
  | |- emits _ (fire (toggleExpandedRequests _)) =>
      apply emits_fire, may_toggle
  | |- emits _ (fire loadMoreRequests) => apply emits_fire, may_load
  | |- emits _ (fire collapsedGeometryChanged) =>
      apply emits_fire, may_change
  | |- emits _ (if ?c then _ else _) => destruct c
  | |- emits _ (match ?s with _ => _ end) => destruct s
  | |- emits ?g (let x := ?v in @?b x) => change (emits g (b v)); cbv beta
  end.

Variable st : style.DialogsStoriesList.
Variable RightToLeft : bool.
Variable startDragDistance : Z.
Variable origin : QPoint.t.

Lemma checkLoadMore_emits : emits allowed checkLoadMore.
Proof. unfold checkLoadMore. emitting. Qed.

Lemma requestExpanded_emits b : emits allowed (requestExpanded b).
Proof. unfold requestExpanded. emitting. Qed.

Lemma updateScrollMax_emits : emits allowed (updateScrollMax st).
Proof. pose proof checkLoadMore_emits. unfold updateScrollMax. emitting. Qed.

Lemma setGeometry_emits r : emits allowed (setGeometry st r).
Proof.
  pose proof updateScrollMax_emits. unfold setGeometry, resizeEvent.
  emitting.
Qed.

Lemma updateGeometry_emits : emits allowed (updateGeometry st).
Proof. unfold updateGeometry. emitting; apply setGeometry_emits. Qed.

Lemma setState_emits s : emits allowed (setState st s).
Proof. pose proof updateGeometry_emits. unfold setState. emitting. Qed.

Lemma checkForFullState_emits : emits allowed (checkForFullState st).
Proof.
  pose proof (setState_emits Full). unfold checkForFullState. emitting.
Qed.

Lemma setLayoutConstraints_emits p a r :
  emits allowed (setLayoutConstraints st p a r).
Proof.
  pose proof updateGeometry_emits. unfold setLayoutConstraints. emitting.
Qed.

Lemma showContent_emits c : emits allowed (showContent st c).
Proof.
  pose proof updateGeometry_emits. pose proof updateScrollMax_emits.
  unfold showContent. emitting.
Qed.

Lemma setExpandedHeight_emits height momentum :
  emits allowed (setExpandedHeight st height momentum).
Proof.
  pose proof checkForFullState_emits.
  unfold setExpandedHeight. emitting; apply setState_emits.
Qed.

Lemma expandedAnimationTick_emits v :
  emits allowed (expandedAnimationTick st v).
Proof.
  pose proof checkForFullState_emits. unfold expandedAnimationTick.
  emitting.
Qed.

Lemma expandCatchUpTick_emits v : emits allowed (expandCatchUpTick st v).
Proof.
  pose proof checkForFullState_emits. unfold expandCatchUpTick. emitting.
Qed.

Lemma updateExpanding_emits h H : emits allowed (updateExpanding h H).
Proof.
  unfold updateExpanding. emitting. apply requestExpanded_emits.
Qed.

Lemma computeLayoutCurrent_emits : emits allowed (computeLayoutCurrent st).
Proof.
  unfold computeLayoutCurrent. emitting. apply updateExpanding_emits.
Qed.

Lemma updateSelected_emits : emits allowed (updateSelected st origin).
Proof.
  pose proof computeLayoutCurrent_emits. unfold updateSelected. emitting.
Qed.

Lemma checkDragging_emits : emits allowed (checkDragging RightToLeft).
Proof. pose proof checkLoadMore_emits. unfold checkDragging. emitting. Qed.

Lemma finishDragging_emits :
  emits allowed (finishDragging st RightToLeft origin).
Proof.
  pose proof checkDragging_emits. pose proof updateSelected_emits.
  unfold finishDragging. emitting.
Qed.

Lemma wheelEvent_emits e : emits allowed (wheelEvent st RightToLeft origin e).
Proof.
  pose proof (requestExpanded_emits true). pose proof updateSelected_emits.
  pose proof checkLoadMore_emits. unfold wheelEvent. emitting.
Qed.

Lemma mousePressEvent_emits e : emits allowed (mousePressEvent st origin e).
Proof.
  pose proof (requestExpanded_emits true). pose proof updateSelected_emits.
  unfold mousePressEvent. emitting.
Qed.

Lemma mouseMoveEvent_emits e :
  emits allowed (mouseMoveEvent st RightToLeft startDragDistance origin e).
Proof.
  pose proof updateSelected_emits. pose proof checkDragging_emits.
  unfold mouseMoveEvent. emitting.
Qed.

Lemma mouseReleaseEvent_emits e :
  emits allowed (mouseReleaseEvent st RightToLeft origin e).
Proof.
  pose proof (requestExpanded_emits true). pose proof updateSelected_emits.
  pose proof finishDragging_emits. unfold mouseReleaseEvent. emitting.
Qed.

End Emits.

(** X11: which events an input can fire.  A click is fired by a release
    only; a request to expand or to collapse by the wheel and the pointer
    only, never by the height, the content or the geometry the owner
    sets; [entered] by the pointer entering; the change of the collapsed
    geometry by the ticks of the expansion animation; and a press never
    asks for more stories. *)
Theorem handle_fires_only (st : style.DialogsStoriesList) (rtl : bool)
    (startDrag : Z) (origin : QPoint.t) (i : Input) (w : Widget) :
  Forall (mayFire i) (fired (handle st rtl startDrag origin i w)).
Proof.
  revert w. change (emits (mayFire i) (handle st rtl startDrag origin i)).
  destruct i; cbn [handle].
  - apply emits_bind; [|intro; apply emits_ret].
    apply wheelEvent_emits; intros; exact I.
  - apply mousePressEvent_emits; intros; exact I.
  - apply mouseMoveEvent_emits; intros; exact I.
  - apply mouseReleaseEvent_emits; intros; exact I.
  - apply setGeometry_emits; intros; exact I.
  - apply showContent_emits; intros; exact I.
  - apply setExpandedHeight_emits; intros; exact I.
  - apply setLayoutConstraints_emits; intros; exact I.
  - apply emits_fire. exact I.
  - apply expandedAnimationTick_emits; intros; exact I.
  - apply expandCatchUpTick_emits; intros; exact I.
Qed.

(** *** The end of a drag *)

Lemma finishDragging_dragged (st : style.DialogsStoriesList) (rtl : bool)
    (origin : QPoint.t) :
  hoare (fun w => _dragging w = true) (finishDragging st rtl origin)
    (fun dragged w => dragged = true /\ _dragging w = false).
Proof.
  unfold finishDragging. apply hoare_read. intros w0 D. rewrite D.
  cbn [negb].
  apply (hoare_bind _ (fun _ _ => True)); [apply hoare_true | intros _].
  apply (hoare_bind _ (fun _ w => _dragging w = false));
    [now apply hoare_modify | intros _].
  apply (hoare_bind _ (fun _ w => _dragging w = false)).
  - apply hoare_value. untouched.
  - intros _. apply hoare_ret. auto.
Qed.

(** X12: the release that ends a drag fires no click: it can only ask
    for more stories or for a change of the expansion, and it leaves the
    widget without a drag, a pressed item or a press position. *)
Theorem drag_release_fires_no_click (st : style.DialogsStoriesList)
    (rtl : bool) (origin : QPoint.t) (e : QMouseEvent) (w : Widget) :
  _dragging w = true ->
  Forall scrollingEvent (fired (mouseReleaseEvent st rtl origin e w))
  /\ forall w',
       after (mouseReleaseEvent st rtl origin e w) = Some w' ->
       _dragging w' = false
       /\ _pressed w' = -1
       /\ _mouseDownPosition w' = None.
Proof.
  intro D. unfold mouseReleaseEvent.
  rewrite bind_modify, bind_get. cbv zeta. rewrite bind_modify.
  set (w0 := set_pressed (-1)
               (set_lastMousePosition (globalPos e) w)).
  pose proof (finishDragging_dragged st rtl origin w0 D) as Dragged.
  pose proof (finishDragging_emits scrollingEvent (fun _ => I) I
                st rtl origin w0) as Fired.
  pose proof (finishDragging_untouched _pressed
                ltac:(reflexivity) ltac:(reflexivity) ltac:(reflexivity)
                ltac:(reflexivity) ltac:(reflexivity) ltac:(reflexivity)
                ltac:(reflexivity) st rtl origin w0) as Pressed.
  destruct (finishDragging st rtl origin w0) as [ev [dragged w1|f]] eqn:Fin;
    cbn [outcome fired] in Dragged, Fired, Pressed.
  - rewrite (bind_returned _ _ _ _ _ _ Fin).
    destruct Dragged as [-> D1]. rewrite bind_ret.
    cbn [modify fired outcome after]. rewrite app_nil_r.
    split; [exact Fired|].
    intros w' E. injection E as <-.
    cbn [set_mouseDownPosition _dragging _pressed _mouseDownPosition].
    rewrite D1, Pressed. repeat split.
  - rewrite (bind_stopped _ _ _ _ _ Fin).
    split; [exact Fired | discriminate].
Qed.

Lemma drag_release_fires_no_click_witness :
  _dragging Scene.dragging = true
  /\ Forall scrollingEvent
       (fired (mouseReleaseEvent Sample.st false Sample.origin
                 (Scene.pressAt 60) Scene.dragging))
  /\ forall w',
       after (mouseReleaseEvent Sample.st false Sample.origin
                (Scene.pressAt 60) Scene.dragging)
       = Some w' ->
       _dragging w' = false
       /\ _pressed w' = -1
       /\ _mouseDownPosition w' = None.
Proof.
  split; [reflexivity|].
  exact (drag_release_fires_no_click Sample.st false Sample.origin
           (Scene.pressAt 60) Scene.dragging eq_refl).
Defined.

(** ** Wheel and drag *)

(** X13: after any sequence of inputs to the new widget, an empty content
    included, the scroll offset is within [0, _scrollLeftMax]. *)
Theorem scroll_within_stored_maximum (st : style.DialogsStoriesList)
    (rtl : bool) (startDrag : Z) (origin : QPoint.t)
    (inputs : list Input) (w : Widget) :
  after (handleAll st rtl startDrag origin inputs initial) = Some w ->
  0 <= _scrollLeft w <= _scrollLeftMax w.
Proof.
  intro A.
  apply (upholds_after ScrollStored
           (handleAll st rtl startDrag origin inputs) initial w);
    [| | exact A].
  - apply (handleAll_upholds st rtl startDrag origin _ (fun _ => True)).
    + intros i _. apply handle_stored.
    + apply Forall_forall. auto.
  - unfold ScrollStored. cbn. lia.
Qed.

Lemma scroll_within_stored_maximum_witness :
  after (handleAll Sample.st false 10 Sample.origin
           (Sample.scrolling ++ [Show (Content.mk [])]) initial)
  = Some (set_empty true (set_data (Data.mk []) Sample.scrolled))
  /\ 0 <= _scrollLeft Sample.scrolled <= _scrollLeftMax Sample.scrolled.
Proof.
  assert (A : after (handleAll Sample.st false 10 Sample.origin
                       (Sample.scrolling ++ [Show (Content.mk [])])
                       initial)
              = Some (set_empty true
                        (set_data (Data.mk []) Sample.scrolled)))
    by (vm_compute; reflexivity).
  split; [exact A|].
  exact (scroll_within_stored_maximum Sample.st false 10 Sample.origin
           (Sample.scrolling ++ [Show (Content.mk [])]) _ A).
Defined.

(** *** The wheel *)

(** X14: a wheel event is ignored, with nothing fired and nothing changed,
    when it has no horizontal angle or the row is compact.  Otherwise it
    is accepted and the offset becomes the old one minus the horizontal
    step (the pixel delta, or the angle delta when that is 0; negated for
    a right-to-left layout), clamped to [0, _scrollLeftMax]; the vertical
    deltas are never read.  A step that leaves the offset where it was
    fires nothing and changes nothing. *)
Theorem wheelEvent_scrolls (st : style.DialogsStoriesList) (rtl : bool)
    (origin : QPoint.t) (e : QWheelEvent) (w w' : Widget)
    (accepted : bool) :
  outcome (wheelEvent st rtl origin e w) = Returned accepted w' ->
  accepted = wheelAccepted e w
  /\ _scrollLeftMax w' = _scrollLeftMax w
  /\ _scrollLeft w'
     = (if accepted
        then clamp (_scrollLeft w - wheelStep rtl e) 0 (_scrollLeftMax w)
        else _scrollLeft w)
  /\ (_scrollLeft w' = _scrollLeft w ->
      w' = w /\ fired (wheelEvent st rtl origin e w) = []).
Proof.
  unfold wheelEvent, wheelAccepted, wheelStep. rewrite bind_get.
  destruct (QPoint.x (angleDelta e) =? 0) eqn:Angle; cbn [negb orb andb].
  { intro E. injection E as <- <-. repeat split. }
  destruct (State_eqb (_state w) Small); cbn [negb].
  { intro E. injection E as <- <-. repeat split. }
  cbv zeta.
  replace (if negb (QPoint.x (pixelDelta e) =? 0)
           then QPoint.x (pixelDelta e) else QPoint.x (angleDelta e))
    with (if QPoint.x (pixelDelta e) =? 0
          then QPoint.x (angleDelta e) else QPoint.x (pixelDelta e))
    by (now destruct (QPoint.x (pixelDelta e) =? 0)).
  set (next := clamp _ 0 (_scrollLeftMax w)).
  destruct (next =? _scrollLeft w) eqn:Same; cbn [negb].
  { apply Z.eqb_eq in Same. rewrite bind_ret.
    intro E. injection E as <- <-. repeat split. now rewrite Same. }
  apply Z.eqb_neq in Same.
  assert (K : hoare (fun v => v = w)
                (bind (requestExpanded true)
                   (fun _ =>
                      bind (modify (set_scrollLeft next))
                        (fun _ =>
                           bind (updateSelected st origin)
                             (fun _ => checkLoadMore))))
                (fun _ v =>
                   (_scrollLeft v, _scrollLeftMax v)
                   = (next, _scrollLeftMax w))).
  { apply (hoare_bind _ (fun _ v => _scrollLeftMax v = _scrollLeftMax w)).
    { intros v ->.
      apply (hoare_value _scrollLeftMax (_scrollLeftMax w)
               (requestExpanded true)); [untouched | reflexivity]. }
    intros _.
    apply (hoare_bind _
             (fun _ v =>
                (_scrollLeft v, _scrollLeftMax v)
                = (next, _scrollLeftMax w))).
    { apply hoare_modify. intros v <-. reflexivity. }
    intros _.
    apply (hoare_value (fun v => (_scrollLeft v, _scrollLeftMax v))).
    apply keeps_bind; [|intro]; untouched. }
  specialize (K w eq_refl). unfold bind at 1.
  destruct (outcome (bind (requestExpanded true) _ w)) as [[] w1|];
    cbn [outcome ret]; [|discriminate].
  intro E. injection E as <- <-. injection K as K1 K2.
  split; [reflexivity|]. split; [exact K2|]. split; [exact K1|].
  intro Back. congruence.
Qed.

Lemma wheelEvent_scrolls_witness :
  exists w',
    outcome (wheelEvent Sample.st false Sample.origin (Sample.wheel (-50))
               Sample.scrolled)
    = Returned true w'
    /\ _scrollLeft w' = 200.
Proof.
  eexists.
  assert (E : outcome (wheelEvent Sample.st false Sample.origin
                         (Sample.wheel (-50)) Sample.scrolled)
              = Returned true _) by (vm_compute; reflexivity).
  split; [exact E|].
  exact (proj1 (proj2 (proj2
           (wheelEvent_scrolls Sample.st false Sample.origin
              (Sample.wheel (-50)) Sample.scrolled _ true E)))).
Defined.

(** *** The drag *)

Lemma updateSelected_dragState (st : style.DialogsStoriesList)
    (origin : QPoint.t) :
  keeps dragState (updateSelected st origin).
Proof. untouched. Qed.

Lemma checkLoadMore_run (w : Widget) :
  exists ev, checkLoadMore w = mkRun ev (Returned tt w).
Proof.
  unfold checkLoadMore. rewrite bind_get.
  destruct (_ <? _); eexists; reflexivity.
Qed.

(** [checkDragging] with a drag under way. *)
Lemma checkDragging_dragged (rtl : bool) (w : Widget) (down : QPoint.t) :
  _dragging w = true ->
  _mouseDownPosition w = Some down ->
  exists ev,
    checkDragging rtl w
    = mkRun ev
        (Returned tt
           (set_scrollLeft (draggedTo rtl w down (_lastMousePosition w))
              w)).
Proof.
  intros D Down. unfold checkDragging. rewrite bind_get, D, Down.
  fold (draggedTo rtl w down (_lastMousePosition w)).
  destruct (draggedTo rtl w down (_lastMousePosition w) =? _scrollLeft w)
    eqn:Same; cbn [negb].
  - apply Z.eqb_eq in Same. exists []. rewrite Same. now destruct w.
  - rewrite bind_modify.
    destruct (checkLoadMore_run
                (set_scrollLeft
                   (draggedTo rtl w down (_lastMousePosition w)) w))
      as (ev & ->).
    now exists ev.
Qed.

(** X15: while a drag is under way, a move of the pointer sets the scroll
    offset from the place of the press, the offset at the start of the
    drag and the pointer alone, clamped to [0, _scrollLeftMax]; the drag
    goes on with the same anchors.  So the pointer back at an earlier
    place brings the offset of that place back. *)
Theorem drag_follows_pointer (st : style.DialogsStoriesList) (rtl : bool)
    (startDrag : Z) (origin : QPoint.t) (e : QMouseEvent)
    (w w' : Widget) (down : QPoint.t) :
  _dragging w = true ->
  _mouseDownPosition w = Some down ->
  after (mouseMoveEvent st rtl startDrag origin e w) = Some w' ->
  _scrollLeft w' = draggedTo rtl w down (globalPos e)
  /\ _dragging w' = true
  /\ _mouseDownPosition w' = Some down
  /\ _startDraggingLeft w' = _startDraggingLeft w
  /\ _scrollLeftMax w' = _scrollLeftMax w.
Proof.
  intros D Down. unfold mouseMoveEvent, after. rewrite bind_modify.
  set (w0 := set_lastMousePosition (globalPos e) w).
  pose proof (updateSelected_dragState st origin w0) as K.
  destruct (updateSelected st origin w0) as [ev [[] w1|f]] eqn:U;
    cbn [outcome] in K.
  2:{ rewrite (bind_stopped _ _ _ _ _ U). discriminate. }
  rewrite (bind_returned _ _ _ _ _ _ U), bind_get.
  unfold dragState in K. injection K as K1 K2 K3 K4 K5 K6 K7.
  cbn [w0 set_lastMousePosition _dragging _mouseDownPosition
       _startDraggingLeft _scrollLeft _scrollLeftMax _state
       _lastMousePosition] in K1, K2, K3, K4, K5, K6, K7.
  rewrite K2, Down, K1, D. cbn [negb andb]. rewrite bind_ret.
  destruct (checkDragging_dragged rtl w1 down
              ltac:(congruence) ltac:(congruence)) as (ev' & ->).
  cbn [fired outcome]. intro E. injection E as <-.
  cbn [set_scrollLeft _scrollLeft _dragging _mouseDownPosition
       _startDraggingLeft _scrollLeftMax].
  unfold draggedTo. rewrite K7, K3, K5, K1, K2, D, Down. repeat split.
Qed.

Lemma drag_follows_pointer_witness :
  _dragging Scene.dragging = true
  /\ _mouseDownPosition Scene.dragging = Some (QPoint.mk 100 10)
  /\ exists w',
       after (mouseMoveEvent Sample.st false 10 Sample.origin
                (Scene.pressAt 100) Scene.dragging)
       = Some w'
       /\ _scrollLeft w' = _scrollLeft Scene.pressing.
Proof.
  split; [reflexivity|]. split; [reflexivity|].
  eexists.
  assert (A : after (mouseMoveEvent Sample.st false 10 Sample.origin
                       (Scene.pressAt 100) Scene.dragging)
              = Some _) by (vm_compute; reflexivity).
  split; [exact A|].
  exact (proj1 (drag_follows_pointer Sample.st false 10 Sample.origin
                  (Scene.pressAt 100) Scene.dragging _
                  (QPoint.mk 100 10) eq_refl eq_refl A)).
Defined.

(** X16: a move of the pointer starts a drag exactly when none is under
    way, the row is in the full state, and the pointer is at least the
    drag distance (in Manhattan length) from the place of a press; the
    offset of that moment becomes the anchor of the drag.  Without a
    drag the move leaves the scroll offset as it is. *)
Theorem drag_starts_at_distance (st : style.DialogsStoriesList)
    (rtl : bool) (startDrag : Z) (origin : QPoint.t) (e : QMouseEvent)
    (w w' : Widget) :
  _dragging w = false ->
  after (mouseMoveEvent st rtl startDrag origin e w) = Some w' ->
  _dragging w'
  = State_eqb (_state w) Full
    && beyondDragDistance startDrag w (globalPos e)
  /\ (_dragging w' = true -> _startDraggingLeft w' = _scrollLeft w)
  /\ (_dragging w' = false -> _scrollLeft w' = _scrollLeft w).
Proof.
  intros D. unfold mouseMoveEvent, after, beyondDragDistance.
  rewrite bind_modify.
  set (w0 := set_lastMousePosition (globalPos e) w).
  pose proof (updateSelected_dragState st origin w0) as K.
  destruct (updateSelected st origin w0) as [ev [[] w1|f]] eqn:U;
    cbn [outcome] in K.
  2:{ rewrite (bind_stopped _ _ _ _ _ U). discriminate. }
  rewrite (bind_returned _ _ _ _ _ _ U), bind_get.
  unfold dragState in K. injection K as K1 K2 K3 K4 K5 K6 K7.
  cbn [w0 set_lastMousePosition _dragging _mouseDownPosition
       _startDraggingLeft _scrollLeft _scrollLeftMax _state
       _lastMousePosition] in K1, K2, K3, K4, K5, K6, K7.
  rewrite K2, K1, D, K6, K7. cbn [negb andb].
  destruct (_mouseDownPosition w) as [down|] eqn:Down.
  - destruct (State_eqb (_state w) Full
              && (startDrag
                  <=? QPoint.manhattanLength
                        (QPoint.sub (globalPos e) down))) eqn:Starts.
    + rewrite bind_assoc, !bind_modify.
      match goal with
      | |- context [checkDragging rtl ?v] =>
          destruct (checkDragging_dragged rtl v down eq_refl
                      ltac:(cbn; congruence)) as (ev' & ->)
      end.
      cbn [fired outcome]. intro E. injection E as <-.
      cbn [set_scrollLeft set_startDraggingLeft set_dragging _dragging
           _startDraggingLeft].
      repeat split; congruence.
    + rewrite bind_ret. unfold checkDragging. rewrite bind_get, K1, D.
      cbn [ret fired outcome]. intro E. injection E as <-.
      rewrite K1, D. repeat split; congruence.
  - rewrite andb_false_r, bind_ret. unfold checkDragging.
    rewrite bind_get, K1, D.
    cbn [ret fired outcome]. intro E. injection E as <-.
    rewrite K1, D. repeat split; congruence.
Qed.

Lemma drag_starts_at_distance_witness :
  _dragging Scene.pressing = false
  /\ after (mouseMoveEvent Sample.st false 10 Sample.origin
              (Scene.pressAt 60) Scene.pressing)
     = Some Scene.dragging
  /\ _dragging Scene.dragging = true.
Proof.
  assert (A : after (mouseMoveEvent Sample.st false 10 Sample.origin
                       (Scene.pressAt 60) Scene.pressing)
              = Some Scene.dragging) by (vm_compute; reflexivity).
  split; [reflexivity|]. split; [exact A|].
  exact (proj1 (drag_starts_at_distance Sample.st false 10 Sample.origin
                  (Scene.pressAt 60) Scene.pressing Scene.dragging
                  eq_refl A)).
Defined.

(** ** The height set by the owner *)

Lemma clamp_nonneg (v hi : Z) : 0 <= hi -> 0 <= clamp v 0 hi.
Proof. intro H. apply clamp_within. exact H. Qed.

(** One momentum step at the height 0. *)
Lemma setExpandedHeight_momentum (st : style.DialogsStoriesList)
    (height : Z) (w : Widget) :
  0 <= style.height (style.full st) ->
  _lastExpandedHeight w = 0 ->
  setExpandedHeight st height true w = mkRun [] (Returned tt w)
  \/ setExpandedHeight st height true w
     = mkRun [] (Returned tt (set_expandIgnored true w)).
Proof.
  intros H L. unfold setExpandedHeight. rewrite bind_get, L.
  pose proof (clamp_nonneg height _ H) as C.
  set (h := clamp height 0 (style.height (style.full st))) in *.
  destruct (0 =? h) eqn:Z0; [now left|]. apply Z.eqb_neq in Z0.
  cbn [andb]. destruct (_expandIgnored w); [now left|].
  replace (0 <? h) with true by (symmetry; apply Z.ltb_lt; lia).
  cbn [andb Z.eqb]. now right.
Qed.

(** X17: momentum scrolling does not open the collapsed row.  With a full
    height that is not negative and the row at the height 0, any number
    of heights reported with the momentum flag fires nothing and changes
    nothing but the flag [_expandIgnored]: the height stays 0 and the
    state stays as it is. *)
Theorem momentum_is_ignored_when_collapsed (st : style.DialogsStoriesList)
    (rtl : bool) (startDrag : Z) (origin : QPoint.t) (heights : list Z)
    (w : Widget) :
  0 <= style.height (style.full st) ->
  _lastExpandedHeight w = 0 ->
  exists w',
    handleAll st rtl startDrag origin
      (map (fun height => ExpandedHeight height true) heights) w
    = mkRun [] (Returned tt w')
    /\ (w' = w \/ w' = set_expandIgnored true w).
Proof.
  intros H L. revert w L.
  induction heights as [|height heights IH]; intros w L;
    cbn [map handleAll handle].
  - exists w. split; [reflexivity | now left].
  - destruct (setExpandedHeight_momentum st height w H L) as [E | E].
    + rewrite (bind_returned _ _ _ _ _ _ E).
      destruct (IH w L) as (w' & -> & R). now exists w'.
    + rewrite (bind_returned _ _ _ _ _ _ E).
      destruct (IH (set_expandIgnored true w) L) as (w' & -> & R).
      exists w'. split; [reflexivity|]. right.
      destruct R as [-> | ->]; reflexivity.
Qed.

Lemma momentum_is_ignored_when_collapsed_witness :
  0 <= style.height (style.full Sample.st)
  /\ _lastExpandedHeight Sample.collapsed = 0
  /\ exists w',
       handleAll Sample.st false 10 Sample.origin
         (map (fun height => ExpandedHeight height true) [20; 50; 77])
         Sample.collapsed
       = mkRun [] (Returned tt w')
       /\ (w' = Sample.collapsed
           \/ w' = set_expandIgnored true Sample.collapsed).
Proof.
  assert (H : 0 <= style.height (style.full Sample.st)) by discriminate.
  split; [exact H|]. split; [reflexivity|].
  exact (momentum_is_ignored_when_collapsed Sample.st false 10
           Sample.origin [20; 50; 77] Sample.collapsed H eq_refl).
Defined.

(** X18: the first height without momentum after ignored ones starts the
    catch-up animation at 0: the height is stored, the row is in the
    state [Changing] even at the full height, and the height the next
    layout reports to [updateExpanding] is still 0. *)
Theorem gradual_height_catches_up (st : style.DialogsStoriesList)
    (height : Z) (w : Widget) :
  _expandIgnored w = true ->
  _lastExpandedHeight w = 0 ->
  _expandCatchUpAnimation w = None ->
  0 < clamp height 0 (style.height (style.full st)) ->
  exists ev w',
    setExpandedHeight st height false w = mkRun ev (Returned tt w')
    /\ _expandIgnored w' = false
    /\ _expandCatchUpAnimation w' = Some 0%Q
    /\ _lastExpandedHeight w'
       = clamp height 0 (style.height (style.full st))
    /\ _state w' = Changing
    /\ reportedHeight w' = 0.
Proof.
  intros Ig L An P.
  set (h := clamp height 0 (style.height (style.full st))) in *.
  pose (w1 := set_lastExpandedHeight h
                (set_expandCatchUpAnimation (Some 0%Q)
                   (set_expandIgnored false w))).
  assert (T : total (fun v => v = w1)
                (setState st (if h =? 0 then Small else Changing))
                (fun _ v =>
                   (_state v = Changing /\ _lastExpandedHeight v = h)
                   /\ (_expandIgnored v, _expandCatchUpAnimation v)
                      = (false, Some 0%Q))).
  { apply (total_weaken _
             (fun v => _lastExpandedHeight v = h
                       /\ (_expandIgnored v, _expandCatchUpAnimation v)
                          = (false, Some 0%Q))); [now intros v ->|].
    apply (total_value
             (fun v => (_expandIgnored v, _expandCatchUpAnimation v)));
      [untouched|].
    apply total_hoare; [returning|].
    replace (h =? 0) with false by (symmetry; apply Z.eqb_neq; lia).
    apply setState_sets. }
  destruct (T w1 eq_refl) as (ev & [] & w' & E & [S L'] & K).
  injection K as K1 K2.
  exists ev, w'. split.
  - unfold setExpandedHeight. rewrite bind_get, L, Ig. fold h.
    replace (0 =? h) with false by (symmetry; apply Z.eqb_neq; lia).
    replace (0 <? h) with true by (symmetry; now apply Z.ltb_lt).
    cbn [andb negb]. rewrite !bind_assoc, !bind_modify.
    cbn [set_expandIgnored _expandCatchUpAnimation]. rewrite An.
    cbn [Animations.start]. fold w1.
    unfold checkForFullState. rewrite bind_assoc, bind_get.
    cbn [w1 set_lastExpandedHeight set_expandCatchUpAnimation
         _expandCatchUpAnimation Animations.animating orb].
    rewrite bind_ret. exact E.
  - repeat split; try assumption.
    unfold reportedHeight. rewrite L', K2. cbn [Animations.value].
    unfold Float64.to_int, Float64.of_int. cbn. now rewrite Z.mul_0_r.
Qed.

Lemma gradual_height_catches_up_witness :
  _expandIgnored (set_expandIgnored true Sample.collapsed) = true
  /\ _lastExpandedHeight (set_expandIgnored true Sample.collapsed) = 0
  /\ _expandCatchUpAnimation (set_expandIgnored true Sample.collapsed)
     = None
  /\ 0 < clamp 77 0 (style.height (style.full Sample.st))
  /\ exists ev w',
       setExpandedHeight Sample.st 77 false
         (set_expandIgnored true Sample.collapsed)
       = mkRun ev (Returned tt w')
       /\ _state w' = Changing.
Proof.
  assert (P : 0 < clamp 77 0 (style.height (style.full Sample.st)))
    by reflexivity.
  split; [reflexivity|]. split; [reflexivity|]. split; [reflexivity|].
  split; [exact P|].
  destruct (gradual_height_catches_up Sample.st 77
              (set_expandIgnored true Sample.collapsed)
              eq_refl eq_refl eq_refl P)
    as (ev & w' & E & _ & _ & _ & S & _).
  exists ev, w'. split; [exact E | exact S].
Defined.

(** ** A content shown twice *)

(** X19: showing the content that has just been shown changes nothing
    and fires nothing, whatever the content and the widget. *)
Theorem showContent_twice (st : style.DialogsStoriesList) (c : Content.t)
    (w : Widget) :
  exists ev w',
    showContent st c w = mkRun ev (Returned tt w')
    /\ showContent st c w' = mkRun [] (Returned tt w').
Proof.
  destruct (Content.eqb (_content w) c) eqn:E.
  - exists [], w. split; now apply showContent_same.
  - destruct (Content.elements c) as [|e rest] eqn:Els.
    + exists [], (set_empty true (set_data (Data.mk []) w)).
      split; [now apply showContent_empty|].
      now rewrite (showContent_empty st c
                     (set_empty true (set_data (Data.mk []) w)) E Els).
    + destruct (showContent_applied st c w E) as (ev & w' & R & C & _).
      { rewrite Els. discriminate. }
      exists ev, w'. split; [exact R|].
      apply showContent_same. rewrite C. apply Content_eqb_refl.
Qed.

(** ** The rectangle of the widget *)

(** X21: the rectangle of the compact row depends on the style, the items
    and the constraints of the owner only, not on the scroll offset, the
    ratio or the rectangle the widget has: it is as wide as the margins,
    one photo and one shift for each further item shown, of which there
    are at most three; it is as high as a photo with its margins; its top
    is the one of [_positionSmall]; aligned to the right it ends at the
    left of [_positionSmall], and without an alignment it starts
    there. *)
Theorem countSmallGeometry_size (st : style.DialogsStoriesList)
    (w v : Widget) :
  _data v = _data w ->
  _positionSmall v = _positionSmall w ->
  _alignSmall v = _alignSmall w ->
  countSmallGeometry st v = countSmallGeometry st w
  /\ QRect.width (countSmallGeometry st w) = smallWidth st (smallCount w)
  /\ QRect.height (countSmallGeometry st w)
     = 2 * style.photoTop (style.small st) + style.photo (style.small st)
  /\ QRect.y (countSmallGeometry st w) = QPoint.y (_positionSmall w)
  /\ (Z.land (_alignSmall w) AlignRight = AlignRight ->
      QRect.x (countSmallGeometry st w)
      + QRect.width (countSmallGeometry st w)
      = QPoint.x (_positionSmall w))
  /\ (Z.land (_alignSmall w) AlignRight <> AlignRight ->
      Z.land (_alignSmall w) AlignCenter <> AlignCenter ->
      QRect.x (countSmallGeometry st w) = QPoint.x (_positionSmall w)).
Proof.
  intros D P A.
  assert (Count : forall u,
            Layout.endIndexSmall (computeLayout st 0 u)
            - Z.max (Layout.startIndexSmall (computeLayout st 0 u))
                (Layout.smallSkip (computeLayout st 0 u))
            = smallCount u).
  { intro u. unfold computeLayout, smallCount, skipsFirst.
    cbn [Layout.endIndexSmall Layout.startIndexSmall Layout.smallSkip].
    lia. }
  assert (Same : smallCount v = smallCount w).
  { unfold smallCount, skipsFirst, items_size. now rewrite D. }
  unfold countSmallGeometry. rewrite !Count, Same, P, A.
  split; [reflexivity|].
  unfold QRect.width, QRect.height, QRect.x, QRect.y, QRect.make,
    smallWidth.
  cbn [QRect.x1 QRect.x2 QRect.y1 QRect.y2].
  split; [lia|]. split; [lia|]. split; [lia|]. split.
  - intro R. apply Z.eqb_eq in R. rewrite R. lia.
  - intros R C. apply Z.eqb_neq in R, C. now rewrite R, C.
Qed.

Lemma countSmallGeometry_size_witness :
  _data Sample.scrolled = _data (Sample.shown Sample.st 10)
  /\ _positionSmall Sample.scrolled
     = _positionSmall (Sample.shown Sample.st 10)
  /\ _alignSmall Sample.scrolled = _alignSmall (Sample.shown Sample.st 10)
  /\ countSmallGeometry Sample.st Sample.scrolled
     = countSmallGeometry Sample.st (Sample.shown Sample.st 10).
Proof.
  assert (D : _data Sample.scrolled = _data (Sample.shown Sample.st 10))
    by (vm_compute; reflexivity).
  assert (P : _positionSmall Sample.scrolled
              = _positionSmall (Sample.shown Sample.st 10))
    by (vm_compute; reflexivity).
  assert (A : _alignSmall Sample.scrolled
              = _alignSmall (Sample.shown Sample.st 10))
    by (vm_compute; reflexivity).
  split; [exact D|]. split; [exact P|]. split; [exact A|].
  exact (proj1 (countSmallGeometry_size Sample.st
                  (Sample.shown Sample.st 10) Sample.scrolled D P A)).
Defined.

Lemma setGeometry_run (st : style.DialogsStoriesList) (r : QRect.t)
    (w : Widget) :
  exists ev w',
    setGeometry st r w = mkRun ev (Returned tt w')
    /\ geometry w' = r
    /\ _data w' = _data w
    /\ (QRect.same_size (geometry w) r = true ->
        w' = set_geometry r w /\ ev = [])
    /\ (QRect.same_size (geometry w) r = false ->
        ScrollStored w' /\ _scrollLeftMax w' = scrollBound st w').
Proof.
  unfold setGeometry, resizeEvent. rewrite bind_get, bind_modify.
  destruct (QRect.same_size (geometry w) r); cbn [negb].
  - exists [], (set_geometry r w).
    repeat split; intros; try discriminate; repeat split.
  - destruct (updateScrollMax_establishes st (set_geometry r w))
      as (w' & O & S & B & D & G).
    exists (fired (updateScrollMax st (set_geometry r w))), w'.
    split; [rewrite (run_eta (updateScrollMax st _)), O; reflexivity|].
    split; [exact G|]. split; [exact D|].
    split; [discriminate|]. intros _. now split.
Qed.

(** X22: [updateGeometry] returns and gives the widget the rectangle of
    its state: the compact rectangle in the state [Small], the full one
    in the state [Full], and the rectangle around both while [Changing],
    when the compact one is stored as the rectangle the change started
    from.  When the size changes with it, the scroll maximum is computed
    again for the new width and the offset is clamped. *)
Theorem updateGeometry_places (st : style.DialogsStoriesList)
    (w : Widget) :
  exists ev w',
    updateGeometry st w = mkRun ev (Returned tt w')
    /\ geometry w' = placed st w
    /\ _state w' = _state w
    /\ (_state w = Changing ->
        _changingGeometryFrom w' = countSmallGeometry st w)
    /\ (QRect.same_size (geometry w) (geometry w') = false ->
        0 <= _scrollLeft w' <= _scrollLeftMax w'
        /\ _scrollLeftMax w' = scrollBound st w').
Proof.
  assert (K : forall r, keeps (fun v => (_state v, _changingGeometryFrom v))
                          (setGeometry st r)) by (intro r; untouched).
  unfold updateGeometry, placed. rewrite bind_get.
  destruct (_state w) eqn:S.
  - destruct (setGeometry_run st (countSmallGeometry st w) w)
      as (ev & w' & E & G & _ & _ & R).
    pose proof (keeps_run _ _ _ _ _ _ (K _) E) as F.
    injection F as F1 F2.
    exists ev, w'. split; [exact E|]. split; [exact G|].
    split; [congruence|]. split; [discriminate|].
    rewrite G. exact R.
  - rewrite bind_modify, bind_get.
    set (w0 := set_changingGeometryFrom (countSmallGeometry st w) w).
    destruct (setGeometry_run st
                (QRect.united (_geometryFull w0) (_changingGeometryFrom w0))
                w0)
      as (ev & w' & E & G & _ & _ & R).
    pose proof (keeps_run _ _ _ _ _ _ (K _) E) as F.
    injection F as F1 F2.
    exists ev, w'. split; [exact E|]. split; [exact G|].
    split; [rewrite F1; exact S|]. split; [intros _; exact F2|].
    rewrite G. exact R.
  - destruct (setGeometry_run st (_geometryFull w) w)
      as (ev & w' & E & G & _ & _ & R).
    pose proof (keeps_run _ _ _ _ _ _ (K _) E) as F.
    injection F as F1 F2.
    exists ev, w'. split; [exact E|]. split; [exact G|].
    split; [congruence|]. split; [discriminate|].
    rewrite G. exact R.
Qed.

(** ** More instances *)

Lemma showContent_reconciles_witness :
  Content.eqb (_content Sample.stored)
    (Content.mk [Sample.element 10; Sample.element 12])
  = false
  /\ NoDup (map Element.id [Sample.element 10; Sample.element 12])
  /\ exists w',
       after (showContent Sample.st
                (Content.mk [Sample.element 10; Sample.element 12])
                Sample.stored)
       = Some w'
       /\ Data.items (_data w')
          = map (reconciled (Data.items (_data Sample.stored)))
              [Sample.element 10; Sample.element 12].
Proof.
  assert (E : Content.eqb (_content Sample.stored)
                (Content.mk [Sample.element 10; Sample.element 12])
              = false) by (vm_compute; reflexivity).
  assert (N : Content.elements
                (Content.mk [Sample.element 10; Sample.element 12])
              <> []) by discriminate.
  assert (D : NoDup (map Element.id
                       [Sample.element 10; Sample.element 12])).
  { apply NoDup_cons; [intros [H | []]; discriminate H|].
    apply NoDup_cons; [intros [] | apply NoDup_nil]. }
  split; [exact E|]. split; [exact D|].
  exact (showContent_reconciles Sample.st
           (Content.mk [Sample.element 10; Sample.element 12])
           Sample.stored E N D).
Defined.


(** ** Painting *)

Lemma others_app (layout : Layout.t) (a b : list Painted) :
  others layout (a ++ b) = others layout a ++ others layout b.
Proof.
  induction a as [|[s|s|t|i] a IH]; cbn [app others]; now rewrite ?IH.
Qed.

Lemma gradients_app (layout : Layout.t) (a b : list Painted) :
  gradients layout (a ++ b) = gradients layout a ++ gradients layout b.
Proof.
  induction a as [|[s|s|t|i] a IH]; cbn [app gradients]; now rewrite ?IH.
Qed.

Lemma layered_incl (layout : Layout.t) (log : list Painted)
    (seen seen' : list Z) :
  (forall s, In s seen -> In s seen') ->
  layered layout seen log -> layered layout seen' log.
Proof.
  revert seen seen'.
  induction log as [|[s|s|t|i] log IH]; intros seen seen' Sub;
    cbn [layered]; try (now apply IH); [auto| |].
  - apply IH. intros x [<- | I]; [now left | right; now apply Sub].
  - intros [I L]. split; [now apply Sub | now apply (IH seen)].
Qed.

(** A log in which the second painter is called for seen slots only. *)
Lemma layered_intro (layout : Layout.t) (log : list Painted)
    (seen : list Z) :
  (forall s, In s (others layout log) -> In s seen) ->
  layered layout seen log.
Proof.
  revert seen.
  induction log as [|[s|s|t|i] log IH]; intros seen Sub;
    cbn [layered others] in *; try (now apply IH); [exact I| |].
  - apply IH. intros x I. right. now apply Sub.
  - split; [apply Sub; now left|]. apply IH. intros x I. apply Sub.
    now right.
Qed.

Lemma layered_app (layout : Layout.t) (a b : list Painted)
    (seen : list Z) :
  layered layout seen a ->
  layered layout (gradients layout a ++ seen) b ->
  layered layout seen (a ++ b).
Proof.
  revert seen.
  induction a as [|[s|s|t|i] a IH]; intros seen La Lb;
    cbn [layered gradients app] in *; try (now apply IH); [exact Lb| |].
  - apply IH; [exact La|].
    apply (layered_incl layout b (slotOf layout s
                                  :: gradients layout a ++ seen));
      [|exact Lb].
    intros x [<- | I]; apply in_or_app; [right; now left|].
    apply in_app_or in I. destruct I as [I | I]; [now left|].
    right. now right.
  - destruct La as [I La]. split; [exact I | now apply IH].
Qed.

Lemma update_nth_elements (k : nat) (f : Item.t -> Item.t)
    (items : list Item.t) :
  (forall item, Item.element (f item) = Item.element item) ->
  map Item.element (update_nth k f items) = map Item.element items.
Proof.
  intro F. revert k.
  induction items as [|i items IH]; intros [|k]; cbn [update_nth map];
    now rewrite ?F, ?IH.
Qed.

Lemma update_nth_length (k : nat) (f : Item.t -> Item.t)
    (items : list Item.t) :
  List.length (update_nth k f items) = List.length items.
Proof.
  revert k.
  induction items as [|i items IH]; intros [|k]; cbn [update_nth List.length];
    now rewrite ?IH.
Qed.

(** What is changed through an [Item*] is the item behind it. *)
Lemma update_nth_nth_error (k j : nat) (f : Item.t -> Item.t)
    (items : list Item.t) :
  nth_error (update_nth k f items) j
  = if Nat.eqb j k then option_map f (nth_error items j)
    else nth_error items j.
Proof.
  revert k j.
  induction items as [|i items IH]; intros [|k] [|j]; cbn; try reflexivity.
  - now destruct (Nat.eqb j k).
  - apply IH.
Qed.

Lemma elements_size (w : Widget) :
  items_size w = Z.of_nat (List.length (elements_of w)).
Proof. unfold items_size, elements_of. now rewrite length_map. Qed.

(** The windows of a layout are windows of the items. *)
Lemma computeLayout_windows (st : style.DialogsStoriesList) (e : Q)
    (w : Widget) :
  WellFormed st ->
  (0 <= Layout.startIndexSmall (computeLayout st e w)
   <= Layout.smallSkip (computeLayout st e w))
  /\ (Layout.smallSkip (computeLayout st e w)
      <= Layout.endIndexSmall (computeLayout st e w) <= items_size w)
  /\ 0 <= Layout.startIndexFull (computeLayout st e w)
  /\ Layout.endIndexFull (computeLayout st e w) <= items_size w.
Proof.
  intro WF.
  destruct (computeLayout_starts st WF e w) as [F S].
  split; [split; [exact S|]|split; [|split; [exact F|]]].
  - unfold computeLayout. cbn [Layout.smallSkip Layout.startIndexSmall].
    destruct (_ && _); lia.
  - pose proof (items_size_nonneg w) as N.
    unfold computeLayout, kSmallThumbsShown.
    cbn [Layout.smallSkip Layout.endIndexSmall].
    destruct (1 <? items_size w) eqn:One; cbn [andb].
    + apply Z.ltb_lt in One.
      destruct (match Data.items (_data w) with
                | [] => false
                | first :: _ => Element.skipSmall (Item.element first)
                end); lia.
    + lia.
  - unfold computeLayout. cbn [Layout.endIndexFull]. lia.
Qed.

Lemma update_item_frame (index : Z) (f : Item.t -> Item.t) (w : Widget) :
  (forall item, Item.element (f item) = Item.element item) ->
  paintFrame (update_item index f w) = paintFrame w.
Proof.
  intro F. unfold paintFrame, elements_of, update_item.
  cbn [_data set_data Data.items]. rewrite update_nth_elements by exact F.
  reflexivity.
Qed.

Lemma slotShown_valid (st : style.DialogsStoriesList) (layout : Layout.t)
    (e top : Q) (slot : Z) :
  Single.valid (singleAt st layout e top slot) = slotShown layout e slot.
Proof.
  unfold singleAt, slotShown, Single.valid.
  cbn [Single.itemSmall Single.itemFull].
  destruct (drawSmall e && _ && _); [reflexivity|].
  now destruct (drawFull e && _).
Qed.

(** *** The walk over the slots *)

Ltac use_in :=
  repeat match goal with
  | I : In ?s ?rest, O : forall s, In s ?rest -> _ |- _ => apply O in I
  end.

Ltac arith := first [lia | congruence | discriminate].

Ltac split_in :=
  cbn [In] in *;
  repeat match goal with
  | I : _ \/ In _ _ |- _ => destruct I as [I | I]
  | I : _ \/ _ \/ _ |- _ => destruct I as [I | I]
  | I : _ \/ False |- _ => destruct I as [I | []]
  end;
  use_in.

(** The slots in front of a list are new to it and differ. *)
Ltac fresh_slot :=
  repeat (constructor; [intro I; split_in; intuition arith|]).

(** A slot that shows nothing is passed over. *)
Lemma Strokes_skip (shown : Z -> bool) (first j : Z) (ng sk : bool)
    (os gs : list Z) :
  shown j = false ->
  Strokes shown first j false sk os gs ->
  Strokes shown first (j + 1) ng sk os gs.
Proof.
  intros S (O1 & O2 & O3 & G1 & G2 & G3 & O4).
  split; [exact O1|]. split.
  { intros s I. apply O2 in I. intuition lia. }
  split.
  { intros s R V. apply O3; [|exact V].
    destruct (Z.eq_dec s j) as [-> | N]; [congruence | lia]. }
  split; [exact G1|]. split.
  { intros s I. apply G2 in I. intuition lia. }
  split; [|exact O4].
  intros s R V _. apply G3; [|exact V|reflexivity].
  destruct (Z.eq_dec s j) as [-> | N]; [congruence | lia].
Qed.

(** One iteration at a shown slot [j]: what is painted before the walk
    goes on ([oA], [gA]: the slot before the first one; [gB]: the gradient
    of [j]; [oC], [gC]: the gradients painted ahead), then the userpic of
    [j], then the rest of the walk. *)
Lemma Strokes_step (shown : Z -> bool) (first j : Z) (ng sk : bool)
    (sk1 ng' sk2 : bool) (oA gA gB oC gC orest grest : list Z) :
  first <= j -> shown j = true ->
  (sk1 = sk /\ oA = [] /\ gA = [])
  \/ (j = first /\ shown (j - 1) = true /\ sk = false /\ sk1 = true
      /\ oA = [j - 1] /\ gA = [j - 1]) ->
  (ng = true /\ gB = []) \/ (ng = false /\ gB = [j]) ->
  (ng' = false /\ sk2 = sk1 /\ oC = [] /\ gC = [])
  \/ (first < j /\ shown (j - 1) = true /\ ng' = true
      /\ ((sk2 = sk1 /\ oC = [] /\ gC = [j - 1])
          \/ (j - 1 = first /\ shown (j - 2) = true /\ sk1 = false
              /\ sk2 = true
              /\ oC = [j - 2] /\ gC = [j - 2; j - 1]))) ->
  Strokes shown first j ng' sk2 orest grest ->
  Strokes shown first (j + 1) ng sk
    (oA ++ oC ++ [j] ++ orest) (gA ++ gB ++ gC ++ grest).
Proof.
  intros F V A B C (O1 & O2 & O3 & G1 & G2 & G3 & O4).
  destruct A as [(-> & -> & ->) | (Ej & Va & -> & -> & -> & ->)];
    destruct B as [(-> & ->) | (-> & ->)];
    destruct C as [(-> & -> & -> & ->)
                  | (L & V' & -> & [(-> & -> & ->)
                                   | (E & Vc & E' & -> & -> & ->)])];
    try arith; cbn [app].
  all: split; [fresh_slot; exact O1|].
  all: split;
    [intros s I; split_in;
     intuition (subst;
                first [arith | assumption | left; lia
                      | right; split; [lia | assumption]])|].
  all: split;
    [intros s R S; cbn [In];
     destruct (Z.eq_dec s j) as [-> | N];
     [tauto
     | assert (In s orest) by (apply O3; [lia | exact S]); tauto]|].
  all: split; [fresh_slot; exact G1|].
  all: split;
    [intros s I; split_in;
     intuition (subst;
                first [arith | assumption
                      | left; split; [lia | intros; arith]
                      | right; split; [lia | assumption]])|].
  all: split;
    [intros s R S N; cbn [In];
     destruct (Z.eq_dec s j) as [-> | Nj];
     [try tauto; specialize (N ltac:(lia)); arith|];
     destruct (Z.eq_dec s (j - 1)) as [-> | Nj1];
     [try tauto;
      assert (In (j - 1) grest)
        by (apply G3; [lia | exact S | intros; arith]); tauto|];
     assert (In s grest)
       by (apply G3; [lia | exact S | intros; arith]); tauto|].
  all: repeat (apply SSorted_cons;
               [|rewrite Forall_forall; intros b I; split_in;
                 intuition arith]).
  all: exact O4.
Qed.

Lemma total_bind_pure {A B} (P P' : Widget -> Prop) (F : A -> Prop)
    (Q : B -> Widget -> Prop) (m : M A) (k : A -> M B) :
  total P m (fun a w => P' w /\ F a) ->
  (forall a, F a -> total P' (k a) Q) ->
  total P (bind m k) Q.
Proof.
  intros Hm Hk. eapply total_bind; [exact Hm|].
  intros a w [Pw Fa]. now apply Hk.
Qed.

Section Painting.

Local Open Scope widget_scope.

Variable st : style.DialogsStoriesList.
Variable color : N.
Variable render : string -> N -> option N.
Variable layout : Layout.t.
Variable e : Q.
Variable top : Q.
Variable els : list Element.t.
Variable g : Widget.

Variable n : Z.

Hypothesis Size : n = Z.of_nat (List.length els).
Hypothesis Small :
  0 <= Layout.startIndexSmall layout <= Layout.smallSkip layout
  /\ Layout.endIndexSmall layout <= n.
Hypothesis Full :
  0 <= Layout.startIndexFull layout /\ Layout.endIndexFull layout <= n.
Hypothesis Thumbs :
  Forall (fun element => Element.thumbnail element <> None) els.

Lemma Painting_size (w : Widget) : Painting els g w -> items_size w = n.
Proof.
  intro P. rewrite elements_size, Size.
  now rewrite (f_equal fst P : elements_of w = els).
Qed.

Lemma item_at_total (index : Z) :
  0 <= index < n ->
  total (Painting els g) (item_at index)
    (fun item w => Painting els g w
                   /\ Element.thumbnail (Item.element item) <> None).
Proof.
  intros I w P. unfold item_at. rewrite bind_get.
  destruct (nth_error _ _) as [item|] eqn:E.
  - exists [], item, w. split; [reflexivity|]. split; [exact P|].
    apply nth_error_In in E.
    apply (in_map Item.element) in E. fold (elements_of w) in E.
    rewrite (f_equal fst P : elements_of w = els) in E.
    rewrite Forall_forall in Thumbs. now apply Thumbs.
  - apply nth_error_None in E.
    pose proof (Painting_size w P) as S. unfold items_size in S. lia.
Qed.

Lemma validateThumbnail_total (index : Z) :
  0 <= index < n ->
  total (Painting els g) (validateThumbnail index)
    (fun log w => Painting els g w /\ quiet layout log).
Proof.
  intro I. unfold validateThumbnail.
  eapply total_bind; [apply (item_at_total index I)|].
  intros item w [P T]. cbn beta in *.
  destruct (negb (Item.subscribed item)).
  - destruct (Element.thumbnail (Item.element item)) as [t|];
      [|contradiction].
    eexists. eexists. eexists. split; [reflexivity|]. split.
    + unfold Painting. now rewrite update_item_frame.
    + now split.
  - eexists. eexists. eexists. split; [reflexivity|]. now split.
Qed.

Lemma thumbnailImage_total (index : Z) :
  0 <= index < n ->
  total (Painting els g) (thumbnailImage index) (fun _ w => Painting els g w).
Proof.
  intro I. unfold thumbnailImage.
  eapply total_bind; [apply (item_at_total index I)|].
  intros item w [P T]. cbn beta in *.
  destruct (Element.thumbnail (Item.element item)) as [t|];
    [|contradiction].
  eexists. eexists. eexists. split; [reflexivity | exact P].
Qed.

Lemma validateName_total (index : Z) :
  0 <= index < n ->
  total (Painting els g) (validateName color render index)
    (fun log w => Painting els g w /\ quiet layout log).
Proof.
  intro I. unfold validateName.
  eapply total_bind; [apply (item_at_total index I)|].
  intros item w [P T]. cbn beta in *.
  destruct (_ && _).
  - eexists. eexists. eexists. split; [reflexivity|]. now split.
  - eexists. eexists. eexists. split; [reflexivity|]. split.
    + unfold Painting. now rewrite update_item_frame.
    + now split.
Qed.

(** A thumbnail is made ready and read. *)
Lemma userpic_total (index : Z) :
  0 <= index < n ->
  total (Painting els g)
    (subscribed <- validateThumbnail index ;;
     thumbnailImage index ;;
     ret subscribed)
    (fun log w => Painting els g w /\ quiet layout log).
Proof.
  intro I.
  eapply total_bind; [apply (validateThumbnail_total index I)|].
  intros log. cbn beta.
  intros w [P Q].
  destruct (thumbnailImage_total index I w P) as (ev & [] & w' & E & P').
  exists (ev ++ []), log, w'. split; [|now split].
  now rewrite (bind_returned _ _ _ _ _ _ E).
Qed.

Lemma address_total (index : Z) :
  0 <= index < n ->
  total (Painting els g) (address index)
    (fun p w => Painting els g w /\ p = Some index).
Proof.
  intros I w P. unfold address. rewrite bind_get.
  rewrite (Painting_size w P).
  replace ((0 <=? index) && (index <? n)) with true
    by (symmetry; apply andb_true_iff; split;
        [apply Z.leb_le | apply Z.ltb_lt]; lia).
  exists [], (Some index), w. now split.
Qed.

Lemma guarded_address_total (c : bool) (index : Z) :
  (c = true -> 0 <= index < n) ->
  total (Painting els g) (if c then address index else ret None)
    (fun p w => Painting els g w
                /\ p = (if c then Some index else None)).
Proof.
  destruct c; intro I.
  - now apply address_total, I.
  - now apply total_ret.
Qed.

Lemma lookup_total (slot : Z) :
  0 <= slot ->
  total (Painting els g) (lookup st layout e top slot)
    (fun s w => Painting els g w /\ s = singleAt st layout e top slot).
Proof.
  intro I. unfold lookup, singleAt.
  eapply total_bind_pure with (P' := Painting els g).
  { apply guarded_address_total. intro C.
    apply andb_true_iff in C. destruct C as [C _].
    apply andb_true_iff in C. destruct C as [_ C].
    apply Z.ltb_lt in C. lia. }
  intros small ->.
  eapply total_bind_pure with (P' := Painting els g).
  { apply guarded_address_total. intro C.
    apply andb_true_iff in C. destruct C as [_ C].
    apply Z.ltb_lt in C. lia. }
  intros full ->. now apply total_ret.
Qed.

(** The items of a single exist. *)
Lemma singleAt_small (slot index : Z) :
  0 <= slot ->
  Single.itemSmall (singleAt st layout e top slot) = Some index ->
  0 <= index < n.
Proof.
  intro I. unfold singleAt. cbn [Single.itemSmall].
  destruct (_ && _ && _) eqn:C; [|discriminate].
  intro E. injection E as <-.
  apply andb_true_iff in C. destruct C as [C _].
  apply andb_true_iff in C. destruct C as [_ C].
  apply Z.ltb_lt in C. lia.
Qed.

Lemma singleAt_full (slot index : Z) :
  0 <= slot ->
  Single.itemFull (singleAt st layout e top slot) = Some index ->
  0 <= index < n.
Proof.
  intro I. unfold singleAt. cbn [Single.itemFull].
  destruct (drawFull e && _) eqn:C; [|discriminate].
  intro E. injection E as <-.
  apply andb_true_iff in C. destruct C as [_ C].
  apply Z.ltb_lt in C. lia.
Qed.

Lemma slotOf_singleAt (slot : Z) :
  slotOf layout (singleAt st layout e top slot) = slot.
Proof. unfold slotOf, singleAt. cbn [Single.indexSmall]. lia. Qed.

Lemma paintGradient_total (slot : Z) :
  0 <= slot ->
  total (Painting els g)
    (paintGradient color render (singleAt st layout e top slot))
    (fun log w => Painting els g w
                  /\ (others layout log = []
                      /\ gradients layout log = [slot])).
Proof.
  intro I. unfold paintGradient.
  eapply total_bind_pure with (P' := Painting els g)
                              (F := quiet layout).
  { destruct (Single.itemFull _) as [full|] eqn:F.
    - apply validateName_total. now apply (singleAt_full slot).
    - apply total_ret. intros w P. now split. }
  intros named [O G]. apply total_ret. intros w P. split; [exact P|].
  rewrite others_app, gradients_app, O, G.
  cbn [app others gradients]. now rewrite slotOf_singleAt.
Qed.

Lemma paintOther_total (slot : Z) :
  0 <= slot ->
  Single.valid (singleAt st layout e top slot) = true ->
  total (Painting els g)
    (paintOther (singleAt st layout e top slot))
    (fun log w => Painting els g w
                  /\ (others layout log = [slot]
                      /\ gradients layout log = [])).
Proof.
  intros I V. unfold paintOther. rewrite V. cbn [negb].
  pose proof (singleAt_small slot) as S.
  pose proof (singleAt_full slot) as F.
  unfold Single.valid in V. revert V S F.
  destruct (Single.itemSmall _) as [small|];
    destruct (Single.itemFull _) as [full|]; intros V S F;
    try discriminate.
  all: eapply total_bind_pure with (P' := Painting els g)
                                   (F := quiet layout).
  all: try (intros drawn [O G]; apply total_ret; intros w P;
            split; [exact P|];
            rewrite others_app, gradients_app, O, G;
            cbn [app others gradients]; now rewrite slotOf_singleAt).
  - destruct (pointer_eqb _ _).
    + apply userpic_total. now apply F.
    + eapply total_bind_pure with (P' := Painting els g)
                                  (F := quiet layout);
        [apply userpic_total; now apply S|].
      intros first [O1 G1].
      eapply total_bind_pure with (P' := Painting els g)
                                  (F := quiet layout);
        [apply userpic_total; now apply F|].
      intros second [O2 G2]. apply total_ret. intros w P.
      split; [exact P|]. split.
      * now rewrite others_app, O1, O2.
      * now rewrite gradients_app, G1, G2.
  - cbn [pointer_eqb].
    eapply total_bind_pure with (P' := Painting els g)
                                (F := quiet layout);
      [apply userpic_total; now apply S|].
    intros first [O1 G1].
    eapply total_bind_pure with (P' := Painting els g)
                                (F := quiet layout);
      [apply total_ret; intros w P; now split|].
    intros second [O2 G2]. apply total_ret. intros w P.
    split; [exact P|]. split.
    + now rewrite others_app, O1, O2.
    + now rewrite gradients_app, G1, G2.
  - cbn [pointer_eqb].
    eapply total_bind_pure with (P' := Painting els g)
                                (F := quiet layout);
      [apply total_ret; intros w P; now split|].
    intros first [O1 G1].
    eapply total_bind_pure with (P' := Painting els g)
                                (F := quiet layout);
      [apply userpic_total; now apply F|].
    intros second [O2 G2]. apply total_ret. intros w P.
    split; [exact P|]. split.
    + now rewrite others_app, O1, O2.
    + now rewrite gradients_app, G1, G2.
Qed.

Lemma paintBoth_total (slot : Z) :
  0 <= slot ->
  Single.valid (singleAt st layout e top slot) = true ->
  total (Painting els g)
    (paintBoth color render (singleAt st layout e top slot))
    (fun log w => Painting els g w
                  /\ (others layout log = [slot]
                      /\ gradients layout log = [slot]
                      /\ forall seen, layered layout seen log)).
Proof.
  intros I V. unfold paintBoth.
  eapply total_bind_pure with (P' := Painting els g);
    [apply (paintGradient_total slot I)|].
  intros gradient [O1 G1].
  eapply total_bind_pure with (P' := Painting els g);
    [apply (paintOther_total slot I V)|].
  intros other [O2 G2]. apply total_ret. intros w P. split; [exact P|].
  split; [now rewrite others_app, O1, O2|].
  split; [now rewrite gradients_app, G1, G2|].
  intro seen. apply layered_app; apply layered_intro.
  - rewrite O1. intros s [].
  - rewrite O2, G1. intros s [<- | []]. now left.
Qed.

(** The walk returns, and has painted every shown slot once. *)
Lemma enumerate_total (first : Z) (steps : nat) (ng sk : bool) :
  0 <= first ->
  total (Painting els g)
    (enumerate st color render layout e top first steps
       (first + Z.of_nat steps) ng sk)
    (fun log w =>
       Painting els g w
       /\ (Strokes (fun s => Single.valid (singleAt st layout e top s))
             first (first + Z.of_nat steps) ng sk
             (others layout log) (gradients layout log)
           /\ forall seen,
               (ng = true -> In (first + Z.of_nat steps - 1) seen) ->
               layered layout seen log)).
Proof.
  intro F. revert ng sk.
  induction steps as [|steps IH]; intros ng sk.
  { apply total_ret. intros w P. split; [exact P|].
    cbn [others gradients layered].
    repeat split; try constructor; intros; try contradiction; lia. }
  cbn [enumerate].
  replace (first + Z.of_nat (S steps) - 1) with (first + Z.of_nat steps)
    by lia.
  replace (first + Z.of_nat (S steps)) with (first + Z.of_nat steps + 1)
    by lia.
  set (j := first + Z.of_nat steps) in *.
  assert (J : first <= j) by lia.
  set (shown := fun s => Single.valid (singleAt st layout e top s)) in *.
  (* next *)
  eapply total_bind_pure
    with (P' := Painting els g)
         (F := fun next =>
                 next = if 0 <? j then singleAt st layout e top (j - 1)
                        else Single.none).
  { destruct (0 <? j) eqn:Pos.
    - apply lookup_total. apply Z.ltb_lt in Pos. lia.
    - now apply total_ret. }
  intros next Next.
  assert (N : Single.valid next = true ->
              0 < j /\ next = singleAt st layout e top (j - 1)).
  { rewrite Next. destruct (0 <? j) eqn:Pos; [|discriminate].
    apply Z.ltb_lt in Pos. now split. }
  clear Next.
  (* current *)
  eapply total_bind_pure with (P' := Painting els g);
    [apply (lookup_total j); lia|].
  intros current ->.
  destruct (Single.valid (singleAt st layout e top j)) eqn:V.
  2: { eapply total_post; [|apply IH].
       intros log w [P [S L]]. split; [exact P|].
       split; [now apply Strokes_skip|].
       intros seen _. apply L. discriminate. }
  (* the slot before the first one *)
  eapply total_bind_pure
    with (P' := Painting els g)
         (F := fun skipped1 =>
                 ((fst skipped1 = sk
                   /\ others layout (snd skipped1) = []
                   /\ gradients layout (snd skipped1) = [])
                  \/ (j = first /\ shown (j - 1) = true /\ sk = false
                      /\ fst skipped1 = true
                      /\ others layout (snd skipped1) = [j - 1]
                      /\ gradients layout (snd skipped1) = [j - 1]))
                 /\ forall seen, layered layout seen (snd skipped1)).
  { destruct ((j =? first) && Single.valid next && negb sk) eqn:A.
    - apply andb_true_iff in A. destruct A as [A Sk].
      apply andb_true_iff in A. destruct A as [A Vn].
      apply Z.eqb_eq in A. apply negb_true_iff in Sk.
      destruct (N Vn) as [Pos ->].
      eapply total_bind_pure with (P' := Painting els g);
        [apply (paintBoth_total (j - 1)); [lia | exact Vn]|].
      intros painted (O & G & L). apply total_ret. intros w P.
      split; [exact P|]. split; [|exact L].
      right. cbn [fst snd]. now repeat split.
    - apply total_ret. intros w P. split; [exact P|].
      split; [left; now repeat split | intro; exact I]. }
  intros [sk1 logA] [SA LA]. cbn [fst snd] in SA, LA |- *.
  (* the gradient of the slot *)
  eapply total_bind_pure
    with (P' := Painting els g)
         (F := fun gradient =>
                 others layout gradient = []
                 /\ ((ng = true /\ gradients layout gradient = [])
                     \/ (ng = false
                         /\ gradients layout gradient = [j]))).
  { destruct ng; cbn [negb].
    - apply total_ret. intros w P. split; [exact P|].
      split; [reflexivity|]. now left.
    - eapply total_post; [|apply (paintGradient_total j); lia].
      intros log w [P [O G]]. split; [exact P|].
      split; [exact O|]. now right. }
  intros logB [OB SB].
  (* the gradients painted ahead *)
  apply total_read. intros w0 P0.
  eapply total_weaken with (P' := Painting els g);
    [intros w ->; exact P0|].
  eapply total_bind_pure
    with (P' := Painting els g)
         (F := fun ahead =>
                 ((fst (fst ahead) = false /\ snd (fst ahead) = sk1
                   /\ others layout (snd ahead) = []
                   /\ gradients layout (snd ahead) = [])
                  \/ (first < j /\ shown (j - 1) = true
                      /\ fst (fst ahead) = true
                      /\ ((snd (fst ahead) = sk1
                           /\ others layout (snd ahead) = []
                           /\ gradients layout (snd ahead) = [j - 1])
                          \/ (j - 1 = first /\ shown (j - 2) = true
                              /\ sk1 = false
                              /\ snd (fst ahead) = true
                              /\ others layout (snd ahead) = [j - 2]
                              /\ gradients layout (snd ahead)
                                 = [j - 2; j - 1]))))
                 /\ forall seen, layered layout seen (snd ahead)).
  { destruct ((first <? j) && _ && Single.valid next) eqn:C.
    2: { apply total_ret. intros w P. split; [exact P|].
         split; [left; now repeat split | intro; exact I]. }
    apply andb_true_iff in C. destruct C as [C Vn].
    apply andb_true_iff in C. destruct C as [C _].
    apply Z.ltb_lt in C. destruct (N Vn) as [Pos ->].
    destruct (is_set _ || _).
    2: { apply total_ret. intros w P. split; [exact P|].
         split; [left; now repeat split | intro; exact I]. }
    eapply total_bind_pure
      with (P' := Painting els g)
           (F := fun skipped2 =>
                   ((fst skipped2 = sk1
                     /\ others layout (snd skipped2) = []
                     /\ gradients layout (snd skipped2) = [])
                    \/ (j - 1 = first /\ shown (j - 2) = true
                        /\ sk1 = false
                        /\ fst skipped2 = true
                        /\ others layout (snd skipped2) = [j - 2]
                        /\ gradients layout (snd skipped2) = [j - 2]))
                   /\ forall seen, layered layout seen (snd skipped2)).
    { destruct ((j - 1 =? first) && (0 <? first) && negb sk1) eqn:K.
      2: { apply total_ret. intros w P. split; [exact P|].
           split; [left; now repeat split | intro; exact I]. }
      apply andb_true_iff in K. destruct K as [K Sk].
      apply andb_true_iff in K. destruct K as [K K0].
      apply Z.eqb_eq in K. apply Z.ltb_lt in K0.
      apply negb_true_iff in Sk.
      eapply total_bind_pure with (P' := Painting els g);
        [apply (lookup_total (j - 2)); lia|].
      intros skipped ->.
      destruct (Single.valid (singleAt st layout e top (j - 2))) eqn:V2.
      - eapply total_bind_pure with (P' := Painting els g);
          [apply (paintBoth_total (j - 2)); [lia | exact V2]|].
        intros painted (O & G & L). apply total_ret. intros w P.
        split; [exact P|]. split; [|exact L].
        right. cbn [fst snd]. now repeat split.
      - apply total_ret. intros w P. split; [exact P|].
        split; [left; now repeat split | intro; exact I]. }
    intros [sk2 logS] [SS LS]. cbn [fst snd] in SS, LS |- *.
    eapply total_bind_pure with (P' := Painting els g);
      [apply (paintGradient_total (j - 1)); lia|].
    intros painted [O G]. apply total_ret. intros w P.
    split; [exact P|]. cbn [fst snd]. split.
    2: { intro seen. apply layered_app; [apply LS|].
         apply layered_intro. rewrite O. intros s []. }
    right.
    split; [exact C|]. split; [exact Vn|]. split; [reflexivity|].
    rewrite others_app, gradients_app, O, G.
    destruct SS as [(-> & -> & ->) | (E1 & V2 & E2 & -> & -> & ->)].
    - left. now repeat split.
    - right. now repeat split. }
  intros [[ng' sk2] logC] [SC LC]. cbn [fst snd] in SC, LC |- *.
  (* the userpic of the slot, and the rest of the walk *)
  eapply total_bind_pure with (P' := Painting els g);
    [apply (paintOther_total j); [lia | exact V]|].
  intros other [OD GD].
  eapply total_bind_pure with (P' := Painting els g); [apply IH|].
  intros rest [SR LR]. apply total_ret. intros w P. split; [exact P|].
  split.
  { rewrite !others_app, !gradients_app, OB, OD, GD. cbn [app].
    change (j :: others layout rest) with ([j] ++ others layout rest).
    now apply (Strokes_step shown first j ng sk sk1 ng' sk2). }
  replace (j + 1 - 1) with j by lia.
  intros seen Seen.
  apply layered_app; [apply LA|].
  apply layered_app; [apply layered_intro; rewrite OB; intros s []|].
  apply layered_app; [apply LC|].
  apply layered_app.
  - apply layered_intro. rewrite OD. intros s [<- | []].
    apply in_or_app. right. apply in_or_app.
    destruct SB as [[Ng _] | [_ ->]]; [right | left; now left].
    apply in_or_app. right. now apply Seen.
  - apply LR. intro Ng'. rewrite GD. cbn [app]. apply in_or_app. left.
    destruct SC as [(Ng & _) | (_ & _ & _ & [(_ & _ & ->)
                                           | (_ & _ & _ & _ & _ & ->)])];
      [congruence | now left | right; now left].
Qed.

End Painting.

(** *** Painting fires nothing of its own *)

Ltac silent :=
  repeat lazymatch goal with
  | H : emits _ ?m |- emits _ ?m => exact H
  | H : forall a, emits _ (?m a) |- emits _ (?m _) => apply H
  | |- emits _ (bind _ _) => apply emits_bind; [|intro]
  | |- emits _ (ret _) => apply emits_ret
  | |- emits _ get => apply emits_get
  | |- emits _ (modify _) => apply emits_modify
  | |- emits _ (fail _) => apply emits_fail
  | |- emits _ (if ?c then _ else _) => destruct c
  | |- emits _ (match ?s with _ => _ end) => destruct s
  | |- emits ?g (let x := ?v in @?b x) => change (emits g (b v)); cbv beta
  end.

Section Silent.

Variable st : style.DialogsStoriesList.
Variable color : N.
Variable render : string -> N -> option N.
Variable layout : Layout.t.
Variable e : Q.
Variable top : Q.

Lemma item_at_silent index : emits nothing (item_at index).
Proof. unfold item_at. silent. Qed.

Lemma validateThumbnail_silent index :
  emits nothing (validateThumbnail index).
Proof. pose proof item_at_silent. unfold validateThumbnail. silent. Qed.

Lemma validateName_silent index :
  emits nothing (validateName color render index).
Proof. pose proof item_at_silent. unfold validateName. silent. Qed.

Lemma thumbnailImage_silent index : emits nothing (thumbnailImage index).
Proof. pose proof item_at_silent. unfold thumbnailImage. silent. Qed.

Lemma lookup_silent slot : emits nothing (lookup st layout e top slot).
Proof. unfold lookup, address. silent. Qed.

Lemma paintGradient_silent single :
  emits nothing (paintGradient color render single).
Proof. pose proof validateName_silent. unfold paintGradient. silent. Qed.

Lemma paintOther_silent single : emits nothing (paintOther single).
Proof.
  pose proof validateThumbnail_silent. pose proof thumbnailImage_silent.
  unfold paintOther. silent.
Qed.

Lemma paintBoth_silent single :
  emits nothing (paintBoth color render single).
Proof.
  pose proof paintGradient_silent. pose proof paintOther_silent.
  unfold paintBoth. silent.
Qed.

Lemma enumerate_silent first steps i ng sk :
  emits nothing
    (enumerate st color render layout e top first steps i ng sk).
Proof.
  pose proof lookup_silent. pose proof paintGradient_silent.
  pose proof paintOther_silent. pose proof paintBoth_silent.
  revert i ng sk.
  induction steps as [|steps IH]; intros i ng sk; cbn [enumerate];
    silent; apply IH.
Qed.

End Silent.

Lemma nothing_fired (events : list Event) :
  Forall nothing events -> events = [].
Proof. destruct 1 as [|e events []]. reflexivity. Qed.

(** *** A paint *)

(** The layout a paint starts with: at most one expansion request is
    fired, and the items stay. *)
Lemma computeLayoutCurrent_step (st : style.DialogsStoriesList)
    (w : Widget) :
  WellFormed st -> Sound st w ->
  exists change w1,
    computeLayoutCurrent st w
    = mkRun (if change : bool
             then [toggleExpandedRequests (negb (_expanded w))]
             else [])
        (Returned (layoutNow st w1) w1)
    /\ Sound st w1
    /\ _data w1 = _data w
    /\ unpainted w1 = unpainted w.
Proof.
  intros WF S.
  destruct (computeLayoutCurrent_secure st w S) as (ev & w1 & E & S1).
  assert (K : keeps _data (computeLayoutCurrent st)) by untouched.
  pose proof (keeps_run _ _ _ _ _ _ K E) as D.
  assert (K' : keeps unpainted (computeLayoutCurrent st)) by untouched.
  pose proof (keeps_run _ _ _ _ _ _ K' E) as U'.
  destruct (updateExpanding_step (reportedHeight w)
              (style.height (style.full st)) w
              (reportedHeight_contract st w S))
    as (change & w2 & U & _).
  exists change, w1.
  split; [|split; [exact S1|split; [exact D | exact U']]].
  rewrite E. f_equal.
  unfold computeLayoutCurrent in E. rewrite bind_get in E.
  fold (reportedHeight w) in E.
  rewrite (bind_returned _ _ _ _ _ _ U), bind_get in E.
  cbn [ret fired outcome] in E. rewrite app_nil_r in E.
  now injection E.
Qed.

Lemma paintEvent_run (st : style.DialogsStoriesList) (color : N)
    (render : string -> N -> option N) (w : Widget) :
  WellFormed st -> Sound st w -> Thumbnails w ->
  exists change w1 log w',
    computeLayoutCurrent st w
    = mkRun (if change : bool
             then [toggleExpandedRequests (negb (_expanded w))]
             else [])
        (Returned (layoutNow st w1) w1)
    /\ paintEvent st color render w
       = mkRun (if change
                then [toggleExpandedRequests (negb (_expanded w))]
                else [])
           (Returned log w')
    /\ Sound st w1
    /\ _data w1 = _data w
    /\ unpainted w1 = unpainted w
    /\ paintFrame w' = paintFrame w1
    /\ firstSlot (layoutNow st w1) <= countSlots (layoutNow st w1)
    /\ Strokes
         (fun s =>
            Single.valid
              (singleAt st (layoutNow st w1)
                 (expandRatioFor (Layout.ratio (layoutNow st w1)))
                 (Float64.of_int (style.photoTop (style.small st))
                  + (Float64.of_int (style.photoTop (style.full st))
                     - Float64.of_int (style.photoTop (style.small st)))
                    * Layout.expandedRatio (layoutNow st w1))%Q s))
         (firstSlot (layoutNow st w1)) (countSlots (layoutNow st w1))
         false false
         (others (layoutNow st w1) log) (gradients (layoutNow st w1) log)
    /\ layered (layoutNow st w1) [] log.
Proof.
  intros WF S T.
  destruct (computeLayoutCurrent_step st w WF S)
    as (change & w1 & E & S1 & D & U).
  exists change, w1.
  destruct (computeLayout_windows st
              (Animations.value (_expandedAnimation w1)
                 (if _expanded w1 then 1%Q else 0%Q)) w1 WF)
    as (Small & Small' & Full0 & Full1).
  fold (layoutNow st w1) in Small, Small', Full0, Full1.
  set (layout := layoutNow st w1) in *.
  assert (C : firstSlot layout <= countSlots layout)
    by (unfold firstSlot, countSlots; lia).
  assert (T1 : Forall (fun element => Element.thumbnail element <> None)
                 (elements_of w1))
    by (unfold elements_of; rewrite D; exact T).
  destruct (enumerate_total st color render layout
              (expandRatioFor (Layout.ratio layout))
              (Float64.of_int (style.photoTop (style.small st))
               + (Float64.of_int (style.photoTop (style.full st))
                  - Float64.of_int (style.photoTop (style.small st)))
                 * Layout.expandedRatio layout)%Q
              (elements_of w1) (behind w1) (items_size w1)
              (elements_size w1) (conj Small (proj2 Small'))
              (conj Full0 Full1) T1
              (firstSlot layout)
              (Z.to_nat (countSlots layout - firstSlot layout))
              false false ltac:(unfold firstSlot; lia) w1 eq_refl)
    as (ev & log & w' & R & P & Str & Lay).
  rewrite Z2Nat.id in R, Str by lia.
  replace (firstSlot layout + (countSlots layout - firstSlot layout))
    with (countSlots layout) in R, Str by lia.
  specialize (Lay [] ltac:(discriminate)).
  match type of R with
  | enumerate _ _ _ _ ?e ?top ?first ?steps ?i _ _ _ = _ =>
      pose proof (enumerate_silent st color render layout e top first
                    steps i false false w1) as Quiet
  end.
  rewrite R in Quiet. cbn [fired] in Quiet.
  apply nothing_fired in Quiet. subst ev.
  exists log, w'. split; [exact E|]. split.
  { unfold paintEvent. rewrite (bind_returned _ _ _ _ _ _ E).
    cbv zeta. fold layout. fold (firstSlot layout) (countSlots layout).
    replace (countSlots layout <? firstSlot layout) with false
      by (symmetry; apply Z.ltb_ge; exact C).
    rewrite R. cbn [fired outcome]. now rewrite app_nil_r. }
  split; [exact S1|]. split; [exact D|]. split; [exact U|].
  split; [exact P|]. split; [exact C|]. split; [exact Str | exact Lay].
Qed.

(** The strokes of a whole paint, read off the walk. *)
Lemma Strokes_whole (shown : Z -> bool) (first count : Z)
    (os gs : list Z) :
  first <= count ->
  Strokes shown first count false false os gs ->
  NoDup os /\ NoDup gs
  /\ (forall s, In s os \/ In s gs ->
        shown s = true /\ first - 1 <= s < count)
  /\ (forall s, first <= s < count -> shown s = true ->
        In s os /\ In s gs).
Proof.
  intros C (O1 & O2 & O3 & G1 & G2 & G3 & _).
  split; [exact O1|]. split; [exact G1|]. split.
  - intros s [I | I].
    + apply O2 in I. destruct I as [V [R | [R _]]];
        (split; [exact V | lia]).
    + apply G2 in I. destruct I as [V [[R _] | [R _]]];
        (split; [exact V | lia]).
  - intros s R S. split; [now apply O3 | now apply G3].
Qed.

Lemma gesture_behind (w w' : Widget) :
  behind w' = behind w -> gesture w' = gesture w.
Proof.
  intro E. change (gesture (behind w') = gesture (behind w)).
  now rewrite E.
Qed.

(** X24: a paint of a widget whose numbers are in range and whose items
    all have thumbnails returns: no item is addressed out of range, no
    missing thumbnail is read and the [Expects] of the second painter
    holds.  The paint fires nothing but the expansion request of
    [updateExpanding], at most one; it changes nothing of the widget but
    the caches of the items, the stored ratio and the expansion; and it
    leaves the numbers in range. *)
Theorem paintEvent_returns (st : style.DialogsStoriesList) (color : N)
    (render : string -> N -> option N) (w : Widget) :
  WellFormed st -> Sound st w -> Thumbnails w ->
  exists events log w',
    paintEvent st color render w = mkRun events (Returned log w')
    /\ (events = []
        \/ events = [toggleExpandedRequests (negb (_expanded w))])
    /\ unpainted w' = unpainted w
    /\ Sound st w'.
Proof.
  intros WF S T.
  destruct (paintEvent_run st color render w WF S T)
    as (change & w1 & log & w' & _ & E & S1 & _ & U & P & _).
  pose proof (f_equal fst P) as P1. pose proof (f_equal snd P) as P2.
  cbn [paintFrame fst snd] in P1, P2.
  exists (if change then [toggleExpandedRequests (negb (_expanded w))]
          else []), log, w'.
  split; [exact E|]. split; [destruct change; auto|]. split.
  - rewrite <- U. unfold unpainted. now rewrite P1, P2.
  - apply (Sound_frame st w1); [|exact S1]. now apply gesture_behind.
Qed.

Lemma paintEvent_returns_witness :
  WellFormed Sample.st
  /\ Sound Sample.st Sample.scrolled
  /\ Thumbnails Sample.scrolled
  /\ exists events log w',
       paintEvent Sample.st 255 (fun _ _ => Some 1%N) Sample.scrolled
       = mkRun events (Returned log w')
       /\ (events = []
           \/ events
              = [toggleExpandedRequests (negb (_expanded Sample.scrolled))])
       /\ unpainted w' = unpainted Sample.scrolled
       /\ Sound Sample.st w'.
Proof.
  assert (WF : WellFormed Sample.st)
    by (split; [discriminate | split; reflexivity]).
  assert (S : Sound Sample.st Sample.scrolled).
  { split; [split; discriminate|]. split; [split; discriminate|].
    split; [first [exact I | split; discriminate]|].
    split; [first [exact I | split; discriminate] | discriminate]. }
  assert (T : Thumbnails Sample.scrolled)
    by (repeat constructor; discriminate).
  split; [exact WF|]. split; [exact S|]. split; [exact T|].
  exact (paintEvent_returns Sample.st 255 (fun _ _ => Some 1%N)
           Sample.scrolled WF S T).
Defined.

(** X25: in such a paint no slot is given twice to a painter: the userpic
    of a slot is painted at most once and so is its gradient, although
    the gradient of the next slot and both layers of the slot before the
    first one are painted ahead.  What is painted is a slot that shows an
    item, of the walk [firstSlot, countSlots) or the one before it; and
    every slot of the walk that shows an item gets its userpic and its
    gradient. *)
Theorem paintEvent_paints_each_slot_once (st : style.DialogsStoriesList)
    (color : N) (render : string -> N -> option N) (w : Widget) :
  WellFormed st -> Sound st w -> Thumbnails w ->
  exists layout log,
    (exists events w1,
       computeLayoutCurrent st w = mkRun events (Returned layout w1))
    /\ (exists events w',
          paintEvent st color render w = mkRun events (Returned log w'))
    /\ NoDup (others layout log)
    /\ NoDup (gradients layout log)
    /\ (forall s,
          In s (others layout log) \/ In s (gradients layout log) ->
          slotShown layout (expandRatioFor (Layout.ratio layout)) s = true
          /\ firstSlot layout - 1 <= s < countSlots layout)
    /\ (forall s,
          firstSlot layout <= s < countSlots layout ->
          slotShown layout (expandRatioFor (Layout.ratio layout)) s = true ->
          In s (others layout log) /\ In s (gradients layout log)).
Proof.
  intros WF S T.
  destruct (paintEvent_run st color render w WF S T)
    as (change & w1 & log & w' & L & E & _ & _ & _ & _ & C & Str & _).
  exists (layoutNow st w1), log.
  split; [eexists; eexists; exact L|].
  split; [eexists; eexists; exact E|].
  apply Strokes_whole in Str; [|exact C].
  destruct Str as (O & G & In1 & In2).
  split; [exact O|]. split; [exact G|]. split.
  - intros s I. specialize (In1 s I). cbv beta in In1.
    now rewrite slotShown_valid in In1.
  - intros s R V. apply In2; [exact R|]. cbv beta.
    now rewrite slotShown_valid.
Qed.

Lemma paintEvent_paints_each_slot_once_witness :
  WellFormed Sample.st
  /\ Sound Sample.st Sample.expanded
  /\ Thumbnails Sample.expanded
  /\ exists layout log,
       (exists events w1,
          computeLayoutCurrent Sample.st Sample.expanded
          = mkRun events (Returned layout w1))
       /\ (exists events w',
             paintEvent Sample.st 255 (fun _ _ => Some 1%N) Sample.expanded
             = mkRun events (Returned log w'))
       /\ NoDup (others layout log)
       /\ NoDup (gradients layout log)
       /\ (forall s,
             In s (others layout log) \/ In s (gradients layout log) ->
             slotShown layout (expandRatioFor (Layout.ratio layout)) s
             = true
             /\ firstSlot layout - 1 <= s < countSlots layout)
       /\ (forall s,
             firstSlot layout <= s < countSlots layout ->
             slotShown layout (expandRatioFor (Layout.ratio layout)) s
             = true ->
             In s (others layout log) /\ In s (gradients layout log)).
Proof.
  assert (WF : WellFormed Sample.st)
    by (split; [discriminate | split; reflexivity]).
  assert (S : Sound Sample.st Sample.expanded).
  { split; [split; discriminate|]. split; [split; discriminate|].
    split; [first [exact I | split; discriminate]|].
    split; [first [exact I | split; discriminate] | discriminate]. }
  assert (T : Thumbnails Sample.expanded)
    by (repeat constructor; discriminate).
  split; [exact WF|]. split; [exact S|]. split; [exact T|].
  exact (paintEvent_paints_each_slot_once Sample.st 255
           (fun _ _ => Some 1%N) Sample.expanded WF S T).
Defined.

(** X26: a paint goes from the back to the front.  The userpics of the
    slots of the walk are painted from the last slot to the first one, so
    that in the compact row, where the cells overlap, each userpic covers
    the one after it; and no userpic is painted before its own gradient:
    when the second painter is called for a slot, the first painter has
    been called for that slot before. *)
Theorem paintEvent_paints_back_to_front (st : style.DialogsStoriesList)
    (color : N) (render : string -> N -> option N) (w : Widget) :
  WellFormed st -> Sound st w -> Thumbnails w ->
  exists layout log,
    (exists events w1,
       computeLayoutCurrent st w = mkRun events (Returned layout w1))
    /\ (exists events w',
          paintEvent st color render w = mkRun events (Returned log w'))
    /\ StronglySorted (fun a b => firstSlot layout <= a -> b < a)
         (others layout log)
    /\ layered layout [] log.
Proof.
  intros WF S T.
  destruct (paintEvent_run st color render w WF S T)
    as (change & w1 & log & w' & L & E & _ & _ & _ & _ & _ & Str & Lay).
  exists (layoutNow st w1), log.
  split; [eexists; eexists; exact L|].
  split; [eexists; eexists; exact E|].
  split; [|exact Lay].
  exact (proj2 (proj2 (proj2 (proj2 (proj2 (proj2 Str)))))).
Qed.

Lemma paintEvent_paints_back_to_front_witness :
  WellFormed Sample.st
  /\ Sound Sample.st Sample.halfway
  /\ Thumbnails Sample.halfway
  /\ exists layout log,
       (exists events w1,
          computeLayoutCurrent Sample.st Sample.halfway
          = mkRun events (Returned layout w1))
       /\ (exists events w',
             paintEvent Sample.st 255 (fun _ _ => Some 1%N) Sample.halfway
             = mkRun events (Returned log w'))
       /\ StronglySorted (fun a b => firstSlot layout <= a -> b < a)
            (others layout log)
       /\ layered layout [] log.
Proof.
  assert (WF : WellFormed Sample.st)
    by (split; [discriminate | split; reflexivity]).
  assert (S : Sound Sample.st Sample.halfway).
  { split; [split; discriminate|]. split; [split; discriminate|].
    split; [first [exact I | split; discriminate]|].
    split; [first [exact I | split; discriminate] | discriminate]. }
  assert (T : Thumbnails Sample.halfway)
    by (repeat constructor; discriminate).
  split; [exact WF|]. split; [exact S|]. split; [exact T|].
  exact (paintEvent_paints_back_to_front Sample.st 255
           (fun _ _ => Some 1%N) Sample.halfway WF S T).
Defined.

(** *** Paints between the inputs *)

Lemma merge_thumbnail (item : Item.t) (element : Element.t) :
  Element.thumbnail element <> None ->
  Element.thumbnail (Item.element (merge item element)) <> None.
Proof.
  intro T. unfold merge.
  destruct (negb (Element.thumbnail_eqb _ _)) eqn:Differs.
  - destruct (negb (String.eqb _ _)); exact T.
  - apply negb_false_iff in Differs.
    assert (T' : Element.thumbnail (Item.element item) <> None).
    { intro N. rewrite N in Differs. unfold Element.thumbnail_eqb in Differs.
      destruct (Element.thumbnail element); [discriminate | now apply T]. }
    destruct (negb (String.eqb _ _)); exact T'.
Qed.

Lemma reconcile_thumbnails (elements : list Element.t)
    (items result : list Item.t) :
  Forall (fun element => Element.thumbnail element <> None) elements ->
  Forall (fun element => Element.thumbnail element <> None)
    (map Item.element result) ->
  Forall (fun element => Element.thumbnail element <> None)
    (map Item.element (reconcile elements items result)).
Proof.
  intro E. revert items result.
  induction E as [|element elements T _ IH]; intros items result R;
    cbn [reconcile]; [exact R|].
  destruct (take_by_id _ _) as [[found items']|]; apply IH;
    rewrite map_app; apply Forall_app; (split; [exact R|]);
    constructor; try constructor.
  - now apply merge_thumbnail.
  - exact T.
Qed.

Section Thumbnailed.

Variable st : style.DialogsStoriesList.
Hypothesis WF : WellFormed st.
Variable RightToLeft : bool.
Variable startDragDistance : Z.
Variable origin : QPoint.t.
Variable color : N.
Variable render : string -> N -> option N.

Lemma Thumbnails_frame (w w' : Widget) :
  elements_of w' = elements_of w -> Thumbnails w -> Thumbnails w'.
Proof. unfold Thumbnails. now intros ->. Qed.

Lemma showContent_thumbnails (c : Content.t) :
  Forall (fun element => Element.thumbnail element <> None)
    (Content.elements c) ->
  upholds Thumbnails (showContent st c).
Proof.
  intro T. unfold showContent, upholds. apply hoare_read. intros w0 I.
  destruct (Content.eqb (_content w0) c);
    [apply hoare_ret; now intros w ->|].
  destruct (Content.elements c) as [|e rest] eqn:Els.
  - intros w ->. rewrite !bind_modify. constructor.
  - set (items := reconcile (e :: rest) (Data.items (_data w0)) []).
    apply (hoare_post _ _ (fun _ w => elements_of w = map Item.element items)).
    { intros _ w E. unfold Thumbnails. rewrite E.
      apply reconcile_thumbnails; [exact T | constructor]. }
    apply (hoare_bind _ (fun _ w => w = set_content c w0)).
    { apply hoare_modify. now intros w ->. }
    intros _.
    apply (hoare_bind _
             (fun _ w => elements_of w = map Item.element items)).
    { apply hoare_modify. intros w ->. unfold elements_of.
      cbn [set_data set_content _data _content Data.items]. subst items.
      now rewrite Els. }
    intros _. apply hoare_read. intros w1 S1.
    apply (hoare_bind _
             (fun _ w => elements_of w = map Item.element items)).
    { apply (hoare_weaken _
               (fun w => elements_of w = map Item.element items));
        [now intros w -> |].
      apply hoare_value. destruct (negb _); untouched. }
    intros _.
    apply (hoare_bind _
             (fun _ w => elements_of w = map Item.element items)).
    { apply hoare_value. untouched. }
    intros _. apply hoare_value. destruct (_ =? 0); untouched.
Qed.

Lemma handle_thumbnails (i : Input) :
  withThumbnails i ->
  upholds Thumbnails (handle st RightToLeft startDragDistance origin i).
Proof.
  destruct i; cbn [handle withThumbnails]; intro T;
    try (now apply showContent_thumbnails);
    maintain elements_of Thumbnails_frame.
Qed.

Lemma call_sound (c : Call) :
  callable c ->
  total (fun w => Sound st w /\ Thumbnails w)
    (call st RightToLeft startDragDistance origin color render c)
    (fun _ w => Sound st w /\ Thumbnails w).
Proof.
  destruct c as [i|]; cbn [call callable].
  - intros [T H]. apply total_and.
    + apply (total_weaken _ (Sound st)); [tauto|].
      now apply handle_sound.
    + apply (hoare_weaken _ Thumbnails); [tauto|].
      now apply handle_thumbnails.
  - intros _ w [S T].
    destruct (paintEvent_run st color render w WF S T)
      as (change & w1 & log & w' & _ & E & S1 & D & _ & P & _).
    pose proof (f_equal fst P) as P1. pose proof (f_equal snd P) as P2.
    cbn [paintFrame fst snd] in P1, P2.
    eexists. exists tt, w'. split.
    { rewrite (bind_returned _ _ _ _ _ _ E). reflexivity. }
    split.
    + apply (Sound_frame st w1); [|exact S1]. now apply gesture_behind.
    + unfold Thumbnails. rewrite P1. unfold elements_of. rewrite D.
      exact T.
Qed.

Lemma callAll_sound (calls : list Call) :
  Forall callable calls ->
  total (fun w => Sound st w /\ Thumbnails w)
    (callAll st RightToLeft startDragDistance origin color render calls)
    (fun _ w => Sound st w /\ Thumbnails w).
Proof.
  induction 1 as [|c calls C _ IH]; cbn [callAll].
  - now apply total_ret.
  - apply (total_bind _ (fun _ w => Sound st w /\ Thumbnails w));
      [now apply call_sound | intros _; exact IH].
Qed.

End Thumbnailed.

(** X27: with a style whose full height is not negative and whose cells
    have positive widths, animation clocks that report values between 0
    and 1, and contents whose elements all have thumbnails, the new
    widget answers every sequence of inputs and paints in any order:
    neither a handler nor a paint stops, and after the sequence every
    item has a thumbnail. *)
Theorem calls_never_stop (st : style.DialogsStoriesList) (rtl : bool)
    (startDrag : Z) (origin : QPoint.t) (color : N)
    (render : string -> N -> option N) (calls : list Call) :
  WellFormed st ->
  Forall callable calls ->
  exists events w,
    callAll st rtl startDrag origin color render calls initial
    = mkRun events (Returned tt w)
    /\ Thumbnails w.
Proof.
  intros WF C.
  destruct (callAll_sound st WF rtl startDrag origin color render calls C
              initial (conj (Sound_initial st WF) (Forall_nil _)))
    as (ev & [] & w & E & _ & T).
  now exists ev, w.
Qed.

Lemma calls_never_stop_witness :
  WellFormed Sample.st
  /\ Forall callable
       (map handles (Sample.showing 5)
        ++ [paints; handles (ExpandedHeight 77 false); paints;
            handles (Wheel (Sample.wheel (-150))); paints])
  /\ exists events w,
       callAll Sample.st false 10 Sample.origin 255 (fun _ _ => Some 1%N)
         (map handles (Sample.showing 5)
          ++ [paints; handles (ExpandedHeight 77 false); paints;
              handles (Wheel (Sample.wheel (-150))); paints])
         initial
       = mkRun events (Returned tt w)
       /\ Thumbnails w.
Proof.
  assert (WF : WellFormed Sample.st)
    by (split; [discriminate | split; reflexivity]).
  assert (C : Forall callable
                (map handles (Sample.showing 5)
                 ++ [paints; handles (ExpandedHeight 77 false); paints;
                     handles (Wheel (Sample.wheel (-150))); paints])).
  { repeat constructor; discriminate. }
  split; [exact WF|]. split; [exact C|].
  exact (calls_never_stop Sample.st false 10 Sample.origin 255
           (fun _ _ => Some 1%N) _ WF C).
Defined.

(** ** The collapsed geometry *)

(** Rounding a whole number gives the number. *)
Lemma SafeRound_int (q : Q) (n : Z) :
  (q == inject_Z n)%Q -> Float64.to_int (SafeRound q) = n.
Proof.
  intro E. unfold SafeRound, Float64.to_int.
  cbn [Qnum Qden inject_Z]. rewrite Z.quot_1_r.
  destruct (Qle_bool 0 q).
  - rewrite E. unfold Qfloor, Qplus. cbn [Qnum Qden inject_Z].
    symmetry. apply (Z.div_unique _ _ n 1); lia.
  - unfold Qceiling. rewrite E.
    unfold Qfloor, Qopp, Qminus, Qplus. cbn [Qnum Qden inject_Z Qopp].
    change (Z.pos (1 * 2)) with 2.
    replace (- (n * 2 + - (1) * 1) / 2) with (- n); [lia|].
    apply (Z.div_unique _ _ (- n) 1); lia.
Qed.

(** While the stored ratio is 0 the compact row starts at [st.left], the
    skipped item or not. *)
Lemma compact_left (st : style.DialogsStoriesList) (w : Widget) :
  (_lastRatio w == 0)%Q ->
  (Float64.of_int (x w)
   + QPointF.x (Layout.geometryShift (computeLayout st 0 w))
   + Layout.left (computeLayout st 0 w)
   + Layout.single (computeLayout st 0 w)
     * Float64.of_int
         (Layout.smallSkip (computeLayout st 0 w)
          - Layout.startIndexSmall (computeLayout st 0 w))
   == inject_Z
        ((if State_eqb (_state w) Changing
          then QRect.x (_changingGeometryFrom w) else x w)
         + style.left (style.small st)))%Q.
Proof.
  intro R.
  pose proof (computeLayout_blend st w 0) as B.
  pose proof (computeLayout_ratio st w 0) as Ratio.
  rewrite R in Ratio.
  unfold Blend_eq, Blend_lerp, fields, lerp in B.
  cbn [thumbnailLeft_is photoLeft_is left_is single_is geometryShift_x_is
       geometryShift_y_is] in B.
  destruct B as (_ & _ & BL & BS & BX & _).
  rewrite BL, BS, BX, Ratio. clear BL BS BX Ratio.
  generalize (left_is (expandedFull st w)) (single_is (expandedFull st w))
    (geometryShift_x_is (expandedFull st w)).
  intros leftFull singleFull shiftFull.
  unfold compact, shiftTowards, cellLeftSmall.
  cbn [thumbnailLeft_is photoLeft_is left_is single_is geometryShift_x_is
       geometryShift_y_is].
  unfold computeLayout, Float64.of_int.
  cbn [Layout.smallSkip Layout.startIndexSmall Layout.leftSmall
       Layout.singleSmall].
  set (skip := if (1 <? items_size w) && _ then 1 else 0).
  assert (Skip : skip = 0 \/ skip = 1)
    by (subst skip; destruct (_ && _); auto).
  match goal with
  | |- context [Z.min ?s skip] => generalize s
  end.
  intro start.
  destruct (State_eqb (_state w) Changing); cbn [fst];
    destruct Skip as [-> | ->]; cbn [Z.eqb];
    unfold Z.sub;
    repeat (progress rewrite ?inject_Z_plus, ?inject_Z_mult, ?inject_Z_opp);
    change (inject_Z 0) with 0%Q; change (inject_Z 1) with 1%Q; ring.
Qed.

(** X28: unless the row is fully expanded, the collapsed geometry is the
    compact geometry with its left edge moved: the top, the right and the
    bottom edge are those of [countSmallGeometry].  While the stored
    ratio is 0 the left edge is [st.left] inside the widget, or inside
    the geometry the change of the state started from, whether the first
    item is skipped or not. *)
Theorem collapsedGeometryCurrent_edges (st : style.DialogsStoriesList)
    (w : Widget) :
  Float64.eqb
    (Animations.value (_expandedAnimation w)
       (if _expanded w then 1%Q else 0%Q)) 1 = false ->
  QRect.y1 (CollapsedGeometry.geometry (collapsedGeometryCurrent st w))
  = QRect.y1 (countSmallGeometry st w)
  /\ QRect.x2 (CollapsedGeometry.geometry (collapsedGeometryCurrent st w))
     = QRect.x2 (countSmallGeometry st w)
  /\ QRect.y2 (CollapsedGeometry.geometry (collapsedGeometryCurrent st w))
     = QRect.y2 (countSmallGeometry st w)
  /\ ((_lastRatio w == 0)%Q ->
      QRect.x1 (CollapsedGeometry.geometry (collapsedGeometryCurrent st w))
      = (if State_eqb (_state w) Changing
         then QRect.x (_changingGeometryFrom w) else x w)
        + style.left (style.small st)).
Proof.
  intro E. unfold collapsedGeometryCurrent. rewrite E. cbv zeta.
  cbn [CollapsedGeometry.geometry].
  set (small := countSmallGeometry st w).
  unfold QRect.make.
  cbn [QRect.x1 QRect.y1 QRect.x2 QRect.y2].
  unfold QRect.x, QRect.y, QRect.width, QRect.height.
  split; [reflexivity|]. split; [lia|]. split; [lia|].
  intro R. apply SafeRound_int.
  rewrite <- (compact_left st w R). unfold QRect.x. ring.
Qed.

Lemma collapsedGeometryCurrent_edges_witness :
  Float64.eqb
    (Animations.value (_expandedAnimation Sample.collapsed)
       (if _expanded Sample.collapsed then 1%Q else 0%Q)) 1 = false
  /\ (_lastRatio Sample.collapsed == 0)%Q
  /\ QRect.x1
       (CollapsedGeometry.geometry
          (collapsedGeometryCurrent Sample.st Sample.collapsed))
     = 4
  /\ QRect.x2
       (CollapsedGeometry.geometry
          (collapsedGeometryCurrent Sample.st Sample.collapsed))
     = QRect.x2 (countSmallGeometry Sample.st Sample.collapsed).
Proof.
  assert (E : Float64.eqb
                (Animations.value (_expandedAnimation Sample.collapsed)
                   (if _expanded Sample.collapsed then 1%Q else 0%Q)) 1
              = false) by reflexivity.
  assert (R : (_lastRatio Sample.collapsed == 0)%Q) by reflexivity.
  split; [exact E|]. split; [exact R|].
  destruct (collapsedGeometryCurrent_edges Sample.st Sample.collapsed E)
    as (_ & X2 & _ & X1).
  split; [exact (X1 R) | exact X2].
Defined.

(** ** The caches of an item *)

Lemma item_at_run (w : Widget) (index : Z) (item : Item.t) :
  nth_error (Data.items (_data w)) (Z.to_nat index) = Some item ->
  item_at index w = mkRun [] (Returned item w).
Proof. intro E. unfold item_at. now rewrite bind_get, E. Qed.

Lemma update_item_at (w : Widget) (index : Z) (item : Item.t)
    (f : Item.t -> Item.t) :
  nth_error (Data.items (_data w)) (Z.to_nat index) = Some item ->
  nth_error (Data.items (_data (update_item index f w))) (Z.to_nat index)
  = Some (f item).
Proof.
  intro E. unfold update_item. cbn [_data set_data Data.items].
  now rewrite update_nth_nth_error, Nat.eqb_refl, E.
Qed.

Lemma update_item_others (w : Widget) (index : Z) (f : Item.t -> Item.t)
    (k : nat) :
  k <> Z.to_nat index ->
  nth_error (Data.items (_data (update_item index f w))) k
  = nth_error (Data.items (_data w)) k.
Proof.
  intro N. unfold update_item. cbn [_data set_data Data.items].
  rewrite update_nth_nth_error.
  now destruct (Nat.eqb_spec k (Z.to_nat index)).
Qed.

(** X29: [validateThumbnail] subscribes once.  For an item that has a
    thumbnail it returns; it subscribes to the thumbnail exactly when the
    item was not subscribed; afterwards the item is subscribed and is
    otherwise as it was, and so are the other items and the rest of the
    widget; and a second call subscribes to nothing and changes
    nothing. *)
Theorem validateThumbnail_once (w : Widget) (index : Z) (item : Item.t)
    (thumbnail : N) :
  nth_error (Data.items (_data w)) (Z.to_nat index) = Some item ->
  Element.thumbnail (Item.element item) = Some thumbnail ->
  exists w',
    validateThumbnail index w
    = mkRun []
        (Returned
           (if Item.subscribed item then [] else [subscribedTo thumbnail])
           w')
    /\ nth_error (Data.items (_data w')) (Z.to_nat index)
       = Some (Item.set_subscribed true item)
    /\ (forall k,
          k <> Z.to_nat index ->
          nth_error (Data.items (_data w')) k
          = nth_error (Data.items (_data w)) k)
    /\ behind w' = behind w
    /\ validateThumbnail index w' = mkRun [] (Returned [] w').
Proof.
  intros E T.
  assert (Again : forall w1 item1,
            nth_error (Data.items (_data w1)) (Z.to_nat index)
            = Some item1 ->
            Item.subscribed item1 = true ->
            validateThumbnail index w1 = mkRun [] (Returned [] w1)).
  { intros w1 item1 E1 S1. unfold validateThumbnail.
    now rewrite (bind_returned _ _ _ _ _ _ (item_at_run w1 index item1 E1)),
      S1. }
  destruct (Item.subscribed item) eqn:S.
  - exists w. split; [now apply (Again w item)|].
    split; [rewrite E; destruct item; cbn in S |- *; now subst|].
    split; [reflexivity|]. split; [reflexivity|].
    now apply (Again w item).
  - exists (update_item index (Item.set_subscribed true) w). split.
    { unfold validateThumbnail.
      rewrite (bind_returned _ _ _ _ _ _ (item_at_run w index item E)), S.
      cbn [negb app]. now rewrite bind_modify, T. }
    split; [now apply update_item_at|].
    split; [intros k N; now apply update_item_others|].
    split; [reflexivity|].
    apply (Again _ (Item.set_subscribed true item));
      [now apply update_item_at | reflexivity].
Qed.

Lemma validateThumbnail_once_witness :
  nth_error (Data.items (_data Sample.collapsed)) (Z.to_nat 2)
  = Some (Item.fresh (Sample.element 12))
  /\ Element.thumbnail (Item.element (Item.fresh (Sample.element 12)))
     = Some 12%N
  /\ exists w',
       validateThumbnail 2 Sample.collapsed
       = mkRun [] (Returned [subscribedTo 12] w')
       /\ validateThumbnail 2 w' = mkRun [] (Returned [] w').
Proof.
  assert (E : nth_error (Data.items (_data Sample.collapsed)) (Z.to_nat 2)
              = Some (Item.fresh (Sample.element 12))) by reflexivity.
  assert (T : Element.thumbnail
                (Item.element (Item.fresh (Sample.element 12)))
              = Some 12%N) by reflexivity.
  split; [exact E|]. split; [exact T|].
  destruct (validateThumbnail_once Sample.collapsed 2
              (Item.fresh (Sample.element 12)) 12 E T)
    as (w' & R & _ & _ & _ & Again).
  exists w'. split; [exact R | exact Again].
Defined.

Lemma update_nth_same (k : nat) (f : Item.t -> Item.t)
    (items : list Item.t) (item : Item.t) :
  nth_error items k = Some item -> f item = item ->
  update_nth k f items = items.
Proof.
  revert k.
  induction items as [|i items IH]; intros [|k] E F; cbn in E |- *;
    try discriminate.
  - injection E as ->. now rewrite F.
  - now rewrite (IH k E F).
Qed.

(** X30: [validateName] renders a name when the cached image is null or
    was rendered in another colour, and then stores the image and the
    colour in the item and changes nothing else.  When the image it
    renders is not null a second call renders nothing and changes
    nothing; a null image is rendered again at every call. *)
Theorem validateName_once (color : N) (render : string -> N -> option N)
    (w : Widget) (index : Z) (item : Item.t) :
  nth_error (Data.items (_data w)) (Z.to_nat index) = Some item ->
  exists w',
    validateName color render index w
    = mkRun []
        (Returned
           (if negb (isNull (Item.nameCache item))
               && (Item.nameCacheColor item =? color)%N
            then [] else [renderedName index])
           w')
    /\ nth_error (Data.items (_data w')) (Z.to_nat index)
       = Some
           (if negb (isNull (Item.nameCache item))
               && (Item.nameCacheColor item =? color)%N
            then item
            else Item.mk (Item.element item)
                   (render (Element.name (Item.element item)) color)
                   color (Item.subscribed item))
    /\ (forall k,
          k <> Z.to_nat index ->
          nth_error (Data.items (_data w')) k
          = nth_error (Data.items (_data w)) k)
    /\ behind w' = behind w
    /\ validateName color render index w'
       = mkRun []
           (Returned
              (if negb (isNull (Item.nameCache item))
                  && (Item.nameCacheColor item =? color)%N
                  || negb (isNull
                             (render (Element.name (Item.element item))
                                color))
               then [] else [renderedName index])
              w').
Proof.
  intro E.
  set (rendered :=
         Item.mk (Item.element item)
           (render (Element.name (Item.element item)) color)
           color (Item.subscribed item)).
  destruct (negb (isNull (Item.nameCache item))
            && (Item.nameCacheColor item =? color)%N) eqn:Fresh.
  - assert (R : validateName color render index w
                = mkRun [] (Returned [] w)).
    { unfold validateName.
      now rewrite (bind_returned _ _ _ _ _ _ (item_at_run w index item E)),
        Fresh. }
    exists w. cbn [orb]. now repeat split.
  - set (store := fun item : Item.t =>
                    Item.mk (Item.element item)
                      (render (Element.name (Item.element item)) color)
                      color (Item.subscribed item)).
    exists (update_item index store w).
    assert (E' : nth_error
                   (Data.items (_data (update_item index store w)))
                   (Z.to_nat index)
                 = Some rendered)
      by exact (update_item_at w index item store E).
    split.
    { unfold validateName.
      rewrite (bind_returned _ _ _ _ _ _ (item_at_run w index item E)),
        Fresh.
      cbn [app]. now rewrite bind_modify. }
    split; [exact E'|].
    split; [intros k N; now apply update_item_others|].
    split; [reflexivity|].
    unfold validateName.
    rewrite (bind_returned _ _ _ _ _ _ (item_at_run _ index rendered E')).
    cbn [rendered Item.nameCache Item.nameCacheColor Item.element
         Item.subscribed orb app].
    rewrite N.eqb_refl, andb_true_r.
    destruct (isNull (render _ _)); cbn [negb]; [|reflexivity].
    rewrite bind_modify. cbn [ret fired outcome]. f_equal. f_equal.
    fold store. unfold update_item at 1.
    rewrite (update_nth_same _ _ _ rendered E' eq_refl).
    reflexivity.
Qed.

Lemma validateName_once_witness :
  nth_error (Data.items (_data Sample.collapsed)) (Z.to_nat 2)
  = Some (Item.fresh (Sample.element 12))
  /\ exists w',
       validateName 255 (fun _ _ => Some 1%N) 2 Sample.collapsed
       = mkRun [] (Returned [renderedName 2] w')
       /\ validateName 255 (fun _ _ => Some 1%N) 2 w'
          = mkRun [] (Returned [] w').
Proof.
  assert (E : nth_error (Data.items (_data Sample.collapsed)) (Z.to_nat 2)
              = Some (Item.fresh (Sample.element 12))) by reflexivity.
  split; [exact E|].
  destruct (validateName_once 255 (fun _ _ => Some 1%N) Sample.collapsed 2
              (Item.fresh (Sample.element 12)) E)
    as (w' & R & _ & _ & _ & Again).
  exists w'. split; [exact R | exact Again].
Defined.

(** ** Instances *)

Lemma computeLayout_interpolates_witness :
  (0 <= 1 # 2 <= 1)%Q
  /\ computeLayoutIn Exact Sample.st (1 # 2)%Q Sample.halfway
     = Some (exactly (computeLayout Sample.st (1 # 2) Sample.halfway))
  /\ computeLayoutIn Exact Sample.st 0%Q Sample.halfway
     = Some (exactly (computeLayout Sample.st 0 Sample.halfway))
  /\ computeLayoutIn Exact Sample.st 1%Q Sample.halfway
     = Some (exactly (computeLayout Sample.st 1 Sample.halfway))
  /\ Blend_eq
       (blendOf (exactly (computeLayout Sample.st (1 # 2) Sample.halfway)))
       (Blend_lerp (1 # 2)
          (blendOf (exactly (computeLayout Sample.st 0 Sample.halfway)))
          (blendOf (exactly (computeLayout Sample.st 1 Sample.halfway)))).
Proof.
  assert (H : (0 <= 1 # 2 <= 1)%Q) by (split; discriminate).
  assert (Er : computeLayoutIn Exact Sample.st (1 # 2)%Q Sample.halfway
               = Some (exactly
                         (computeLayout Sample.st (1 # 2) Sample.halfway)))
    by reflexivity.
  assert (E0 : computeLayoutIn Exact Sample.st 0%Q Sample.halfway
               = Some (exactly (computeLayout Sample.st 0 Sample.halfway)))
    by reflexivity.
  assert (E1 : computeLayoutIn Exact Sample.st 1%Q Sample.halfway
               = Some (exactly (computeLayout Sample.st 1 Sample.halfway)))
    by reflexivity.
  split; [exact H|]. split; [exact Er|]. split; [exact E0|].
  split; [exact E1|].
  exact (proj2 (computeLayout_interpolates Sample.st Sample.halfway (1 # 2)
                  _ _ _ H Er E0 E1)).
Defined.

Lemma computeLayout_ends_witness :
  ((_lastRatio Sample.collapsed == 0)%Q
   /\ Blend_eq (fields (computeLayout Sample.st 0 Sample.collapsed))
        (compact Sample.st Sample.collapsed))
  /\ ((_lastRatio Sample.expanded == 1)%Q
      /\ Blend_eq (fields (computeLayout Sample.st 1 Sample.expanded))
           (expandedFull Sample.st Sample.expanded)).
Proof.
  split; (split; [reflexivity|]).
  - exact (proj1 (proj2 (proj2
             (computeLayout_ends Sample.st Sample.collapsed)))
             (Qeq_refl 0)).
  - exact (proj2 (proj2 (proj2
             (computeLayout_ends Sample.st Sample.expanded)))
             (eq_refl : (_lastRatio Sample.expanded == 1)%Q)).
Defined.

Lemma hysteresis_sequence_witness :
  _state initial = Small
  /\ _expanded initial = false
  /\ (_lastRatio initial == 0)%Q
  /\ feed [(0, 100); (50, 100); (73, 100); (70, 100); (67, 100)] initial
     = [[]; []; [toggleExpandedRequests true];
        []; [toggleExpandedRequests false]].
Proof.
  repeat (split; [reflexivity|]).
  exact (hysteresis_sequence initial 1 eq_refl eq_refl eq_refl
           (Qeq_refl 0)).
Defined.

Lemma reconciliation_preserves_cache_witness :
  Data.items (_data Sample.stored)
  = [Sample.painted 10; Sample.painted 11; Sample.painted 12]
  /\ exists w' A' C',
    after (showContent Sample.st
             (Content.mk [Sample.element 10; Sample.element 12])
             Sample.stored)
    = Some w'
    /\ Data.items (_data w') = [A'; C']
    /\ (item_id A' = 10%N
        /\ Item.subscribed A' = true
        /\ Item.nameCache A' = Some 10%N
        /\ Item.nameCacheColor A' = 255%N)
    /\ (item_id C' = 12%N
        /\ Item.subscribed C' = true
        /\ Item.nameCache C' = Some 12%N
        /\ Item.nameCacheColor C' = 255%N).
Proof.
  split; [reflexivity|].
  apply (reconciliation_preserves_cache Sample.st Sample.stored
           (Sample.painted 10) (Sample.painted 11) (Sample.painted 12)
           (Sample.element 10) (Sample.element 12));
    first [reflexivity | discriminate].
Defined.

Lemma updateExpanding_contract_witness :
  (~ contract 5 0
   /\ updateExpanding 5 0 initial = mkRun [] (Stopped ExpectsFailed))
  /\ (contract 50 100
      /\ exists w',
           outcome (updateExpanding 50 100 initial) = Returned tt w').
Proof.
  assert (V : ~ contract 5 0) by (intros [H | H]; discriminate H).
  assert (C : contract 50 100) by (right; reflexivity).
  split; (split; [assumption|]).
  - exact (proj1 (updateExpanding_contract 5 0 initial) V).
  - exact (proj2 (proj2 (proj2 (updateExpanding_contract 50 100 initial))
                    C)).
Defined.

Lemma requestExpanded_always_fires_witness :
  _expanded Sample.scrolled = true
  /\ exists rest,
       fired (wheelEvent Sample.st false Sample.origin (Sample.wheel (-50))
                Sample.scrolled)
       = toggleExpandedRequests true :: rest.
Proof.
  split; [reflexivity|].
  eapply (proj2 requestExpanded_always_fires Sample.st false Sample.origin
            (Sample.wheel (-50)) Sample.scrolled).
  - reflexivity.
  - vm_compute. reflexivity.
  - discriminate.
Defined.
